(** * aisdk-codex: request encoder, response protocol translator, credential session

  A shallow embedding of the TypeScript sources

  - [convert-to-codex-messages.ts]  (module [Encoder]),
  - [codex-language-model.ts]       (modules [LanguageModel] and
                                     [RequestBody]),
  - [codex-provider.ts]             (module [Provider]),
  - [codex-auth.ts]                 (module [CodexAuth]),

  followed by the properties of the specification, one section per
  component, their scenarios, and further properties of the same code.

  Modelling conventions.

  - A value of type [T | undefined] (or [| null]) is an [option T]; the
    operators [a ?? b] and [if (a)] are [nullish] and [truthy] below.
  - A [Map<string, V>] and a [Record<string, string>] are [gmap string V].
  - The TypeScript casts ([as string], [as number], [as Record<...>]) fix
    the wire schema; a parsed JSON object is a record holding the fields
    the code reads, each with the type of its cast.  Only the [arguments]
    of a function call, which the code inspects with [typeof], stays an
    untyped [json] value.
  - [JSON.stringify], [Buffer#toString('base64')] and [randomUUID] belong
    to the host runtime and are the fields of the class [Host];
    [randomUUID n] is the string returned by the [n]-th call.
  - [new Date()] time stamps are left out of the emitted values. *)

From Stdlib Require Import String Ascii ZArith List Lia Bool.
From stdpp Require Import base option list gmap strings pretty.

Open Scope string_scope.
Open Scope list_scope.

Set Warnings "-clear-no-such-hyp".

(** ** JavaScript values and operators *)

Module JS.

#[warnings="-register-all"]
Inductive json : Type :=
| JNull
| JBool (b : bool)
| JNum (n : Z)
| JStr (s : string)
| JArr (elems : list json)
| JObj (fields : list (string * json)).

(** [if (s)] for [s : string | undefined]: the empty string is falsy. *)
Definition truthy (v : option string) : bool :=
  match v with
  | Some s => negb (s =? "")
  | None => false
  end.

(** The value [if (v)] lets through. *)
Definition truthy_value (v : option string) : option string :=
  if truthy v then v else None.

(** [a ?? b] *)
Definition nullish {A : Type} (a b : option A) : option A :=
  match a with
  | Some x => Some x
  | None => b
  end.

(** [a === 'lit'] for [a : string | undefined] *)
Definition same (a : option string) (lit : string) : bool :=
  match a with
  | Some s => s =? lit
  | None => false
  end.

Definition LF : string := String "010"%char EmptyString.
Definition DQ : string := String "034"%char EmptyString.

(** The capabilities the sources take from the runtime. *)
Class Host : Type := {
  JSON_stringify : json -> string;
  base64 : list Byte.byte -> string;
  randomUUID : nat -> string
}.

(** [typeof v === 'string' ? v : JSON.stringify(v)]; [JSON.stringify]
    maps [undefined] to [undefined]. *)
Definition string_or_stringify `{Host} (v : option json) : option string :=
  match v with
  | Some (JStr s) => Some s
  | Some j => Some (JSON_stringify j)
  | None => None
  end.

End JS.

Import JS.

(** ** convert-to-codex-messages.ts *)

Module Encoder.

(** *** The prompt of the host SDK *)

Inductive FileData : Type :=
| data_url (href : string)            (* [part.data instanceof URL] *)
| data_base64 (s : string)            (* [typeof part.data === 'string'] *)
| data_bytes (bytes : list Byte.byte) (* [Uint8Array] *).

Inductive UserPart : Type :=
| user_text (text : string)
| user_file (mediaType : string) (data : FileData) (filename : option string).

Inductive AssistantPart : Type :=
| assistant_text (text : string)
| assistant_reasoning (text : string)
| assistant_tool_call (toolCallId toolName : string) (input : json)
| assistant_file
| assistant_tool_result.

Inductive ResultContent : Type :=
| result_text (text : string)
| result_media.

Inductive ToolResultOutput : Type :=
| out_text (value : string)
| out_error_text (value : string)
| out_json (value : json)
| out_error_json (value : json)
| out_execution_denied (reason : option string)
| out_content (value : list ResultContent)
| out_other.

Inductive ToolPart : Type :=
| tool_result (toolCallId : string) (output : ToolResultOutput)
| tool_approval_response.

Inductive Message : Type :=
| system (content : string)
| user (content : list UserPart)
| assistant (content : list AssistantPart)
| tool (content : list ToolPart).

(** *** The input items of the Responses API *)

Inductive Role : Type := role_system | role_user | role_assistant.

Inductive ContentPart : Type :=
| input_text (text : string)
| output_text (text : string)
| input_image (image_url : string).

Inductive CodexInputItem : Type :=
| message (role : Role) (content : list ContentPart)
| function_call (id call_id name arguments : string)
| function_call_output (call_id output : string).

Record CodexInput : Type := {
  instructions : string;
  input : list CodexInputItem
}.

(** *** Conversion *)

Definition userPart `{Host} (part : UserPart) : ContentPart :=
  match part with
  | user_text t => input_text t
  | user_file mediaType data filename =>
      if String.prefix "image/" mediaType then
        input_image
          match data with
          | data_url href => href
          | data_base64 s => "data:" +:+ mediaType +:+ ";base64," +:+ s
          | data_bytes bytes =>
              "data:" +:+ mediaType +:+ ";base64," +:+ base64 bytes
          end
      else
        input_text ("[File: " +:+ default "unnamed" filename +:+
                    " (" +:+ mediaType +:+ ")]")
  end.

(** [typeof part.input === 'string' ? part.input : JSON.stringify(part.input)] *)
Definition serializeInput `{Host} (v : json) : string :=
  match v with
  | JStr s => s
  | _ => JSON_stringify v
  end.

(** The two arrays an assistant message is split into. *)
Definition assistantPart `{Host}
    (acc : list ContentPart * list CodexInputItem) (part : AssistantPart)
    : list ContentPart * list CodexInputItem :=
  let '(textParts, functionCalls) := acc in
  match part with
  | assistant_text t => (textParts ++ [output_text t], functionCalls)
  | assistant_reasoning t =>
      (textParts ++
         [output_text ("<reasoning>" +:+ LF +:+ t +:+ LF +:+ "</reasoning>")],
       functionCalls)
  | assistant_tool_call toolCallId toolName v =>
      (textParts,
       functionCalls ++
         [function_call toolCallId toolCallId toolName (serializeInput v)])
  | assistant_file | assistant_tool_result => (textParts, functionCalls)
  end.

Definition textPieces (value : list ResultContent) : list string :=
  fold_left
    (fun pieces it =>
       match it with
       | result_text t => pieces ++ [t]
       | result_media => pieces
       end)
    value [].

Definition outputText `{Host} (output : ToolResultOutput) : string :=
  match output with
  | out_text v | out_error_text v => v
  | out_json v | out_error_json v => JSON_stringify v
  | out_execution_denied reason => default "Tool execution denied" reason
  | out_content value => String.concat LF (textPieces value)
  | out_other => ""
  end.

Definition toolPart `{Host} (items : list CodexInputItem) (part : ToolPart)
    : list CodexInputItem :=
  match part with
  | tool_result toolCallId output =>
      items ++ [function_call_output toolCallId (outputText output)]
  | tool_approval_response => items
  end.

(** The body of the loop over the prompt: [systemParts] and [items]. *)
Definition convertMessage `{Host}
    (acc : list string * list CodexInputItem) (m : Message)
    : list string * list CodexInputItem :=
  let '(systemParts, items) := acc in
  match m with
  | system c => (systemParts ++ [c], items)
  | user parts =>
      (systemParts, items ++ [message role_user (map userPart parts)])
  | assistant parts =>
      let '(textParts, functionCalls) :=
        fold_left assistantPart parts ([], []) in
      (systemParts,
       (match textParts with
        | [] => items
        | _ :: _ => items ++ [message role_assistant textParts]
        end) ++ functionCalls)
  | tool parts => (systemParts, fold_left toolPart parts items)
  end.

Definition convertToCodexInput `{Host} (prompt : list Message) : CodexInput :=
  let '(systemParts, items) := fold_left convertMessage prompt ([], []) in
  {| instructions :=
       match systemParts with
       | [] => "You are a helpful assistant."
       | _ :: _ => String.concat (LF +:+ LF) systemParts
       end;
     input := items |}.

(** *** Tools *)

Inductive Tool : Type :=
| function_tool (name : string) (description : option string) (inputSchema : json)
| provider_tool (id name : string).

Record CodexTool : Type := {
  tool_name : string;
  tool_description : option string;
  tool_strict : bool;
  tool_parameters : json
}.

Definition convertTools (tools : list Tool) : list CodexTool :=
  omap
    (fun t =>
       match t with
       | function_tool n d schema =>
           Some {| tool_name := n; tool_description := d;
                   tool_strict := false; tool_parameters := schema |}
       | provider_tool _ _ => None
       end)
    tools.

Inductive ToolChoice : Type :=
| choice_auto | choice_none | choice_required | choice_tool (toolName : string).

Inductive CodexToolChoice : Type :=
| codex_choice (mode : string)
| codex_function (name : string).

Definition convertToolChoice (toolChoice : option ToolChoice)
    : option CodexToolChoice :=
  match toolChoice with
  | None => None
  | Some choice_auto => Some (codex_choice "auto")
  | Some choice_none => Some (codex_choice "none")
  | Some choice_required => Some (codex_choice "required")
  | Some (choice_tool n) => Some (codex_function n)
  end.

End Encoder.

(** ** codex-language-model.ts *)

Module LanguageModel.

(** *** Wire schema of the upstream event records *)

Record OutputItem : Type := {
  item_type : option string;
  item_name : option string;
  item_id_ : option string
}.

Record InputTokensDetails : Type := { cached_tokens : option Z }.
Record OutputTokensDetails : Type := { reasoning_tokens : option Z }.

Record UsageJson : Type := {
  input_tokens : option Z;
  output_tokens : option Z;
  input_tokens_details : option InputTokensDetails;
  output_tokens_details : option OutputTokensDetails
}.

Record ResponseJson : Type := {
  resp_id : option string;
  resp_model : option string;
  resp_status : option string;
  resp_usage : option UsageJson
}.

(** [parsed = JSON.parse(chunk.data) as Record<string, unknown>] *)
Record Parsed : Type := {
  type : option string;
  delta : option string;
  item : option OutputItem;
  item_id : option string;
  name : option string;
  arguments : option json;
  call_id : option string;
  response : option ResponseJson
}.

(** An event-source chunk, by what the first two lines of the loop body
    make of its [data]. *)
Inductive Chunk : Type :=
| NoData                (* [data] is undefined or empty *)
| DoneMarker            (* [data === '[DONE]'] *)
| Malformed             (* [JSON.parse(data)] throws, or yields [null] so
                           that reading [parsed['type']] throws *)
| Data (parsed : Parsed).

(** *** Results *)

Inductive Unified : Type :=
| u_stop | u_length | u_content_filter | u_tool_calls | u_error | u_other.

Record FinishReason : Type := { unified : Unified; raw : string }.

Record InputTokens : Type := {
  in_total : option Z;
  noCache : option Z;
  cacheRead : option Z;
  cacheWrite : option Z
}.

Record OutputTokens : Type := {
  out_total : option Z;
  text : option Z;
  reasoning : option Z
}.

Record Usage : Type := {
  inputTokens : InputTokens;
  outputTokens : OutputTokens;
  usage_raw : option UsageJson
}.

Inductive Warning : Type :=
| unsupported (feature : string) (details : option string).

(** [LanguageModelV3Content], the variants a result may hold. *)
Inductive Content : Type :=
| c_text (text : string)
| c_reasoning (text : string)
| c_tool_call (toolCallId toolName : string) (input : option string).

(** [LanguageModelV3StreamPart] *)
Inductive StreamPart : Type :=
| stream_start (warnings : list Warning)
| raw_part (rawValue : Parsed)
| text_start (id : string)
| text_delta (id delta : string)
| text_end (id : string)
| reasoning_start (id : string)
| reasoning_delta (id delta : string)
| reasoning_end (id : string)
| tool_input_start (id toolName : string)
| tool_input_delta (id delta : string)
| tool_input_end (id : string)
| tool_call (toolCallId toolName : string) (input : option string)
| response_metadata (id modelId : option string)
| finish (finishReason : FinishReason) (usage : Usage)
| error_part.

(** *** Helpers *)

Definition mapFinishReason (reason : string) : FinishReason :=
  if (reason =? "stop") || (reason =? "completed")
  then {| unified := u_stop; raw := reason |}
  else if (reason =? "length") || (reason =? "max_output_tokens")
  then {| unified := u_length; raw := reason |}
  else if (reason =? "tool_calls") || (reason =? "incomplete")
  then {| unified := u_tool_calls; raw := reason |}
  else if reason =? "content_filter"
  then {| unified := u_content_filter; raw := reason |}
  else if (reason =? "error") || (reason =? "failed")
  then {| unified := u_error; raw := reason |}
  else {| unified := u_other; raw := reason |}.

Definition extractUsage (response : option ResponseJson) : Usage :=
  let usage := response ≫= resp_usage in
  let outputDetails := usage ≫= output_tokens_details in
  let inputDetails := usage ≫= input_tokens_details in
  let inputTotal := usage ≫= input_tokens in
  let outputTotal := usage ≫= output_tokens in
  let cachedTokens := inputDetails ≫= cached_tokens in
  let reasoningTokens := outputDetails ≫= reasoning_tokens in
  {| inputTokens :=
       {| in_total := inputTotal;
          noCache :=
            match inputTotal, cachedTokens with
            | Some t, Some c => Some (t - c)%Z
            | _, _ => None
            end;
          cacheRead := cachedTokens;
          cacheWrite := None |};
     outputTokens :=
       {| out_total := outputTotal;
          text :=
            match outputTotal, reasoningTokens with
            | Some t, Some r => Some (t - r)%Z
            | _, _ => None
            end;
          reasoning := reasoningTokens |};
     usage_raw := usage |}.

Definition emptyUsage : Usage :=
  {| inputTokens :=
       {| in_total := None; noCache := None;
          cacheRead := None; cacheWrite := None |};
     outputTokens := {| out_total := None; text := None; reasoning := None |};
     usage_raw := None |}.

(** The body of an error response: its text, and what [JSON.parse]
    makes of the text ([None] when it throws). *)
Record ErrorObject : Type := { message : option string }.
Record ErrorJson : Type := { error : option ErrorObject }.
Record ErrorBody : Type := {
  body_text : string;
  body_json : option ErrorJson
}.

Definition tryParseErrorMessage (body : ErrorBody) : option string :=
  match body_json body with
  | Some parsed => error parsed ≫= message
  | None => None
  end.

(** *** Transport *)

Record FetchResponse : Type := {
  ok : bool;
  status : N;
  response_text : ErrorBody;     (* [await response.text()] *)
  response_body : list Chunk     (* [response.body], decoded and framed *)
}.

Definition api_error (resp : FetchResponse) : string :=
  let errorBody := response_text resp in
  "Codex API error " +:+ pretty (status resp) +:+ ": " +:+
  default (body_text errorBody) (tryParseErrorMessage errorBody).

Record ToolInfo : Type := { tool_name : string; tool_id : string }.

(** [(parsed['call_id'] as string) ?? itemId ?? randomUUID()]: the
    identifier and the number of calls of [randomUUID] made so far. *)
Definition resolveToolCallId `{Host}
    (call_id itemId : option string) (calls : nat) : string * nat :=
  match nullish call_id itemId with
  | Some i => (i, calls)
  | None => (randomUUID calls, S calls)
  end.

Definition resolveToolName
    (toolCallInfo : gmap string ToolInfo) (p : Parsed) : string :=
  let itemId := item_id p in
  let toolInfo :=
    if truthy itemId then itemId ≫= (fun i => toolCallInfo !! i) else None in
  default "unknown" (nullish (tool_name <$> toolInfo) (name p)).

(** The [args] variable after the accumulator has been consulted, and the
    accumulator map after the entry has been deleted. *)
Definition resolveArgs
    (functionCallArgs : gmap string string) (p : Parsed)
    : option json * gmap string string :=
  match item_id p with
  | Some i =>
      if truthy (Some i) then
        match functionCallArgs !! i with
        | Some acc => (Some (JStr acc), delete i functionCallArgs)
        | None => (arguments p, functionCallArgs)
        end
      else (arguments p, functionCallArgs)
  | None => (arguments p, functionCallArgs)
  end.

(** The item identifier of an [output_item.added] record that registers
    a function call, with the name of the function. *)
Definition addedFunctionCall (p : Parsed) : option (string * string) :=
  match item p with
  | Some it =>
      if same (item_type it) "function_call" && truthy (item_name it) then
        let itemId := nullish (item_id_ it) (item_id p) in
        if truthy itemId then
          match itemId, item_name it with
          | Some i, Some n => Some (i, n)
          | _, _ => None
          end
        else None
      else None
  | None => None
  end.

(** The item identifier and the chunk of a [function_call_arguments.delta]
    record that is taken into account. *)
Definition argumentsDelta (p : Parsed) : option (string * string) :=
  if truthy (item_id p) && truthy (delta p) then
    match item_id p, delta p with
    | Some i, Some d => Some (i, d)
    | _, _ => None
    end
  else None.

Definition responseStatus (resp : option ResponseJson) : string :=
  default "stop" (resp ≫= resp_status).

(** *** doStream *)

Record CallOptions : Type := {
  topK : option Z;
  responseFormat_json : bool;     (* [options.responseFormat?.type === 'json'] *)
  includeRawChunks : bool
}.

(** The warnings of [buildRequestBody]. *)
Definition buildWarnings (options : CallOptions) : list Warning :=
  (match topK options with
   | Some _ => [unsupported "topK" None]
   | None => []
   end) ++
  (if responseFormat_json options
   then [unsupported "responseFormat"
           (Some "JSON response format is not supported by the Codex API")]
   else []).

(** The variables the [transform] closure captures. *)
Record StreamState : Type := {
  toolCallInfo : gmap string ToolInfo;
  functionCallArgs : gmap string string;
  isFirstChunk : bool;
  currentTextId : option string;
  currentReasoningId : option string;
  uuidCalls : nat
}.

Definition initialStreamState : StreamState :=
  {| toolCallInfo := ∅; functionCallArgs := ∅; isFirstChunk := true;
     currentTextId := None; currentReasoningId := None; uuidCalls := 0 |}.

Definition set_tools (info : gmap string ToolInfo) (args : gmap string string)
    (st : StreamState) : StreamState :=
  {| toolCallInfo := info; functionCallArgs := args;
     isFirstChunk := isFirstChunk st;
     currentTextId := currentTextId st;
     currentReasoningId := currentReasoningId st;
     uuidCalls := uuidCalls st |}.

Definition set_isFirstChunk (b : bool) (st : StreamState) : StreamState :=
  {| toolCallInfo := toolCallInfo st; functionCallArgs := functionCallArgs st;
     isFirstChunk := b;
     currentTextId := currentTextId st;
     currentReasoningId := currentReasoningId st;
     uuidCalls := uuidCalls st |}.

Definition set_currentTextId (i : option string) (st : StreamState) : StreamState :=
  {| toolCallInfo := toolCallInfo st; functionCallArgs := functionCallArgs st;
     isFirstChunk := isFirstChunk st;
     currentTextId := i;
     currentReasoningId := currentReasoningId st;
     uuidCalls := uuidCalls st |}.

Definition set_currentReasoningId (i : option string) (st : StreamState) : StreamState :=
  {| toolCallInfo := toolCallInfo st; functionCallArgs := functionCallArgs st;
     isFirstChunk := isFirstChunk st;
     currentTextId := currentTextId st;
     currentReasoningId := i;
     uuidCalls := uuidCalls st |}.

Definition set_uuidCalls (n : nat) (st : StreamState) : StreamState :=
  {| toolCallInfo := toolCallInfo st; functionCallArgs := functionCallArgs st;
     isFirstChunk := isFirstChunk st;
     currentTextId := currentTextId st;
     currentReasoningId := currentReasoningId st;
     uuidCalls := n |}.

(** [if (!current) { current = randomUUID(); ... }]: the identifier in
    force afterwards, the number of [randomUUID] calls, and whether the
    segment has just been opened. *)
Definition openSegment `{Host} (current : option string) (calls : nat)
    : string * nat * bool :=
  match current with
  | Some i =>
      if truthy current then (i, calls, false)
      else (randomUUID calls, S calls, true)
  | None => (randomUUID calls, S calls, true)
  end.

(** What a step of the translator yields: the state afterwards and the
    parts handed to [controller.enqueue], in order. *)
Definition Emit : Type := StreamState * list StreamPart.

Definition onTextDelta `{Host} (p : Parsed) (st : StreamState) : Emit :=
  let '(i, calls, opened) := openSegment (currentTextId st) (uuidCalls st) in
  (set_uuidCalls calls (set_currentTextId (Some i) st),
   (if opened then [text_start i] else []) ++
   [text_delta i (default "" (delta p))]).

Definition closeText (st : StreamState) : Emit :=
  match currentTextId st with
  | Some i =>
      if truthy (currentTextId st)
      then (set_currentTextId None st, [text_end i])
      else (st, [])
  | None => (st, [])
  end.

Definition onReasoningDelta `{Host} (p : Parsed) (st : StreamState) : Emit :=
  let '(i, calls, opened) := openSegment (currentReasoningId st) (uuidCalls st) in
  (set_uuidCalls calls (set_currentReasoningId (Some i) st),
   (if opened then [reasoning_start i] else []) ++
   [reasoning_delta i (default "" (delta p))]).

Definition closeReasoning (st : StreamState) : Emit :=
  match currentReasoningId st with
  | Some i =>
      if truthy (currentReasoningId st)
      then (set_currentReasoningId None st, [reasoning_end i])
      else (st, [])
  | None => (st, [])
  end.

Definition onItemAdded (p : Parsed) (st : StreamState) : Emit :=
  match addedFunctionCall p with
  | Some (itemId, n) =>
      (set_tools (<[itemId := {| tool_name := n; tool_id := itemId |}]>
                    (toolCallInfo st))
                 (functionCallArgs st) st,
       [tool_input_start itemId n])
  | None => (st, [])
  end.

Definition onArgumentsDelta (p : Parsed) (st : StreamState) : Emit :=
  match argumentsDelta p with
  | Some (itemId, d) =>
      let current := default "" (functionCallArgs st !! itemId) in
      (set_tools (toolCallInfo st)
                 (<[itemId := current +:+ d]> (functionCallArgs st)) st,
       [tool_input_delta itemId d])
  | None => (st, [])
  end.

Definition onArgumentsDone `{Host} (p : Parsed) (st : StreamState) : Emit :=
  let itemId := item_id p in
  let toolName := resolveToolName (toolCallInfo st) p in
  let '(args, accumulators) := resolveArgs (functionCallArgs st) p in
  let argsString := string_or_stringify args in
  let '(toolCallId, calls) :=
    resolveToolCallId (call_id p) itemId (uuidCalls st) in
  (set_uuidCalls calls (set_tools (toolCallInfo st) accumulators st),
   (match itemId with
    | Some i => if truthy itemId then [tool_input_end i] else []
    | None => []
    end) ++
   [tool_call toolCallId toolName argsString]).

Definition onCompleted (p : Parsed) (st : StreamState) : Emit :=
  let '(st1, closedText) := closeText st in
  let '(st2, closedReasoning) := closeReasoning st1 in
  let resp := response p in
  (st2,
   closedText ++ closedReasoning ++
   [response_metadata (resp ≫= resp_id) (resp ≫= resp_model);
    finish (mapFinishReason (responseStatus resp)) (extractUsage resp)]).

(** The [if ... else if ...] chain on [type]. *)
Definition dispatch `{Host} (p : Parsed) (st : StreamState) : Emit :=
  if same (type p) "response.output_text.delta" then onTextDelta p st
  else if same (type p) "response.output_text.done" then closeText st
  else if same (type p) "response.reasoning_summary_text.delta"
  then onReasoningDelta p st
  else if same (type p) "response.reasoning_summary_text.done"
  then closeReasoning st
  else if same (type p) "response.output_item.added" then onItemAdded p st
  else if same (type p) "response.function_call_arguments.delta"
  then onArgumentsDelta p st
  else if same (type p) "response.function_call_arguments.done"
  then onArgumentsDone p st
  else if same (type p) "response.completed" then onCompleted p st
  else (st, []).

(** [transform(chunk, controller)] *)
Definition transform `{Host} (options : CallOptions) (st : StreamState)
    (chunk : Chunk) : Emit :=
  match chunk with
  | NoData | DoneMarker => (st, [])
  | Malformed => (st, [error_part])
  | Data parsed =>
      let started :=
        if isFirstChunk st then [stream_start (buildWarnings options)] else [] in
      let rawChunk :=
        if includeRawChunks options then [raw_part parsed] else [] in
      let '(st', parts) := dispatch parsed (set_isFirstChunk false st) in
      (st', started ++ rawChunk ++ parts)
  end.

(** The stream piped through the transformer. *)
Fixpoint pipeThrough `{Host} (options : CallOptions) (st : StreamState)
    (chunks : list Chunk) : Emit :=
  match chunks with
  | [] => (st, [])
  | chunk :: rest =>
      let '(st1, parts) := transform options st chunk in
      let '(st2, more) := pipeThrough options st1 rest in
      (st2, parts ++ more)
  end.

(** [throw new Error(msg)] is [inl msg]. *)
Definition doStream `{Host} (options : CallOptions) (resp : FetchResponse)
    : string + list StreamPart :=
  if negb (ok resp) then inl (api_error resp)
  else inr (snd (pipeThrough options initialStreamState (response_body resp))).

(** *** doGenerate *)

(** The local variables of the buffering loop. *)
Record Buffer : Type := {
  accumulatedText : string;
  b_toolCallInfo : gmap string ToolInfo;
  b_functionCallArgs : gmap string string;
  toolCalls : list Content;
  finishReason : FinishReason;
  usage : Usage;
  responseId : option string;
  responseModelId : option string;
  b_uuidCalls : nat
}.

Definition initialBuffer : Buffer :=
  {| accumulatedText := "";
     b_toolCallInfo := ∅;
     b_functionCallArgs := ∅;
     toolCalls := [];
     finishReason := mapFinishReason "stop";
     usage := emptyUsage;
     responseId := None;
     responseModelId := None;
     b_uuidCalls := 0 |}.

Definition bufferTextDelta (p : Parsed) (b : Buffer) : Buffer :=
  {| accumulatedText := accumulatedText b +:+ default "" (delta p);
     b_toolCallInfo := b_toolCallInfo b;
     b_functionCallArgs := b_functionCallArgs b;
     toolCalls := toolCalls b;
     finishReason := finishReason b; usage := usage b;
     responseId := responseId b; responseModelId := responseModelId b;
     b_uuidCalls := b_uuidCalls b |}.

Definition bufferItemAdded (p : Parsed) (b : Buffer) : Buffer :=
  match addedFunctionCall p with
  | Some (itemId, n) =>
      {| accumulatedText := accumulatedText b;
         b_toolCallInfo :=
           <[itemId := {| tool_name := n; tool_id := itemId |}]>
             (b_toolCallInfo b);
         b_functionCallArgs := b_functionCallArgs b;
         toolCalls := toolCalls b;
         finishReason := finishReason b; usage := usage b;
         responseId := responseId b; responseModelId := responseModelId b;
         b_uuidCalls := b_uuidCalls b |}
  | None => b
  end.

Definition bufferArgumentsDelta (p : Parsed) (b : Buffer) : Buffer :=
  match argumentsDelta p with
  | Some (itemId, d) =>
      let current := default "" (b_functionCallArgs b !! itemId) in
      {| accumulatedText := accumulatedText b;
         b_toolCallInfo := b_toolCallInfo b;
         b_functionCallArgs :=
           <[itemId := current +:+ d]> (b_functionCallArgs b);
         toolCalls := toolCalls b;
         finishReason := finishReason b; usage := usage b;
         responseId := responseId b; responseModelId := responseModelId b;
         b_uuidCalls := b_uuidCalls b |}
  | None => b
  end.

Definition bufferArgumentsDone `{Host} (p : Parsed) (b : Buffer) : Buffer :=
  let itemId := item_id p in
  let toolName := resolveToolName (b_toolCallInfo b) p in
  let '(args, accumulators) := resolveArgs (b_functionCallArgs b) p in
  let argsString := string_or_stringify args in
  let '(toolCallId, calls) :=
    resolveToolCallId (call_id p) itemId (b_uuidCalls b) in
  {| accumulatedText := accumulatedText b;
     b_toolCallInfo := b_toolCallInfo b;
     b_functionCallArgs := accumulators;
     toolCalls := toolCalls b ++ [c_tool_call toolCallId toolName argsString];
     finishReason := finishReason b; usage := usage b;
     responseId := responseId b; responseModelId := responseModelId b;
     b_uuidCalls := calls |}.

Definition bufferCompleted (p : Parsed) (b : Buffer) : Buffer :=
  let resp := response p in
  {| accumulatedText := accumulatedText b;
     b_toolCallInfo := b_toolCallInfo b;
     b_functionCallArgs := b_functionCallArgs b;
     toolCalls := toolCalls b;
     finishReason := mapFinishReason (responseStatus resp);
     usage := extractUsage resp;
     responseId := resp ≫= resp_id;
     responseModelId := resp ≫= resp_model;
     b_uuidCalls := b_uuidCalls b |}.

(** One iteration of the [for (;;)] loop on a parsed record. *)
Definition bufferParsed `{Host} (p : Parsed) (b : Buffer) : Buffer :=
  if same (type p) "response.output_text.delta" then bufferTextDelta p b
  else if same (type p) "response.output_item.added" then bufferItemAdded p b
  else if same (type p) "response.function_call_arguments.delta"
  then bufferArgumentsDelta p b
  else if same (type p) "response.function_call_arguments.done"
  then bufferArgumentsDone p b
  else if same (type p) "response.completed" then bufferCompleted p b
  else b.

Definition bufferChunk `{Host} (b : Buffer) (chunk : Chunk) : Buffer :=
  match chunk with
  | NoData | DoneMarker => b
  | Malformed => b               (* [catch { /* ignore */ }] *)
  | Data parsed => bufferParsed parsed b
  end.

Record ResponseInfo : Type := {
  info_id : option string;
  info_modelId : string
}.

Record GenerateResult : Type := {
  content : list Content;
  result_finishReason : FinishReason;
  result_usage : Usage;
  result_warnings : list Warning;
  result_response : ResponseInfo
}.

Definition doGenerate `{Host} (modelId : string) (options : CallOptions)
    (resp : FetchResponse) : string + GenerateResult :=
  if negb (ok resp) then inl (api_error resp)
  else
    let b := fold_left bufferChunk (response_body resp) initialBuffer in
    inr {| content :=
             (if negb (accumulatedText b =? "")
              then [c_text (accumulatedText b)] else []) ++ toolCalls b;
           result_finishReason := finishReason b;
           result_usage := usage b;
           result_warnings := buildWarnings options;
           result_response :=
             {| info_id := responseId b;
                info_modelId := default modelId (responseModelId b) |} |}.

End LanguageModel.

(** ** codex-provider.ts (with the parts of codex-auth.ts it calls) *)

Module Provider.

(** [CodexProviderSettings] *)
Record Settings : Type := {
  headers : option (gmap string string);
  useApiKey : bool;
  apiKey : option string;
  refreshToken : option string
}.

(** The closure variable [refreshSession] *)
Record Session : Type := {
  accessToken : string;
  session_refreshToken : string;
  accountId : string;
  expiresAt : option Z
}.

(** *** CodexAuth.exchangeRefreshToken *)

Record TokenResponse : Type := {
  id_token : string;
  access_token : string;
  refresh_token : option string
}.

Record IdTokenInfo : Type := {
  email : option string;
  token_name : option string;
  exp : option Z;
  iat : option Z;
  account_id : option string
}.

Record RefreshTokenExchangeResult : Type := {
  exchanged_accessToken : string;
  exchanged_idToken : string;
  exchanged_refreshToken : string;
  exchanged_tokenInfo : IdTokenInfo;
  exchanged_accountId : string
}.

(** What the token endpoint answers to one POST, and what [parseIdToken]
    makes of the identity token it returns. *)
Inductive Answer : Type :=
| refused (errorText : string)                 (* [!response.ok] *)
| granted (tokenResponse : TokenResponse)
          (decoded : string + IdTokenInfo)     (* [inl]: [parseIdToken] throws *).

Definition exchangeRefreshToken (sourceRefreshToken : string) (a : Answer)
    : string + RefreshTokenExchangeResult :=
  match a with
  | refused errorText => inl ("Token refresh failed: " +:+ errorText)
  | granted tokenResponse (inl failure) => inl failure
  | granted tokenResponse (inr tokenInfo) =>
      match account_id tokenInfo with
      | Some accountId =>
          if truthy (Some accountId) then
            inr {| exchanged_accessToken := access_token tokenResponse;
                   exchanged_idToken := id_token tokenResponse;
                   exchanged_refreshToken :=
                     default sourceRefreshToken (refresh_token tokenResponse);
                   exchanged_tokenInfo := tokenInfo;
                   exchanged_accountId := accountId |}
          else inl "No account ID found in ID token returned from refresh token exchange."
      | None =>
          inl "No account ID found in ID token returned from refresh token exchange."
      end
  end.

(** *** ensureRefreshSession

    JavaScript runs one task at a time and a task keeps the processor
    until it awaits.  An invocation of [ensureRefreshSession] is a caller;
    it runs from its first line to its first [await] in one step
    ([invoke]), and from the [await] to its end in another ([resume]),
    once the promise it awaits is settled.  The token exchange settles in a
    step of its own ([settle]), taken by the environment. *)

Inductive Promise : Type :=
| pending (sourceRefreshToken : string)   (* the exchange is in flight *)
| fulfilled
| rejected (reason : string).

Inductive Caller : Type :=
| awaits_own (p : nat)     (* at [await refreshSessionPromise] inside [try] *)
| awaits_shared (p : nat)  (* at [await refreshSessionPromise] of the second [if] *)
| returned
| threw (reason : string).

Record State : Type := {
  refreshSession : option Session;
  refreshSessionPromise : option nat;   (* a reference into [promises] *)
  promises : list Promise;
  exchangeCalls : list string;          (* refresh tokens posted to the endpoint *)
  callers : list Caller
}.

Definition initialState : State :=
  {| refreshSession := None; refreshSessionPromise := None;
     promises := []; exchangeCalls := []; callers := [] |}.

Definition oneHour : Z := 60 * 60 * 1000.

(** The condition of the first [if]: a session exists and its expiry is
    unknown or more than an hour away. *)
Definition sessionIsFresh (session : option Session) (now : Z) : bool :=
  match session with
  | Some s =>
      match expiresAt s with
      | None => true
      | Some e => (oneHour <? e - now)%Z
      end
  | None => false
  end.

(** [refreshSession?.refreshToken ?? options.refreshToken] *)
Definition sourceToken (options : Settings) (session : option Session)
    : option string :=
  nullish (session_refreshToken <$> session) (refreshToken options).

(** A new invocation at time [now], up to its first [await] or its
    [return]. *)
Definition invoke (options : Settings) (now : Z) (st : State) : State :=
  if sessionIsFresh (refreshSession st) now then
    {| refreshSession := refreshSession st;
       refreshSessionPromise := refreshSessionPromise st;
       promises := promises st;
       exchangeCalls := exchangeCalls st;
       callers := callers st ++ [returned] |}
  else
    match refreshSessionPromise st with
    | Some p =>
        {| refreshSession := refreshSession st;
           refreshSessionPromise := Some p;
           promises := promises st;
           exchangeCalls := exchangeCalls st;
           callers := callers st ++ [awaits_shared p] |}
    | None =>
        let p := length (promises st) in
        let source := sourceToken options (refreshSession st) in
        match source with
        | Some token =>
            if truthy source then
              {| refreshSession := refreshSession st;
                 refreshSessionPromise := Some p;
                 promises := promises st ++ [pending token];
                 exchangeCalls := exchangeCalls st ++ [token];
                 callers := callers st ++ [awaits_own p] |}
            else
              {| refreshSession := refreshSession st;
                 refreshSessionPromise := Some p;
                 promises :=
                   promises st ++ [rejected "No refresh token was provided."];
                 exchangeCalls := exchangeCalls st;
                 callers := callers st ++ [awaits_own p] |}
        | None =>
            {| refreshSession := refreshSession st;
               refreshSessionPromise := Some p;
               promises :=
                 promises st ++ [rejected "No refresh token was provided."];
               exchangeCalls := exchangeCalls st;
               callers := callers st ++ [awaits_own p] |}
        end
    end.

(** The exchange of promise [p] completes with answer [a]: the rest of the
    [async] arrow function runs, and its promise settles. *)
Definition settle (p : nat) (a : Answer) (st : State) : option State :=
  match promises st !! p with
  | Some (pending token) =>
      match exchangeRefreshToken token a with
      | inr exchanged =>
          Some {| refreshSession :=
                    Some {| accessToken := exchanged_accessToken exchanged;
                            session_refreshToken :=
                              exchanged_refreshToken exchanged;
                            accountId := exchanged_accountId exchanged;
                            expiresAt :=
                              (fun e => e * 1000)%Z <$>
                                exp (exchanged_tokenInfo exchanged) |};
                  refreshSessionPromise := refreshSessionPromise st;
                  promises := <[p := fulfilled]> (promises st);
                  exchangeCalls := exchangeCalls st;
                  callers := callers st |}
      | inl reason =>
          Some {| refreshSession := refreshSession st;
                  refreshSessionPromise := refreshSessionPromise st;
                  promises := <[p := rejected reason]> (promises st);
                  exchangeCalls := exchangeCalls st;
                  callers := callers st |}
      end
  | _ => None
  end.

(** How an [await] of a settled promise ends. *)
Definition outcome (pr : Promise) : option Caller :=
  match pr with
  | pending _ => None
  | fulfilled => Some returned
  | rejected reason => Some (threw reason)
  end.

(** Caller [c] continues after its [await]; the caller that created the
    promise runs the [finally] block. *)
Definition resume (c : nat) (st : State) : option State :=
  match callers st !! c with
  | Some (awaits_own p) =>
      end_ ← promises st !! p ≫= outcome;
      Some {| refreshSession := refreshSession st;
              refreshSessionPromise := None;
              promises := promises st;
              exchangeCalls := exchangeCalls st;
              callers := <[c := end_]> (callers st) |}
  | Some (awaits_shared p) =>
      end_ ← promises st !! p ≫= outcome;
      Some {| refreshSession := refreshSession st;
              refreshSessionPromise := refreshSessionPromise st;
              promises := promises st;
              exchangeCalls := exchangeCalls st;
              callers := <[c := end_]> (callers st) |}
  | _ => None
  end.

Inductive Event : Type :=
| Invoke (now : Z)
| Settle (p : nat) (a : Answer)
| Resume (c : nat).

Definition perform (options : Settings) (e : Event) (st : State)
    : option State :=
  match e with
  | Invoke now => Some (invoke options now st)
  | Settle p a => settle p a st
  | Resume c => resume c st
  end.

(** A schedule is a sequence of events; it runs as far as every event is
    enabled. *)
Fixpoint run (options : Settings) (schedule : list Event) (st : State)
    : option State :=
  match schedule with
  | [] => Some st
  | e :: rest => perform options e st ≫= run options rest
  end.

(** *** getHeaders *)

(** [{ ...target, ...source }] *)
Definition spread (target source : gmap string string) : gmap string string :=
  source ∪ target.

Definition customHeaders (options : Settings) : gmap string string :=
  default ∅ (headers options).

(** The results of the calls [getHeaders] awaits: the session the
    refresh-token branch finds after [ensureRefreshSession], [loadApiKey]
    for [OPENAI_API_KEY], and [CodexAuth.getAccessToken] and
    [CodexAuth.getAccountId]; [inl] is a thrown error. *)
Record Awaited : Type := {
  ensured : string + Session;
  loadApiKey : string + string;
  getAccessToken : string + string;
  getAccountId : string + string
}.

(** [CodexAuth.getHeaders] *)
Definition CodexAuth_getHeaders (w : Awaited) : string + gmap string string :=
  match getAccessToken w with
  | inl e => inl e
  | inr token =>
      match getAccountId w with
      | inl e => inl e
      | inr account =>
          inr (<["Content-Type" := "application/json"]>
               (<["chatgpt-account-id" := account]>
                (<["Authorization" := "Bearer " +:+ token]> ∅)))
      end
  end.

Definition getHeaders (options : Settings) (w : Awaited)
    : string + gmap string string :=
  match truthy_value (apiKey options) with
  | Some key =>
      (* explicit API key takes priority *)
      inr (<["Content-Type" := "application/json"]>
           (<["Authorization" := "Bearer " +:+ key]>
            (spread ∅ (customHeaders options))))
  | None =>
  if truthy (refreshToken options) then
    (* exchange and refresh using the refresh token *)
    match ensured w with
    | inl e => inl e
    | inr session =>
        inr (spread
               (<["accept" := "text/event-stream"]>
                (<["originator" := "codex"]>
                 (<["Content-Type" := "application/json"]>
                  (<["chatgpt-account-id" := accountId session]>
                   (<["Authorization" := "Bearer " +:+ accessToken session]>
                    ∅)))))
               (customHeaders options))
    end
  else if useApiKey options then
    (* load from the environment variable *)
    match loadApiKey w with
    | inl e => inl e
    | inr key =>
        inr (<["Content-Type" := "application/json"]>
             (<["Authorization" := "Bearer " +:+ key]>
              (spread ∅ (customHeaders options))))
    end
  else
    (* default: ~/.codex/auth.json *)
    match CodexAuth_getHeaders w with
    | inr authHeaders =>
        inr (spread
               (<["accept" := "text/event-stream"]>
                (<["originator" := "codex"]> (spread ∅ authHeaders)))
               (customHeaders options))
    | inl e =>
        inl ("Failed to load authentication from ~/.codex/auth.json. " +:+
             "Please run 'codex login' first or provide apiKey/useApiKey/refreshToken. " +:+
             "Error: Error: " +:+ e)
    end
  end.

End Provider.

(** ** A host for the examples

    An instance of [Host] on which the definitions above compute: compact
    JSON text (as [JSON.stringify] prints values whose numbers are integers
    and whose strings hold no control characters), RFC 4648 base64, and
    identifiers [uuid-0], [uuid-1], ... *)

Module ExampleHost.

Definition escape_char (c : ascii) : string :=
  if (Ascii.eqb c "034" || Ascii.eqb c "092")%char
  then String "092"%char (String c EmptyString)
  else String c EmptyString.

Fixpoint escape (s : string) : string :=
  match s with
  | EmptyString => EmptyString
  | String c rest => escape_char c +:+ escape rest
  end.

Definition quote (s : string) : string := DQ +:+ escape s +:+ DQ.

Fixpoint stringify (j : json) : string :=
  match j with
  | JNull => "null"
  | JBool true => "true"
  | JBool false => "false"
  | JNum n => pretty n
  | JStr s => quote s
  | JArr elems => "[" +:+ String.concat "," (map stringify elems) +:+ "]"
  | JObj fields =>
      "{" +:+
      String.concat ","
        (map (fun kv => quote (fst kv) +:+ ":" +:+ stringify (snd kv)) fields)
      +:+ "}"
  end.

Definition alphabet : string :=
  "ABCDEFGHIJKLMNOPQRSTUVWXYZabcdefghijklmnopqrstuvwxyz0123456789+/".

Definition sextet (n : N) : string :=
  match String.get (N.to_nat n) alphabet with
  | Some c => String c EmptyString
  | None => EmptyString
  end.

Fixpoint encode (octets : list N) : string :=
  match octets with
  | [] => ""
  | [a] => sextet (a / 4) +:+ sextet (a mod 4 * 16) +:+ "=="
  | [a; b] =>
      sextet (a / 4) +:+ sextet (a mod 4 * 16 + b / 16) +:+
      sextet (b mod 16 * 4) +:+ "="
  | a :: b :: c :: rest =>
      sextet (a / 4) +:+ sextet (a mod 4 * 16 + b / 16) +:+
      sextet (b mod 16 * 4 + c / 64) +:+ sextet (c mod 64) +:+ encode rest
  end%N.

#[export] Instance host : Host :=
  {| JSON_stringify := stringify;
     base64 := fun bytes => encode (map Byte.to_N bytes);
     randomUUID := fun n => "uuid-" +:+ pretty n |}.

End ExampleHost.

(** * Properties *)

(** ** Request encoder *)

Section EncoderProperties.

Context `{!Host}.
Import Encoder.

(** The contents of the system messages of a prompt, in order. *)
Definition systemContents (prompt : list Message) : list string :=
  omap (fun m => match m with system c => Some c | _ => None end) prompt.

Definition isSystemItem (it : CodexInputItem) : bool :=
  match it with
  | message role_system _ => true
  | _ => false
  end.

Definition noSystemItem (items : list CodexInputItem) : Prop :=
  Forall (fun it => isSystemItem it = false) items.

Lemma noSystemItem_app items more :
  noSystemItem items -> noSystemItem more -> noSystemItem (items ++ more).
Proof. apply Forall_app_2. Qed.

Lemma assistantPart_calls parts : forall textParts functionCalls,
  noSystemItem functionCalls ->
  noSystemItem (snd (fold_left assistantPart parts (textParts, functionCalls))).
Proof.
  induction parts as [|part parts IH]; intros textParts functionCalls Hcalls.
  - exact Hcalls.
  - cbn [fold_left]. destruct part; cbn [assistantPart]; apply IH; try exact Hcalls.
    apply noSystemItem_app; [exact Hcalls|]. repeat constructor.
Qed.

Lemma toolPart_items parts : forall items,
  noSystemItem items -> noSystemItem (fold_left toolPart parts items).
Proof.
  induction parts as [|part parts IH]; intros items Hitems; [exact Hitems|].
  cbn [fold_left]. apply IH. destruct part; cbn [toolPart]; [|exact Hitems].
  apply noSystemItem_app; [exact Hitems|]. repeat constructor.
Qed.

(** One message: system content goes to [systemParts] only, and no item
    pushed has the system role. *)
Lemma convertMessage_spec systemParts items m :
  noSystemItem items ->
  fst (convertMessage (systemParts, items) m)
    = systemParts ++ systemContents [m] /\
  noSystemItem (snd (convertMessage (systemParts, items) m)).
Proof.
  intros Hitems. destruct m as [c|parts|parts|parts]; cbn [convertMessage].
  - split; [reflexivity|exact Hitems].
  - split; [cbn; by rewrite app_nil_r|].
    apply noSystemItem_app; [exact Hitems|]. repeat constructor.
  - pose proof (assistantPart_calls parts [] [] (Forall_nil_2 _)) as Hcalls.
    destruct (fold_left assistantPart parts ([], [])) as [textParts functionCalls].
    cbn [fst snd] in *. split; [cbn; by rewrite app_nil_r|].
    apply noSystemItem_app; [|exact Hcalls].
    destruct textParts; [exact Hitems|].
    apply noSystemItem_app; [exact Hitems|]. repeat constructor.
  - split; [cbn; by rewrite app_nil_r|]. cbn [snd]. by apply toolPart_items.
Qed.

Lemma systemContents_cons m prompt :
  systemContents (m :: prompt) = systemContents [m] ++ systemContents prompt.
Proof. unfold systemContents. cbn. by destruct m. Qed.

Lemma convertMessages_spec prompt : forall systemParts items,
  noSystemItem items ->
  fst (fold_left convertMessage prompt (systemParts, items))
    = systemParts ++ systemContents prompt /\
  noSystemItem (snd (fold_left convertMessage prompt (systemParts, items))).
Proof.
  induction prompt as [|m prompt IH]; intros systemParts items Hitems.
  - cbn. by rewrite app_nil_r.
  - cbn [fold_left].
    destruct (convertMessage_spec systemParts items m Hitems) as [Hsys Hno].
    destruct (convertMessage (systemParts, items) m) as [systemParts' items'].
    cbn [fst snd] in Hsys, Hno. subst systemParts'.
    destruct (IH (systemParts ++ systemContents [m]) items' Hno) as [Hsys' Hno'].
    split; [|exact Hno'].
    rewrite Hsys', (systemContents_cons m prompt). symmetry. apply app_assoc.
Qed.

(** C5. For every conversation, [convertToCodexInput] returns one
    [instructions] string, which is the contents of all system messages
    joined by blank lines, or the fixed default when there is no system
    message, and no item of the returned [input] has the system role. *)
Theorem convertToCodexInput_instructions (prompt : list Message) :
  instructions (convertToCodexInput prompt)
    = match systemContents prompt with
      | [] => "You are a helpful assistant."
      | _ :: _ => String.concat (LF +:+ LF) (systemContents prompt)
      end /\
  noSystemItem (input (convertToCodexInput prompt)).
Proof.
  unfold convertToCodexInput.
  destruct (convertMessages_spec prompt [] [] (Forall_nil_2 _)) as [Hsys Hno].
  destruct (fold_left convertMessage prompt ([], [])) as [systemParts items].
  cbn [fst snd app] in Hsys, Hno. subst systemParts. cbn [instructions input].
  split; [|exact Hno]. by destruct (systemContents prompt).
Qed.

(** The scenario of the specification: a single user message "hi". *)
Example convertToCodexInput_hi :
  convertToCodexInput [user [user_text "hi"]]
  = {| instructions := "You are a helpful assistant.";
       input := [message role_user [input_text "hi"]] |}.
Proof. reflexivity. Qed.

End EncoderProperties.

(** ** Response protocol translator *)

Section TranslatorProperties.

Context `{!Host}.
Import LanguageModel.

(** *** Usage *)

(** The fields of the usage object of the terminal event, as far as they
    are present. *)
Definition eventUsage (response : option ResponseJson) : option UsageJson :=
  response ≫= resp_usage.

Definition eventCachedTokens (response : option ResponseJson) : option Z :=
  (eventUsage response ≫= input_tokens_details) ≫= cached_tokens.

Definition eventReasoningTokens (response : option ResponseJson) : option Z :=
  (eventUsage response ≫= output_tokens_details) ≫= reasoning_tokens.

(** C8. [extractUsage] fills each usage field from the data present on the
    [response.completed] event and from nothing else, and computes
    [noCache = total - cacheRead] and [text = total - reasoning] exactly
    when both operands are present; otherwise they are undefined. *)
Theorem extractUsage_present_fields (response : option ResponseJson) :
  let u := extractUsage response in
  in_total (inputTokens u) = (eventUsage response ≫= input_tokens) /\
  cacheRead (inputTokens u) = eventCachedTokens response /\
  cacheWrite (inputTokens u) = None /\
  out_total (outputTokens u) = (eventUsage response ≫= output_tokens) /\
  reasoning (outputTokens u) = eventReasoningTokens response /\
  usage_raw u = eventUsage response /\
  (forall n : Z,
      noCache (inputTokens u) = Some n <->
      exists total cached : Z,
        (eventUsage response ≫= input_tokens) = Some total /\
        eventCachedTokens response = Some cached /\
        n = (total - cached)%Z) /\
  (forall n : Z,
      text (outputTokens u) = Some n <->
      exists total reasoned : Z,
        (eventUsage response ≫= output_tokens) = Some total /\
        eventReasoningTokens response = Some reasoned /\
        n = (total - reasoned)%Z).
Proof.
  unfold extractUsage, eventCachedTokens, eventReasoningTokens, eventUsage.
  cbn [inputTokens outputTokens in_total cacheRead cacheWrite out_total
       reasoning usage_raw noCache text].
  repeat split; try reflexivity.
  - destruct ((response ≫= resp_usage) ≫= input_tokens) as [t|];
      destruct (((response ≫= resp_usage) ≫= input_tokens_details) ≫= cached_tokens)
        as [c|]; try discriminate.
    intros [= <-]. by exists t, c.
  - intros (t & c & -> & -> & ->). reflexivity.
  - destruct ((response ≫= resp_usage) ≫= output_tokens) as [t|];
      destruct (((response ≫= resp_usage) ≫= output_tokens_details) ≫= reasoning_tokens)
        as [r|]; try discriminate.
    intros [= <-]. by exists t, r.
  - intros (t & r & -> & -> & ->). reflexivity.
Qed.

(** A response without a usage object leaves every field undefined. *)
Lemma extractUsage_absent (response : option ResponseJson) :
  eventUsage response = None -> extractUsage response = emptyUsage.
Proof.
  unfold eventUsage, extractUsage. intros ->. reflexivity.
Qed.

Example extractUsage_scenario :
  let response :=
    Some {| resp_id := None; resp_model := None;
            resp_status := Some "completed";
            resp_usage :=
              Some {| input_tokens := Some 5%Z; output_tokens := Some 2%Z;
                      input_tokens_details := None;
                      output_tokens_details := None |} |} in
  in_total (inputTokens (extractUsage response)) = Some 5%Z /\
  out_total (outputTokens (extractUsage response)) = Some 2%Z /\
  noCache (inputTokens (extractUsage response)) = None /\
  text (outputTokens (extractUsage response)) = None.
Proof. repeat split. Qed.

(** *** Upstream request errors *)

(** [part] occurs inside [whole]. *)
Definition contains (part whole : string) : Prop :=
  exists before after : string, whole = before +:+ part +:+ after.

(** The message of a structured error body
    [{ error: { message: m } }], if the body is one. *)
Definition structuredMessage (body : ErrorBody) : option string :=
  match body_json body with
  | Some {| error := Some {| message := Some m |} |} => Some m
  | _ => None
  end.

Lemma append_nil_r (a : string) : a +:+ "" = a.
Proof.
  induction a as [|x a IH]; [reflexivity|].
  change (String x (a +:+ "") = String x a). by rewrite IH.
Qed.

Lemma append_assoc (a b c : string) : (a +:+ b) +:+ c = a +:+ (b +:+ c).
Proof.
  induction a as [|x a IH]; [reflexivity|].
  change (String x ((a +:+ b) +:+ c) = String x (a +:+ (b +:+ c))).
  by rewrite IH.
Qed.

Lemma contains_suffix (before part : string) :
  contains part (before +:+ part).
Proof. exists before, "". by rewrite append_nil_r. Qed.

(** C9. On a non-success status both entry points throw, without reading
    the event stream and without a second request; the message of the
    error ends with the [message] of a structured error body when the body
    parses as one, and with the raw body text otherwise. *)
Theorem upstream_error_is_fatal
    (modelId : string) (options : CallOptions) (resp : FetchResponse) :
  ok resp = false ->
  let detail :=
    match structuredMessage (response_text resp) with
    | Some m => m
    | None => body_text (response_text resp)
    end in
  let msg :=
    "Codex API error " +:+ pretty (status resp) +:+ ": " +:+ detail in
  doGenerate modelId options resp = inl msg /\
  doStream options resp = inl msg /\
  contains detail msg.
Proof.
  intros Hok detail msg.
  assert (Hmsg : api_error resp = msg).
  { unfold api_error, msg, detail, tryParseErrorMessage, structuredMessage.
    destruct (body_json (response_text resp)) as [[[[[m|]]|]]|]; reflexivity. }
  unfold doGenerate, doStream. rewrite Hok. cbn [negb]. rewrite Hmsg.
  repeat split.
  unfold msg. rewrite <- !append_assoc. apply contains_suffix.
Qed.

(** The scenario of the specification: status 401 with the body
    [{"error":{"message":"bad token"}}]. *)
Definition badTokenResponse : FetchResponse :=
  {| ok := false;
     status := 401;
     response_text :=
       {| body_text :=
            "{" +:+ DQ +:+ "error" +:+ DQ +:+ ":{" +:+ DQ +:+ "message" +:+ DQ +:+
            ":" +:+ DQ +:+ "bad token" +:+ DQ +:+ "}}";
          body_json :=
            Some {| error := Some {| message := Some "bad token" |} |} |};
     response_body := [] |}.

(** *** The dispatch on the record type *)

Inductive Kind : Type :=
| text_delta_record | text_done_record
| reasoning_delta_record | reasoning_done_record
| item_added_record | arguments_delta_record | arguments_done_record
| completed_record | other_record.

Definition kindOf (p : Parsed) : Kind :=
  if same (type p) "response.output_text.delta" then text_delta_record
  else if same (type p) "response.output_text.done" then text_done_record
  else if same (type p) "response.reasoning_summary_text.delta"
  then reasoning_delta_record
  else if same (type p) "response.reasoning_summary_text.done"
  then reasoning_done_record
  else if same (type p) "response.output_item.added" then item_added_record
  else if same (type p) "response.function_call_arguments.delta"
  then arguments_delta_record
  else if same (type p) "response.function_call_arguments.done"
  then arguments_done_record
  else if same (type p) "response.completed" then completed_record
  else other_record.

(** Decides every comparison of the record type with a literal. *)
Ltac by_type p :=
  unfold same; destruct (type p) as [t|]; [|reflexivity];
  repeat match goal with
         | |- context [String.eqb t ?lit] =>
             destruct (String.eqb_spec t lit) as [->|?]; [reflexivity|]
         end; reflexivity.

Lemma dispatch_kind (p : Parsed) (st : StreamState) :
  dispatch p st
  = match kindOf p with
    | text_delta_record => onTextDelta p st
    | text_done_record => closeText st
    | reasoning_delta_record => onReasoningDelta p st
    | reasoning_done_record => closeReasoning st
    | item_added_record => onItemAdded p st
    | arguments_delta_record => onArgumentsDelta p st
    | arguments_done_record => onArgumentsDone p st
    | completed_record => onCompleted p st
    | other_record => (st, [])
    end.
Proof. unfold dispatch, kindOf. by_type p. Qed.

Lemma bufferParsed_kind (p : Parsed) (b : Buffer) :
  bufferParsed p b
  = match kindOf p with
    | text_delta_record => bufferTextDelta p b
    | item_added_record => bufferItemAdded p b
    | arguments_delta_record => bufferArgumentsDelta p b
    | arguments_done_record => bufferArgumentsDone p b
    | completed_record => bufferCompleted p b
    | text_done_record | reasoning_delta_record | reasoning_done_record
    | other_record => b
    end.
Proof. unfold bufferParsed, kindOf. by_type p. Qed.

Lemma pipeThrough_app (options : CallOptions) (chunks more : list Chunk) :
  forall st : StreamState,
    pipeThrough options st (chunks ++ more)
    = let '(st1, parts) := pipeThrough options st chunks in
      let '(st2, parts') := pipeThrough options st1 more in
      (st2, parts ++ parts').
Proof.
  induction chunks as [|chunk chunks IH]; intros st.
  - cbn. by destruct (pipeThrough options st more).
  - cbn [app pipeThrough]. destruct (transform options st chunk) as [st1 parts].
    rewrite IH. destruct (pipeThrough options st1 chunks) as [st2 parts2].
    destruct (pipeThrough options st2 more) as [st3 parts3].
    by rewrite app_assoc.
Qed.

(** *** What a consumer of the stream accumulates *)

Fixpoint streamedText (parts : list StreamPart) : string :=
  match parts with
  | [] => ""
  | text_delta _ d :: rest => d +:+ streamedText rest
  | _ :: rest => streamedText rest
  end.

Definition streamedToolCalls (parts : list StreamPart) : list Content :=
  omap (fun part =>
          match part with
          | tool_call i n v => Some (c_tool_call i n v)
          | _ => None
          end) parts.

(** The last [finish] part, if there is one. *)
Fixpoint streamedFinish (parts : list StreamPart)
    : option (FinishReason * Usage) :=
  match parts with
  | [] => None
  | finish f u :: rest =>
      match streamedFinish rest with
      | Some later => Some later
      | None => Some (f, u)
      end
  | _ :: rest => streamedFinish rest
  end.

Lemma streamedText_app (parts more : list StreamPart) :
  streamedText (parts ++ more) = streamedText parts +:+ streamedText more.
Proof.
  induction parts as [|part parts IH]; [reflexivity|].
  destruct part; cbn [app streamedText]; try exact IH.
  by rewrite IH, append_assoc.
Qed.

Lemma streamedToolCalls_app (parts more : list StreamPart) :
  streamedToolCalls (parts ++ more)
  = streamedToolCalls parts ++ streamedToolCalls more.
Proof. apply omap_app. Qed.

Lemma streamedFinish_app (parts more : list StreamPart) :
  streamedFinish (parts ++ more)
  = match streamedFinish more with
    | Some later => Some later
    | None => streamedFinish parts
    end.
Proof.
  induction parts as [|part parts IH].
  - cbn. by destruct (streamedFinish more).
  - destruct part; cbn [app streamedFinish]; try exact IH.
    rewrite IH. by destruct (streamedFinish more), (streamedFinish parts).
Qed.

(** The parts [transform] enqueues before it dispatches. *)
Definition preamble (options : CallOptions) (st : StreamState) (p : Parsed)
    : list StreamPart :=
  (if isFirstChunk st then [stream_start (buildWarnings options)] else []) ++
  (if includeRawChunks options then [raw_part p] else []).

Lemma transform_data (options : CallOptions) (st : StreamState) (p : Parsed) :
  transform options st (Data p)
  = (fst (dispatch p (set_isFirstChunk false st)),
     preamble options st p ++ snd (dispatch p (set_isFirstChunk false st))).
Proof.
  unfold transform, preamble.
  destruct (dispatch p (set_isFirstChunk false st)) as [st' parts].
  by rewrite <- app_assoc.
Qed.

Lemma preamble_silent (options : CallOptions) (st : StreamState) (p : Parsed) :
  streamedText (preamble options st p) = "" /\
  streamedToolCalls (preamble options st p) = [] /\
  streamedFinish (preamble options st p) = None.
Proof.
  unfold preamble.
  by destruct (isFirstChunk st), (includeRawChunks options).
Qed.

(** The two modes keep the same tool-call maps. *)
Definition agree (st : StreamState) (b : Buffer) : Prop :=
  toolCallInfo st = b_toolCallInfo b /\
  functionCallArgs st = b_functionCallArgs b.

(** A tool call without its identifier. *)
Definition callSignature (c : Content) : option (string * option string) :=
  match c with
  | c_tool_call _ n v => Some (n, v)
  | _ => None
  end.

(** A [function_call_arguments.done] record that carries neither [call_id]
    nor [item_id]: its tool call is given a random identifier. *)
Definition anonymousDone (chunk : Chunk) : bool :=
  match chunk with
  | Data p =>
      match kindOf p, nullish (call_id p) (item_id p) with
      | arguments_done_record, None => true
      | _, _ => false
      end
  | _ => false
  end.

(** What the parts of some records add to the accumulators of a consumer,
    next to what the buffering loop does on the same records. *)
Record Simulates (chunks : list Chunk) (b : Buffer)
    (st' : StreamState) (parts : list StreamPart) (b' : Buffer) : Prop := {
  sim_agree : agree st' b';
  sim_text : accumulatedText b' = accumulatedText b +:+ streamedText parts;
  sim_calls :
    map callSignature (toolCalls b')
    = map callSignature (toolCalls b) ++
      map callSignature (streamedToolCalls parts);
  sim_ids :
    existsb anonymousDone chunks = false ->
    toolCalls b' = toolCalls b ++ streamedToolCalls parts;
  sim_finish :
    (finishReason b', usage b')
    = default (finishReason b, usage b) (streamedFinish parts)
}.

Lemma simulates_silent (chunk : Chunk) (st : StreamState) (b : Buffer)
    (parts : list StreamPart) :
  agree st b ->
  streamedText parts = "" -> streamedToolCalls parts = [] ->
  streamedFinish parts = None ->
  Simulates [chunk] b st parts b.
Proof.
  intros Hagree Htext Hcalls Hfinish.
  split; rewrite ?Htext, ?Hcalls, ?Hfinish, ?append_nil_r, ?app_nil_r; done.
Qed.

Lemma agree_set_isFirstChunk (flag : bool) (st : StreamState) (b : Buffer) :
  agree st b -> agree (set_isFirstChunk flag st) b.
Proof. by intros [? ?]. Qed.

Lemma dispatch_simulates (p : Parsed) (st : StreamState) (b : Buffer) :
  agree st b ->
  Simulates [Data p] b
    (fst (dispatch p st)) (snd (dispatch p st)) (bufferParsed p b).
Proof.
  intros [Hinfo Hargs].
  rewrite dispatch_kind, bufferParsed_kind.
  destruct (kindOf p) eqn:Hkind.
  - (* output_text.delta *)
    unfold onTextDelta, openSegment.
    destruct (currentTextId st) as [i|]; [destruct (truthy (Some i))|];
      (split; [done | cbn; by rewrite ?append_nil_r | by rewrite app_nil_r
              | intros _; by rewrite app_nil_r | done]).
  - (* output_text.done *)
    unfold closeText.
    destruct (currentTextId st) as [i|]; [destruct (truthy (Some i))|];
      (split; [done | cbn; by rewrite ?append_nil_r | by rewrite app_nil_r
              | intros _; by rewrite app_nil_r | done]).
  - (* reasoning_summary_text.delta *)
    unfold onReasoningDelta, openSegment.
    destruct (currentReasoningId st) as [i|]; [destruct (truthy (Some i))|];
      (split; [done | cbn; by rewrite ?append_nil_r | by rewrite app_nil_r
              | intros _; by rewrite app_nil_r | done]).
  - (* reasoning_summary_text.done *)
    unfold closeReasoning.
    destruct (currentReasoningId st) as [i|]; [destruct (truthy (Some i))|];
      (split; [done | cbn; by rewrite ?append_nil_r | by rewrite app_nil_r
              | intros _; by rewrite app_nil_r | done]).
  - (* output_item.added *)
    unfold onItemAdded, bufferItemAdded.
    destruct (addedFunctionCall p) as [[itemId n]|];
      (split; [split; cbn; congruence | cbn; by rewrite ?append_nil_r
              | by rewrite app_nil_r | intros _; by rewrite app_nil_r | done]).
  - (* function_call_arguments.delta *)
    unfold onArgumentsDelta, bufferArgumentsDelta.
    destruct (argumentsDelta p) as [[itemId d]|];
      (split; [split; cbn; congruence | cbn; by rewrite ?append_nil_r
              | by rewrite app_nil_r | intros _; by rewrite app_nil_r | done]).
  - (* function_call_arguments.done *)
    unfold onArgumentsDone, bufferArgumentsDone. rewrite Hinfo, Hargs.
    destruct (resolveArgs (b_functionCallArgs b) p) as [args accumulators].
    unfold resolveToolCallId.
    destruct (nullish (call_id p) (item_id p)) as [i|] eqn:Hid.
    + split; [done | | | |].
      * cbn [accumulatedText fst snd]. rewrite streamedText_app.
        destruct (item_id p) as [j|]; [destruct (truthy (Some j))|];
          cbn; by rewrite append_nil_r.
      * cbn [toolCalls fst snd]. rewrite streamedToolCalls_app, !map_app.
        destruct (item_id p) as [j|]; [destruct (truthy (Some j))|]; done.
      * intros _. cbn [toolCalls fst snd]. rewrite streamedToolCalls_app.
        destruct (item_id p) as [j|]; [destruct (truthy (Some j))|]; done.
      * cbn [fst snd]. rewrite streamedFinish_app. cbn.
        destruct (item_id p) as [j|]; [destruct (truthy (Some j))|]; done.
    + split; [done | | | |].
      * cbn [accumulatedText fst snd]. rewrite streamedText_app.
        destruct (item_id p) as [j|]; [destruct (truthy (Some j))|];
          cbn; by rewrite append_nil_r.
      * cbn [toolCalls fst snd]. rewrite streamedToolCalls_app, !map_app.
        destruct (item_id p) as [j|]; [destruct (truthy (Some j))|]; done.
      * intros Hanon. cbn in Hanon. rewrite Hkind, Hid in Hanon. discriminate.
      * cbn [fst snd]. rewrite streamedFinish_app. cbn.
        destruct (item_id p) as [j|]; [destruct (truthy (Some j))|]; done.
  - (* response.completed *)
    unfold onCompleted, closeText, closeReasoning, bufferCompleted.
    destruct (currentTextId st) as [i|]; [destruct (truthy (Some i))|];
      cbn [currentReasoningId set_currentTextId];
      (destruct (currentReasoningId st) as [j|];
        [destruct (truthy (Some j))|]);
      (split; [done | cbn; by rewrite ?append_nil_r | by rewrite app_nil_r
              | intros _; by rewrite app_nil_r | done]).
  - (* any other type *)
    by apply simulates_silent.
Qed.

Lemma transform_simulates (options : CallOptions) (chunk : Chunk)
    (st : StreamState) (b : Buffer) :
  agree st b ->
  Simulates [chunk] b
    (fst (transform options st chunk)) (snd (transform options st chunk))
    (bufferChunk b chunk).
Proof.
  intros Hagree. destruct chunk as [| | |p]; try by apply simulates_silent.
  rewrite transform_data. cbn [fst snd bufferChunk].
  destruct (dispatch_simulates p (set_isFirstChunk false st) b
              (agree_set_isFirstChunk false st b Hagree))
    as [Hagree' Htext Hcalls Hids Hfinish].
  destruct (preamble_silent options st p) as (Hptext & Hpcalls & Hpfinish).
  split.
  - exact Hagree'.
  - by rewrite streamedText_app, Hptext.
  - by rewrite streamedToolCalls_app, Hpcalls.
  - intros Hanon. by rewrite streamedToolCalls_app, Hpcalls, (Hids Hanon).
  - rewrite streamedFinish_app, Hfinish, Hpfinish.
    by destruct (streamedFinish (dispatch p (set_isFirstChunk false st)).2).
Qed.

Lemma simulates_app (chunks more : list Chunk) (b b1 b2 : Buffer)
    (st1 st2 : StreamState) (parts parts' : list StreamPart) :
  Simulates chunks b st1 parts b1 ->
  Simulates more b1 st2 parts' b2 ->
  Simulates (chunks ++ more) b st2 (parts ++ parts') b2.
Proof.
  intros [_ Htext Hcalls Hids Hfinish] [Hagree Htext' Hcalls' Hids' Hfinish'].
  split.
  - exact Hagree.
  - by rewrite Htext', Htext, streamedText_app, append_assoc.
  - by rewrite Hcalls', Hcalls, streamedToolCalls_app, map_app, app_assoc.
  - rewrite existsb_app. intros [Hchunks Hmore]%orb_false_iff.
    by rewrite (Hids' Hmore), (Hids Hchunks), streamedToolCalls_app, app_assoc.
  - rewrite streamedFinish_app, Hfinish', Hfinish.
    by destruct (streamedFinish parts'), (streamedFinish parts).
Qed.

(** The streaming translator and the buffering loop, run on the same
    records from states that agree. *)
Lemma pipeThrough_simulates (options : CallOptions) (chunks : list Chunk) :
  forall (st : StreamState) (b : Buffer),
    agree st b ->
    Simulates chunks b
      (fst (pipeThrough options st chunks))
      (snd (pipeThrough options st chunks))
      (fold_left bufferChunk chunks b).
Proof.
  induction chunks as [|chunk chunks IH]; intros st b Hagree.
  - split; cbn; rewrite ?append_nil_r, ?app_nil_r; done.
  - pose proof (transform_simulates options chunk st b Hagree) as Hstep.
    cbn [pipeThrough fold_left].
    destruct (transform options st chunk) as [st1 parts]. cbn [fst snd] in Hstep.
    pose proof (IH st1 (bufferChunk b chunk) (sim_agree _ _ _ _ _ Hstep)) as Hrest.
    destruct (pipeThrough options st1 chunks) as [st2 more].
    cbn [fst snd] in *.
    exact (simulates_app [chunk] chunks _ _ _ _ _ _ _ Hstep Hrest).
Qed.

(** Whether a [response.completed] record occurs. *)
Definition isCompleted (chunk : Chunk) : bool :=
  match chunk with
  | Data p =>
      match kindOf p with
      | completed_record => true
      | _ => false
      end
  | _ => false
  end.

Lemma dispatch_finish (p : Parsed) (st : StreamState) :
  is_Some (streamedFinish (snd (dispatch p st))) <-> isCompleted (Data p) = true.
Proof.
  rewrite dispatch_kind. cbn [isCompleted].
  destruct (kindOf p);
    (split; [intros [x Hx] | intros Hc; try discriminate Hc]);
    try reflexivity.
  - unfold onTextDelta, openSegment in Hx.
    by destruct (currentTextId st) as [i|]; [destruct (truthy (Some i))|].
  - unfold closeText in Hx.
    by destruct (currentTextId st) as [i|]; [destruct (truthy (Some i))|].
  - unfold onReasoningDelta, openSegment in Hx.
    by destruct (currentReasoningId st) as [i|]; [destruct (truthy (Some i))|].
  - unfold closeReasoning in Hx.
    by destruct (currentReasoningId st) as [i|]; [destruct (truthy (Some i))|].
  - unfold onItemAdded in Hx. by destruct (addedFunctionCall p) as [[? ?]|].
  - unfold onArgumentsDelta in Hx. by destruct (argumentsDelta p) as [[? ?]|].
  - unfold onArgumentsDone in Hx.
    destruct (resolveArgs (functionCallArgs st) p),
      (resolveToolCallId (call_id p) (item_id p) (uuidCalls st)).
    cbn [snd] in Hx. rewrite streamedFinish_app in Hx. cbn in Hx.
    by destruct (item_id p) as [j|]; [destruct (truthy (Some j))|].
  - unfold onCompleted, closeText, closeReasoning.
    destruct (currentTextId st) as [i|]; [destruct (truthy (Some i))|];
      cbn [currentReasoningId set_currentTextId];
      (destruct (currentReasoningId st) as [j|];
        [destruct (truthy (Some j))|]); cbn; eauto.
  - done.
Qed.

Lemma pipeThrough_finish (options : CallOptions) (chunks : list Chunk) :
  forall st : StreamState,
    is_Some (streamedFinish (snd (pipeThrough options st chunks)))
    <-> existsb isCompleted chunks = true.
Proof.
  induction chunks as [|chunk chunks IH]; intros st.
  - cbn. split; [by intros [? ?] | discriminate].
  - cbn [pipeThrough existsb].
    destruct (transform options st chunk) as [st1 parts] eqn:Hstep.
    specialize (IH st1). destruct (pipeThrough options st1 chunks) as [st2 more].
    cbn [snd] in *. rewrite streamedFinish_app, orb_true_iff, <- IH.
    assert (Hpart : is_Some (streamedFinish parts) <-> isCompleted chunk = true).
    { destruct chunk as [| | |p];
        try (cbn in Hstep; injection Hstep as <- <-; cbn; split;
             [by intros [? ?] | discriminate]).
      rewrite transform_data in Hstep. injection Hstep as <- <-.
      rewrite streamedFinish_app.
      destruct (preamble_silent options st p) as (_ & _ & ->).
      rewrite <- (dispatch_finish p (set_isFirstChunk false st)).
      by destruct (streamedFinish (dispatch p (set_isFirstChunk false st)).2). }
    rewrite <- Hpart.
    destruct (streamedFinish more), (streamedFinish parts);
      split; eauto; intros [[? ?]|[? ?]]; done.
Qed.

(** *** Mode equivalence *)

(** What the caller of either mode ends up with.  A stream without a
    [finish] part reports neither usage nor finish reason. *)
Record Outcome : Type := {
  final_text : string;
  final_toolCalls : list Content;
  final_usage : option Usage;
  final_finishReason : option FinishReason
}.

Definition streamedOutcome (parts : list StreamPart) : Outcome :=
  {| final_text := streamedText parts;
     final_toolCalls := streamedToolCalls parts;
     final_usage := snd <$> streamedFinish parts;
     final_finishReason := fst <$> streamedFinish parts |}.

Fixpoint contentText (content : list Content) : string :=
  match content with
  | [] => ""
  | c_text t :: rest => t +:+ contentText rest
  | _ :: rest => contentText rest
  end.

Definition isToolCall (c : Content) : bool :=
  match c with
  | c_tool_call _ _ _ => true
  | _ => false
  end.

Definition bufferedOutcome (r : GenerateResult) : Outcome :=
  {| final_text := contentText (content r);
     final_toolCalls := List.filter isToolCall (content r);
     final_usage := Some (result_usage r);
     final_finishReason := Some (result_finishReason r) |}.

(** The claim as the specification states it. *)
Definition modesAgree (modelId : string) (options : CallOptions)
    (resp : FetchResponse) : Prop :=
  forall (parts : list StreamPart) (r : GenerateResult),
    doStream options resp = inr parts ->
    doGenerate modelId options resp = inr r ->
    streamedOutcome parts = bufferedOutcome r.

Lemma bufferChunk_toolCalls (chunks : list Chunk) :
  forall b : Buffer,
    forallb isToolCall (toolCalls b) = true ->
    forallb isToolCall (toolCalls (fold_left bufferChunk chunks b)) = true.
Proof.
  induction chunks as [|chunk chunks IH]; intros b Hb; [exact Hb|].
  cbn [fold_left]. apply IH. destruct chunk as [| | |p]; try exact Hb.
  cbn [bufferChunk]. rewrite bufferParsed_kind.
  destruct (kindOf p); try exact Hb.
  - unfold bufferItemAdded. by destruct (addedFunctionCall p) as [[? ?]|].
  - unfold bufferArgumentsDelta. by destruct (argumentsDelta p) as [[? ?]|].
  - unfold bufferArgumentsDone.
    destruct (resolveArgs (b_functionCallArgs b) p),
      (resolveToolCallId (call_id p) (item_id p) (b_uuidCalls b)).
    cbn [toolCalls]. rewrite forallb_app, Hb. reflexivity.
Qed.

Lemma filter_all {A : Type} (f : A -> bool) (l : list A) :
  forallb f l = true -> List.filter f l = l.
Proof.
  induction l as [|x l IH]; [done|]. cbn.
  intros [Hx Hl]%andb_true_iff. by rewrite Hx, IH.
Qed.

Lemma contentText_calls (calls : list Content) :
  forallb isToolCall calls = true -> contentText calls = "".
Proof.
  induction calls as [|c calls IH]; [done|]. cbn.
  intros [Hc Hl]%andb_true_iff. by destruct c; [| |apply IH].
Qed.

(** The content of a buffered result holds the accumulated text and the
    tool calls of the loop. *)
Lemma content_outcome (b : Buffer) :
  forallb isToolCall (toolCalls b) = true ->
  let content :=
    (if negb (accumulatedText b =? "") then [c_text (accumulatedText b)]
     else []) ++ toolCalls b in
  contentText content = accumulatedText b /\
  List.filter isToolCall content = toolCalls b.
Proof.
  intros Hcalls content. unfold content.
  destruct (String.eqb_spec (accumulatedText b) "") as [Hempty|Hfull];
    cbn [negb app contentText List.filter isToolCall].
  - by rewrite Hempty, contentText_calls, filter_all.
  - by rewrite contentText_calls, filter_all, ?append_nil_r.
Qed.

(** C1, as amended.  For every sequence of event records the two modes
    yield the same text and the same tool calls by name and input, in the
    same order; the tool-call identifiers are the same too unless a
    [function_call_arguments.done] record carries neither [call_id] nor
    [item_id] (each mode then draws a random identifier).  When the sequence
    holds a [response.completed] record, usage and finish reason are the
    same; when it holds none, the stream has no [finish] part at all,
    while the buffered result reports the default reason [stop] with
    empty usage. *)
Theorem mode_equivalence (modelId : string) (options : CallOptions)
    (resp : FetchResponse) (parts : list StreamPart) (r : GenerateResult) :
  doStream options resp = inr parts ->
  doGenerate modelId options resp = inr r ->
  let streamed := streamedOutcome parts in
  let buffered := bufferedOutcome r in
  final_text streamed = final_text buffered /\
  map callSignature (final_toolCalls streamed)
    = map callSignature (final_toolCalls buffered) /\
  (existsb anonymousDone (response_body resp) = false ->
   final_toolCalls streamed = final_toolCalls buffered) /\
  (if existsb isCompleted (response_body resp)
   then final_usage streamed = final_usage buffered /\
        final_finishReason streamed = final_finishReason buffered
   else final_usage streamed = None /\
        final_finishReason streamed = None /\
        final_usage buffered = Some emptyUsage /\
        final_finishReason buffered = Some (mapFinishReason "stop")).
Proof.
  unfold doStream, doGenerate. destruct (ok resp); cbn [negb]; [|discriminate].
  intros [= <-] [= <-].
  pose proof (pipeThrough_simulates options (response_body resp)
                initialStreamState initialBuffer (conj eq_refl eq_refl))
    as [_ Htext Hcalls Hids Hfinish].
  pose proof (pipeThrough_finish options (response_body resp)
                initialStreamState) as Hcompleted.
  pose proof (bufferChunk_toolCalls (response_body resp) initialBuffer eq_refl)
    as Hall.
  destruct (content_outcome _ Hall) as [Hctext Hccalls].
  set (b := fold_left bufferChunk (response_body resp) initialBuffer) in *.
  set (out := (pipeThrough options initialStreamState (response_body resp)).2)
    in *.
  cbn [streamedOutcome bufferedOutcome final_text final_toolCalls final_usage
       final_finishReason content result_usage result_finishReason].
  rewrite Hctext, Hccalls. repeat split.
  - rewrite Htext. reflexivity.
  - rewrite Hcalls. reflexivity.
  - intros Hanon. rewrite (Hids Hanon). reflexivity.
  - destruct (existsb isCompleted (response_body resp)).
    + destruct (proj2 Hcompleted eq_refl) as [[f u] Hlast].
      rewrite Hlast in Hfinish |- *. cbn in Hfinish |- *.
      injection Hfinish as -> ->. done.
    + destruct (streamedFinish out) as [last|] eqn:Hlast.
      * destruct Hcompleted as [Habsurd _]. by specialize (Habsurd (mk_is_Some _ _ eq_refl)).
      * cbn in Hfinish |- *. injection Hfinish as -> ->. done.
Qed.

(** *** Function-call arguments *)

(** The name recorded for an item at [output_item.added], and the
    argument chunks accumulated for it. *)
Definition recordedName (info : gmap string ToolInfo) (itemId : option string)
    : option string :=
  tool_name <$> (truthy_value itemId ≫= (fun i => info !! i)).

Definition accumulated (args : gmap string string) (itemId : option string)
    : option string :=
  truthy_value itemId ≫= (fun i => args !! i).

Lemma resolveToolName_spec (info : gmap string ToolInfo) (p : Parsed) :
  resolveToolName info p
  = default "unknown" (nullish (recordedName info (item_id p)) (name p)).
Proof.
  unfold resolveToolName, recordedName, truthy_value.
  by destruct (truthy (item_id p)).
Qed.

Lemma resolveArgs_spec (args : gmap string string) (p : Parsed) :
  string_or_stringify (fst (resolveArgs args p))
  = match accumulated args (item_id p) with
    | Some acc => Some acc
    | None => string_or_stringify (arguments p)
    end /\
  accumulated (snd (resolveArgs args p)) (item_id p) = None.
Proof.
  unfold resolveArgs, accumulated, truthy_value.
  destruct (item_id p) as [i|]; [|done].
  destruct (truthy (Some i)); [|done]. cbn.
  destruct (args !! i) as [acc|] eqn:Hacc; cbn; [|done].
  split; [done|]. apply lookup_delete_eq.
Qed.

Lemma kindOf_done (p : Parsed) :
  type p = Some "response.function_call_arguments.done" ->
  kindOf p = arguments_done_record.
Proof. unfold kindOf. by intros ->. Qed.

(** What a history of records says about one item, in the words of the
    specification. *)

Definition recordOf (chunk : Chunk) : option Parsed :=
  match chunk with
  | Data p => Some p
  | _ => None
  end.

(** The name an [output_item.added] record registers for item [i]: the
    record describes a function call that has a name, and [i] is the id
    of its item, or the [item_id] of the record when the item has no
    id. *)
Definition registeredName (i : string) (p : Parsed) : option string :=
  match item p with
  | Some it =>
      match item_name it with
      | Some n =>
          if decide (type p = Some "response.output_item.added" /\
                     item_type it = Some "function_call" /\
                     n <> "" /\ i <> "" /\
                     nullish (item_id_ it) (item_id p) = Some i)
          then Some n
          else None
      | None => None
      end
  | None => None
  end.

(** The name recorded for item [i]: that of the latest record of the
    history that registers one. *)
Definition nameRecorded (history : list Chunk) (i : string) : option string :=
  fold_left
    (fun known chunk => nullish (recordOf chunk ≫= registeredName i) known)
    history None.

(** The chunk a [function_call_arguments.delta] record adds to the
    arguments of item [i]. *)
Definition argumentsChunk (i : string) (p : Parsed) : option string :=
  match delta p with
  | Some d =>
      if decide (type p = Some "response.function_call_arguments.delta" /\
                 item_id p = Some i /\ i <> "" /\ d <> "")
      then Some d
      else None
  | None => None
  end.

(** The record is the [function_call_arguments.done] of item [i]. *)
Definition completes (i : string) (p : Parsed) : bool :=
  bool_decide (type p = Some "response.function_call_arguments.done" /\
               item_id p = Some i /\ i <> "").

(** The accumulator of item [i] after one more record: a chunk is
    appended, and the [done] record of the item clears it. *)
Definition accumulate (i : string) (acc : option string) (chunk : Chunk)
    : option string :=
  match recordOf chunk with
  | Some p =>
      match argumentsChunk i p with
      | Some d => Some (default "" acc +:+ d)
      | None => if completes i p then None else acc
      end
  | None => acc
  end.

(** The chunks of item [i] since its last [done] record, concatenated;
    [None] when there is none. *)
Definition argumentsAccumulated (history : list Chunk) (i : string)
    : option string :=
  fold_left (accumulate i) history None.

(** The type of a record, by its kind. *)
Lemma kindOf_type (p : Parsed) :
  match kindOf p with
  | item_added_record => type p = Some "response.output_item.added"
  | arguments_delta_record =>
      type p = Some "response.function_call_arguments.delta"
  | arguments_done_record =>
      type p = Some "response.function_call_arguments.done"
  | _ =>
      type p <> Some "response.output_item.added" /\
      type p <> Some "response.function_call_arguments.delta" /\
      type p <> Some "response.function_call_arguments.done"
  end.
Proof.
  unfold kindOf, same. destruct (type p) as [t|]; [|done].
  repeat match goal with
         | |- context [String.eqb t ?lit] =>
             destruct (String.eqb_spec t lit) as [->|?]; [done|]
         end.
  repeat split; congruence.
Qed.

Lemma registeredName_added (i : string) (p : Parsed) :
  type p = Some "response.output_item.added" ->
  registeredName i p
  = match addedFunctionCall p with
    | Some (j, n) => if decide (j = i) then Some n else None
    | None => None
    end.
Proof.
  intros Htype. unfold registeredName, addedFunctionCall, same, truthy.
  destruct (item p) as [it|]; [|done].
  destruct (item_name it) as [n|], (item_type it) as [t|]; cbn;
    try (rewrite ?andb_false_r; done).
  - destruct (String.eqb_spec t "function_call") as [->|Ht];
      destruct (String.eqb_spec n "") as [->|Hn]; cbn;
      try (case_decide; [naive_solver|done]).
    destruct (nullish (item_id_ it) (item_id p)) as [j|] eqn:Hj; cbn.
    + destruct (String.eqb_spec j "") as [->|Hjne]; cbn;
        repeat case_decide; naive_solver.
    + case_decide; naive_solver.
  - case_decide; naive_solver.
Qed.

Lemma registeredName_other (i : string) (p : Parsed) :
  type p <> Some "response.output_item.added" -> registeredName i p = None.
Proof.
  intros Htype. unfold registeredName.
  destruct (item p) as [it|]; [|done]. destruct (item_name it); [|done].
  case_decide; naive_solver.
Qed.

Lemma argumentsChunk_delta (i : string) (p : Parsed) :
  type p = Some "response.function_call_arguments.delta" ->
  argumentsChunk i p
  = match argumentsDelta p with
    | Some (j, d) => if decide (j = i) then Some d else None
    | None => None
    end.
Proof.
  intros Htype. unfold argumentsChunk, argumentsDelta, truthy.
  destruct (delta p) as [d|], (item_id p) as [j|]; cbn;
    try (rewrite ?andb_false_r; done); try (case_decide; naive_solver).
  destruct (String.eqb_spec j "") as [->|Hj];
    destruct (String.eqb_spec d "") as [->|Hd]; cbn;
    repeat case_decide; naive_solver.
Qed.

Lemma argumentsChunk_other (i : string) (p : Parsed) :
  type p <> Some "response.function_call_arguments.delta" ->
  argumentsChunk i p = None.
Proof.
  intros Htype. unfold argumentsChunk. destruct (delta p); [|done].
  case_decide; naive_solver.
Qed.

Lemma completes_other (i : string) (p : Parsed) :
  type p <> Some "response.function_call_arguments.done" ->
  completes i p = false.
Proof. intros Htype. apply bool_decide_eq_false. naive_solver. Qed.

(** The two maps of the buffering loop, read off the history. *)
Lemma bufferChunk_history (i : string) (b : Buffer) (chunk : Chunk) :
  tool_name <$> b_toolCallInfo (bufferChunk b chunk) !! i
  = nullish (recordOf chunk ≫= registeredName i)
            (tool_name <$> b_toolCallInfo b !! i) /\
  b_functionCallArgs (bufferChunk b chunk) !! i
  = accumulate i (b_functionCallArgs b !! i) chunk.
Proof.
  destruct chunk as [| | |p]; try done.
  unfold accumulate. cbn [bufferChunk recordOf mbind option_bind].
  rewrite bufferParsed_kind. pose proof (kindOf_type p) as Htype.
  destruct (kindOf p);
    try (destruct Htype as (Ha & Hd & Hc);
         rewrite (registeredName_other i p Ha), (argumentsChunk_other i p Hd),
           (completes_other i p Hc); done).
  - (* output_item.added *)
    rewrite (registeredName_added i p Htype),
      (argumentsChunk_other i p ltac:(congruence)),
      (completes_other i p ltac:(congruence)).
    unfold bufferItemAdded.
    destruct (addedFunctionCall p) as [[j n]|]; [|done].
    cbn [b_toolCallInfo b_functionCallArgs]. split; [|done].
    case_decide as Hj.
    + subst j. by rewrite lookup_insert_eq.
    + by rewrite lookup_insert_ne.
  - (* function_call_arguments.delta *)
    rewrite (registeredName_other i p ltac:(congruence)),
      (argumentsChunk_delta i p Htype), (completes_other i p ltac:(congruence)).
    unfold bufferArgumentsDelta.
    destruct (argumentsDelta p) as [[j d]|]; [|done].
    cbn [b_toolCallInfo b_functionCallArgs]. split; [done|].
    case_decide as Hj.
    + subst j. by rewrite lookup_insert_eq.
    + by rewrite lookup_insert_ne.
  - (* function_call_arguments.done *)
    rewrite (registeredName_other i p ltac:(congruence)),
      (argumentsChunk_other i p ltac:(congruence)).
    unfold bufferArgumentsDone, resolveArgs, completes, truthy.
    destruct (resolveToolCallId (call_id p) (item_id p) (b_uuidCalls b))
      as [toolCallId calls].
    destruct (item_id p) as [j|] eqn:Hj.
    + destruct (String.eqb_spec j "") as [->|Hne]; cbn.
      * split; [done|]. case_bool_decide; naive_solver.
      * destruct (b_functionCallArgs b !! j) as [acc|] eqn:Hacc; cbn.
        -- split; [done|]. case_bool_decide as Hi.
           ++ destruct Hi as (_ & [= ->] & _). apply lookup_delete_eq.
           ++ apply lookup_delete_ne. naive_solver.
        -- split; [done|]. case_bool_decide as Hi; [|done].
           destruct Hi as (_ & [= ->] & _). exact Hacc.
    + cbn. split; [done|]. case_bool_decide; naive_solver.
Qed.

Lemma fold_bufferChunk_history (i : string) (chunks : list Chunk) :
  forall b : Buffer,
    tool_name <$> b_toolCallInfo (fold_left bufferChunk chunks b) !! i
    = fold_left
        (fun known chunk => nullish (recordOf chunk ≫= registeredName i) known)
        chunks (tool_name <$> b_toolCallInfo b !! i) /\
    b_functionCallArgs (fold_left bufferChunk chunks b) !! i
    = fold_left (accumulate i) chunks (b_functionCallArgs b !! i).
Proof.
  induction chunks as [|chunk chunks IH]; intros b; [done|].
  cbn [fold_left]. destruct (IH (bufferChunk b chunk)) as [-> ->].
  by destruct (bufferChunk_history i b chunk) as [-> ->].
Qed.

(** The empty identifier names no item. *)
Lemma no_item_without_id (chunks : list Chunk) :
  nameRecorded chunks "" = None /\ argumentsAccumulated chunks "" = None.
Proof.
  unfold nameRecorded, argumentsAccumulated.
  induction chunks as [|chunk chunks IH]; [done|]. cbn [fold_left].
  assert (Hname : recordOf chunk ≫= registeredName "" = None).
  { destruct chunk as [| | |p]; try done. cbn. unfold registeredName.
    destruct (item p) as [it|]; [|done]. destruct (item_name it); [|done].
    case_decide; naive_solver. }
  assert (Hacc : accumulate "" None chunk = None).
  { destruct chunk as [| | |p]; try done. unfold accumulate. cbn [recordOf].
    assert (argumentsChunk "" p = None) as ->.
    { unfold argumentsChunk. destruct (delta p); [|done].
      case_decide; naive_solver. }
    by destruct (completes "" p). }
  by rewrite Hname, Hacc.
Qed.

(** C6. On a [function_call_arguments.done] record, after any sequence of
    records and in either mode, exactly one tool call is produced.  Its
    name is the name the latest [output_item.added] record of the sequence
    registered for the item, else the [name] of the record, else
    ["unknown"].  Its input is the concatenation of the chunks of the
    [function_call_arguments.delta] records of the item since its last
    [done] record when there is one, else the [arguments] of the record:
    as they are when they are a string, serialized with [JSON.stringify]
    when not.  And the accumulator of the item is cleared. *)
Theorem arguments_done_resolution
    (options : CallOptions) (chunks : list Chunk) (p : Parsed) :
  type p = Some "response.function_call_arguments.done" ->
  let st := fst (pipeThrough options initialStreamState chunks) in
  let b := fold_left bufferChunk chunks initialBuffer in
  let toolName :=
    match item_id p ≫= nameRecorded chunks with
    | Some recorded => recorded
    | None =>
        match name p with
        | Some n => n
        | None => "unknown"
        end
    end in
  let input :=
    match item_id p ≫= argumentsAccumulated chunks with
    | Some acc => Some acc
    | None =>
        match arguments p with
        | Some (JStr s) => Some s
        | Some j => Some (JSON_stringify j)
        | None => None
        end
    end in
  (exists i : string,
      streamedToolCalls (snd (transform options st (Data p)))
      = [c_tool_call i toolName input]) /\
  (exists i : string,
      toolCalls (bufferChunk b (Data p))
      = toolCalls b ++ [c_tool_call i toolName input]) /\
  (forall i : string,
      item_id p = Some i ->
      functionCallArgs (fst (transform options st (Data p))) !! i = None /\
      b_functionCallArgs (bufferChunk b (Data p)) !! i = None).
Proof.
  intros Htype st b toolName input.
  pose proof (kindOf_done p Htype) as Hkind.
  destruct (sim_agree _ _ _ _ _
              (pipeThrough_simulates options chunks initialStreamState
                 initialBuffer (conj eq_refl eq_refl))) as [Hinfo Hargs].
  fold st b in Hinfo, Hargs.
  assert (Hhistory : forall i : string,
    tool_name <$> b_toolCallInfo b !! i = nameRecorded chunks i /\
    b_functionCallArgs b !! i = argumentsAccumulated chunks i).
  { intros i. apply (fold_bufferChunk_history i chunks initialBuffer). }
  assert (Hname : resolveToolName (b_toolCallInfo b) p = toolName).
  { unfold resolveToolName, toolName, truthy.
    destruct (item_id p) as [i|]; cbn; [|by destruct (name p)].
    destruct (String.eqb_spec i "") as [->|Hi]; cbn.
    - rewrite (proj1 (no_item_without_id chunks)). by destruct (name p).
    - rewrite (proj1 (Hhistory i)).
      by destruct (nameRecorded chunks i), (name p). }
  assert (Hinput :
    string_or_stringify (fst (resolveArgs (b_functionCallArgs b) p)) = input).
  { unfold resolveArgs, input, truthy.
    destruct (item_id p) as [i|]; cbn; [|done].
    destruct (String.eqb_spec i "") as [->|Hi]; cbn.
    - by rewrite (proj2 (no_item_without_id chunks)).
    - rewrite <- (proj2 (Hhistory i)).
      by destruct (b_functionCallArgs b !! i). }
  assert (Hcleared : forall i : string,
    item_id p = Some i ->
    snd (resolveArgs (b_functionCallArgs b) p) !! i = None).
  { intros i Hi. unfold resolveArgs, truthy. rewrite Hi.
    destruct (String.eqb_spec i "") as [->|Hne]; cbn.
    - rewrite (proj2 (Hhistory "")). apply no_item_without_id.
    - destruct (b_functionCallArgs b !! i) eqn:Hacc; cbn; [|done].
      apply lookup_delete_eq. }
  rewrite transform_data, dispatch_kind, Hkind. cbn [fst snd bufferChunk].
  rewrite bufferParsed_kind, Hkind.
  unfold onArgumentsDone, bufferArgumentsDone.
  cbn [toolCallInfo functionCallArgs set_isFirstChunk uuidCalls].
  rewrite Hinfo, Hargs, Hname.
  destruct (resolveArgs (b_functionCallArgs b) p) as [args accumulators].
  cbn [fst snd] in Hinput, Hcleared. rewrite Hinput.
  destruct (resolveToolCallId (call_id p) (item_id p) (uuidCalls st))
    as [streamId calls].
  destruct (resolveToolCallId (call_id p) (item_id p) (b_uuidCalls b))
    as [bufferId calls'].
  cbn [fst snd toolCalls b_functionCallArgs functionCallArgs set_uuidCalls
       set_tools].
  split; [|split].
  - exists streamId. rewrite !streamedToolCalls_app.
    destruct (preamble_silent options st p) as (_ & -> & _).
    by destruct (item_id p) as [j|]; [destruct (truthy (Some j))|].
  - by exists bufferId.
  - intros i Hi. split; by apply Hcleared.
Qed.

(** The accumulator of an item after one more chunk. *)
Lemma arguments_delta_accumulates
    (options : CallOptions) (st : StreamState) (p : Parsed) (i d : string) :
  type p = Some "response.function_call_arguments.delta" ->
  item_id p = Some i -> delta p = Some d -> i <> "" -> d <> "" ->
  accumulated (functionCallArgs (fst (transform options st (Data p)))) (Some i)
  = Some (default "" (accumulated (functionCallArgs st) (Some i)) +:+ d).
Proof.
  intros Htype Hi Hd Hi' Hd'.
  assert (Hkind : kindOf p = arguments_delta_record)
    by (unfold kindOf; by rewrite Htype).
  rewrite transform_data, dispatch_kind, Hkind. cbn [fst].
  unfold onArgumentsDelta, argumentsDelta, accumulated, truthy_value, truthy.
  rewrite Hi, Hd.
  destruct (String.eqb_spec i "") as [|_]; [done|].
  destruct (String.eqb_spec d "") as [|_]; [done|].
  cbn. by rewrite lookup_insert_eq.
Qed.

(** *** Reasoning in buffered mode *)







(** *** Segments *)

Inductive Segment : Type := text_segment | reasoning_segment.

(** What a part means for the segments of a stream. *)
Inductive Mark : Type :=
| opens (s : Segment) (i : string)
| carries (s : Segment) (i : string)
| closes (s : Segment) (i : string)
| finishes
| unrelated.

Definition mark (part : StreamPart) : Mark :=
  match part with
  | text_start i => opens text_segment i
  | text_delta i _ => carries text_segment i
  | text_end i => closes text_segment i
  | reasoning_start i => opens reasoning_segment i
  | reasoning_delta i _ => carries reasoning_segment i
  | reasoning_end i => closes reasoning_segment i
  | finish _ _ => finishes
  | _ => unrelated
  end.

(** The segments a consumer of the stream holds open. *)
Record OpenSegments : Type := {
  open_text : option string;
  open_reasoning : option string
}.

Definition openOf (s : Segment) (o : OpenSegments) : option string :=
  match s with
  | text_segment => open_text o
  | reasoning_segment => open_reasoning o
  end.

Definition setOpen (s : Segment) (v : option string) (o : OpenSegments)
    : OpenSegments :=
  match s with
  | text_segment => {| open_text := v; open_reasoning := open_reasoning o |}
  | reasoning_segment => {| open_text := open_text o; open_reasoning := v |}
  end.

(** A consumer that insists on well-bracketed segments: a segment is
    opened only when none of its kind is open, carried and closed only
    under the identifier it was opened with, and none is open at [finish].
    [None] is a violation. *)
Definition observe (o : OpenSegments) (part : StreamPart)
    : option OpenSegments :=
  match mark part with
  | opens s i =>
      match openOf s o with
      | None => Some (setOpen s (Some i) o)
      | Some _ => None
      end
  | carries s i => if decide (openOf s o = Some i) then Some o else None
  | closes s i =>
      if decide (openOf s o = Some i) then Some (setOpen s None o) else None
  | finishes =>
      match open_text o, open_reasoning o with
      | None, None => Some o
      | _, _ => None
      end
  | unrelated => Some o
  end.

Fixpoint observeAll (o : OpenSegments) (parts : list StreamPart)
    : option OpenSegments :=
  match parts with
  | [] => Some o
  | part :: rest => observe o part ≫= fun o' => observeAll o' rest
  end.

Lemma observeAll_app (parts more : list StreamPart) :
  forall o : OpenSegments,
    observeAll o (parts ++ more)
    = observeAll o parts ≫= fun o' => observeAll o' more.
Proof.
  induction parts as [|part parts IH]; intros o; [reflexivity|].
  cbn [app observeAll]. destruct (observe o part) as [o'|]; [|reflexivity].
  cbn. apply IH.
Qed.

(** The identifier of a segment is undefined or a non-empty string. *)
Definition properId (v : option string) : Prop := truthy_value v = v.

(** The consumer holds open what the translator holds open. *)
Record Tracks (st : StreamState) (o : OpenSegments) : Prop := {
  tracks_text : open_text o = currentTextId st;
  tracks_reasoning : open_reasoning o = currentReasoningId st;
  proper_text : properId (currentTextId st);
  proper_reasoning : properId (currentReasoningId st)
}.

Lemma properId_cases (v : option string) :
  properId v -> v = None \/ exists i, v = Some i /\ truthy (Some i) = true.
Proof.
  unfold properId, truthy_value. destruct v as [i|]; [|by left].
  destruct (truthy (Some i)) eqn:Hi; [|discriminate]. right. by exists i.
Qed.

Lemma properId_fresh (n : nat) :
  (forall k, randomUUID k <> "") -> properId (Some (randomUUID n)).
Proof.
  intros Huuid. unfold properId, truthy_value, truthy.
  by destruct (String.eqb_spec (randomUUID n) "") as [?%Huuid|].
Qed.

Lemma preamble_unrelated (options : CallOptions) (st : StreamState)
    (p : Parsed) (o : OpenSegments) :
  observeAll o (preamble options st p) = Some o.
Proof.
  unfold preamble. by destruct (isFirstChunk st), (includeRawChunks options).
Qed.

Ltac segment_cases :=
  match goal with
  | Htracks : Tracks _ ?o |- _ =>
      destruct Htracks
        as [Htext Hreasoning
            [Htext'|(i & Htext' & Hi)]%properId_cases
            [Hreasoning'|(j & Hreasoning' & Hj)]%properId_cases];
      destruct o as [ot or]; cbn [open_text open_reasoning] in Htext, Hreasoning;
      subst ot or
  end.

(** The parts of one record, seen by the consumer. *)
Lemma dispatch_tracks (p : Parsed) (st : StreamState) (o : OpenSegments) :
  (forall k, randomUUID k <> "") ->
  Tracks st o ->
  exists o' : OpenSegments,
    observeAll o (snd (dispatch p st)) = Some o' /\
    Tracks (fst (dispatch p st)) o'.
Proof.
  intros Huuid Htracks. rewrite dispatch_kind.
  pose proof (properId_fresh (uuidCalls st) Huuid) as Hfresh.
  destruct (kindOf p).
  - (* output_text.delta *)
    unfold onTextDelta, openSegment. segment_cases; rewrite Htext'.
    all: try rewrite Hi.
    all: eexists; split;
      [repeat (cbn; unfold observe; rewrite ?decide_True by done); reflexivity
      |split; cbn; rewrite ?Hreasoning'; try done; unfold properId, truthy_value;
       by rewrite ?Hi, ?Hj].
  - (* output_text.done *)
    unfold closeText. segment_cases; rewrite Htext'.
    all: try rewrite Hi.
    all: eexists; split;
      [repeat (cbn; unfold observe; rewrite ?decide_True by done); reflexivity
      |split; cbn; rewrite ?Hreasoning', ?Htext'; try done;
       unfold properId, truthy_value; by rewrite ?Hi, ?Hj].
  - (* reasoning_summary_text.delta *)
    unfold onReasoningDelta, openSegment. segment_cases; rewrite Hreasoning'.
    all: try rewrite Hj.
    all: eexists; split;
      [repeat (cbn; unfold observe; rewrite ?decide_True by done); reflexivity
      |split; cbn; rewrite ?Htext'; try done; unfold properId, truthy_value;
       by rewrite ?Hi, ?Hj].
  - (* reasoning_summary_text.done *)
    unfold closeReasoning. segment_cases; rewrite Hreasoning'.
    all: try rewrite Hj.
    all: eexists; split;
      [repeat (cbn; unfold observe; rewrite ?decide_True by done); reflexivity
      |split; cbn; rewrite ?Hreasoning', ?Htext'; try done;
       unfold properId, truthy_value; by rewrite ?Hi, ?Hj].
  - (* output_item.added *)
    unfold onItemAdded. destruct Htracks.
    destruct (addedFunctionCall p) as [[itemId n]|]; by exists o.
  - (* function_call_arguments.delta *)
    unfold onArgumentsDelta. destruct Htracks.
    destruct (argumentsDelta p) as [[itemId d]|]; by exists o.
  - (* function_call_arguments.done *)
    unfold onArgumentsDone. destruct Htracks.
    destruct (resolveArgs (functionCallArgs st) p),
      (resolveToolCallId (call_id p) (item_id p) (uuidCalls st)).
    exists o. split; [|done]. cbn [snd].
    by destruct (item_id p) as [k|]; [destruct (truthy (Some k))|].
  - (* response.completed *)
    unfold onCompleted, closeText, closeReasoning.
    segment_cases; rewrite Htext'; try rewrite Hi;
      cbn [currentReasoningId set_currentTextId]; rewrite Hreasoning';
      try rewrite Hj.
    all: eexists; split;
      [repeat (cbn; unfold observe; rewrite ?decide_True by done); reflexivity
      |split; cbn; rewrite ?Hreasoning', ?Htext'; done].
  - (* any other type *)
    by exists o.
Qed.

Lemma transform_tracks (options : CallOptions) (chunk : Chunk)
    (st : StreamState) (o : OpenSegments) :
  (forall k, randomUUID k <> "") ->
  Tracks st o ->
  exists o' : OpenSegments,
    observeAll o (snd (transform options st chunk)) = Some o' /\
    Tracks (fst (transform options st chunk)) o'.
Proof.
  intros Huuid Htracks. destruct chunk as [| | |p]; try by exists o.
  rewrite transform_data. cbn [fst snd].
  assert (Hflag : Tracks (set_isFirstChunk false st) o)
    by (by destruct Htracks).
  destruct (dispatch_tracks p _ o Huuid Hflag) as (o' & Hparts & Htracks').
  exists o'. split; [|exact Htracks'].
  by rewrite observeAll_app, preamble_unrelated.
Qed.

(** The consumer accepts whatever the translator emits. *)
Lemma pipeThrough_tracks (options : CallOptions) (chunks : list Chunk) :
  (forall k, randomUUID k <> "") ->
  forall (st : StreamState) (o : OpenSegments),
    Tracks st o ->
    exists o' : OpenSegments,
      observeAll o (snd (pipeThrough options st chunks)) = Some o' /\
      Tracks (fst (pipeThrough options st chunks)) o'.
Proof.
  intros Huuid. induction chunks as [|chunk chunks IH]; intros st o Htracks.
  - by exists o.
  - destruct (transform_tracks options chunk st o Huuid Htracks)
      as (o1 & Hparts & Htracks1).
    cbn [pipeThrough]. destruct (transform options st chunk) as [st1 parts].
    cbn [fst snd] in Hparts, Htracks1.
    destruct (IH st1 o1 Htracks1) as (o2 & Hmore & Htracks2).
    destruct (pipeThrough options st1 chunks) as [st2 more].
    cbn [fst snd] in *. exists o2. split; [|exact Htracks2].
    by rewrite observeAll_app, Hparts.
Qed.







(** *** stream-start *)

Definition notStart (part : StreamPart) : Prop :=
  forall w : list Warning, part <> stream_start w.

Lemma dispatch_notStart (p : Parsed) (st : StreamState) :
  Forall notStart (snd (dispatch p st)) /\
  isFirstChunk (fst (dispatch p st)) = isFirstChunk st.
Proof.
  rewrite dispatch_kind. destruct (kindOf p).
  - unfold onTextDelta, openSegment.
    by destruct (currentTextId st) as [i|]; [destruct (truthy (Some i))|];
      (split; [repeat constructor|]).
  - unfold closeText.
    by destruct (currentTextId st) as [i|]; [destruct (truthy (Some i))|];
      (split; [repeat constructor|]).
  - unfold onReasoningDelta, openSegment.
    by destruct (currentReasoningId st) as [i|]; [destruct (truthy (Some i))|];
      (split; [repeat constructor|]).
  - unfold closeReasoning.
    by destruct (currentReasoningId st) as [i|]; [destruct (truthy (Some i))|];
      (split; [repeat constructor|]).
  - unfold onItemAdded.
    by destruct (addedFunctionCall p) as [[? ?]|]; (split; [repeat constructor|]).
  - unfold onArgumentsDelta.
    by destruct (argumentsDelta p) as [[? ?]|]; (split; [repeat constructor|]).
  - unfold onArgumentsDone.
    destruct (resolveArgs (functionCallArgs st) p),
      (resolveToolCallId (call_id p) (item_id p) (uuidCalls st)).
    by destruct (item_id p) as [j|]; [destruct (truthy (Some j))|];
      (split; [repeat constructor|]).
  - unfold onCompleted, closeText, closeReasoning.
    by destruct (currentTextId st) as [i|]; [destruct (truthy (Some i))|];
      cbn [currentReasoningId set_currentTextId];
      (destruct (currentReasoningId st) as [j|];
        [destruct (truthy (Some j))|]);
      (split; [repeat constructor|]).
  - by split.
Qed.

(** Once [isFirstChunk] is reset, no [stream-start] follows. *)
Lemma stream_start_once (options : CallOptions) (chunks : list Chunk) :
  forall st : StreamState,
    isFirstChunk st = false ->
    Forall notStart (snd (pipeThrough options st chunks)).
Proof.
  induction chunks as [|chunk chunks IH]; intros st Hflag; [constructor|].
  cbn [pipeThrough].
  destruct (transform options st chunk) as [st1 parts] eqn:Hstep.
  assert (Hstep' : Forall notStart parts /\ isFirstChunk st1 = false).
  { destruct chunk as [| | |p];
      try (cbn in Hstep; injection Hstep as <- <-; split;
           [repeat constructor; done | done]).
    rewrite transform_data in Hstep. injection Hstep as <- <-.
    destruct (dispatch_notStart p (set_isFirstChunk false st)) as [Hparts ->].
    split; [|done]. apply Forall_app. split; [|exact Hparts].
    unfold preamble. rewrite Hflag.
    destruct (includeRawChunks options); repeat constructor; done. }
  destruct Hstep' as [Hparts Hflag1]. specialize (IH st1 Hflag1).
  destruct (pipeThrough options st1 chunks) as [st2 more].
  cbn [snd] in *. apply Forall_app. by split.
Qed.

(** [stream-start] is enqueued at most once, by the first record that
    parses: what precedes it are [error] parts of malformed records. *)
Lemma stream_start_shape (options : CallOptions) (chunks : list Chunk) :
  forall st : StreamState,
    isFirstChunk st = true ->
    exists errors rest : list StreamPart,
      snd (pipeThrough options st chunks) = errors ++ rest /\
      Forall (fun part => part = error_part) errors /\
      (rest = [] \/
       exists rest', rest = stream_start (buildWarnings options) :: rest' /\
                     Forall notStart rest').
Proof.
  induction chunks as [|chunk chunks IH]; intros st Hflag.
  - exists [], []. repeat split; [constructor | by left].
  - cbn [pipeThrough]. destruct chunk as [| | |p].
    + cbn [transform]. destruct (IH st Hflag) as (errors & rest & Hparts & Hrest).
      destruct (pipeThrough options st chunks) as [st2 more].
      by exists errors, rest.
    + cbn [transform]. destruct (IH st Hflag) as (errors & rest & Hparts & Hrest).
      destruct (pipeThrough options st chunks) as [st2 more].
      by exists errors, rest.
    + cbn [transform].
      destruct (IH st Hflag) as (errors & rest & Hparts & Herrors & Hrest).
      destruct (pipeThrough options st chunks) as [st2 more].
      cbn [snd] in *. exists (error_part :: errors), rest.
      repeat split; [by rewrite Hparts | by constructor | exact Hrest].
    + rewrite transform_data.
      destruct (dispatch_notStart p (set_isFirstChunk false st)) as [Hparts Hreset].
      pose proof (stream_start_once options chunks _ Hreset) as Hmore.
      destruct (pipeThrough options _ chunks) as [st2 more].
      cbn [snd] in *. unfold preamble. rewrite Hflag.
      exists [], (([stream_start (buildWarnings options)] ++
                   (if includeRawChunks options then [raw_part p] else [])) ++
                  (dispatch p (set_isFirstChunk false st)).2 ++ more).
      split; [by rewrite <- app_assoc|]. split; [constructor|].
      right. eexists. split; [reflexivity|].
      apply Forall_app. split; [|by apply Forall_app].
      destruct (includeRawChunks options); repeat constructor; done.
Qed.

End TranslatorProperties.

(** ** Credential session manager *)

Section ProviderProperties.

Import Provider.

(** *** Header assembly *)

Inductive AuthMode : Type :=
| explicit_key | refresh_token_mode | environment_key | file_based.

(** The mode [getHeaders] selects, by its chain of conditions. *)
Definition authMode (options : Settings) : AuthMode :=
  if truthy (apiKey options) then explicit_key
  else if truthy (refreshToken options) then refresh_token_mode
  else if useApiKey options then environment_key
  else file_based.

(** The caller-supplied headers take precedence in the map [getHeaders]
    returns. *)
Definition callerWins (options : Settings) (w : Awaited) : Prop :=
  forall (m : gmap string string) (k v : string),
    getHeaders options w = inr m ->
    customHeaders options !! k = Some v ->
    m !! k = Some v.

(** The headers [getHeaders] computes from [key] take precedence over the
    caller's [Authorization] and [Content-Type]: a map is returned, its
    [Authorization] is the bearer of [key] and of nothing else, and every
    other header of the caller is kept. *)
Definition credentialsWin (key : string) (options : Settings) (w : Awaited)
    : Prop :=
  exists m : gmap string string,
    getHeaders options w = inr m /\
    m !! "Content-Type" = Some "application/json" /\
    m !! "Authorization" = Some ("Bearer " +:+ key) /\
    (forall k v : string,
        k <> "Authorization" -> k <> "Content-Type" ->
        customHeaders options !! k = Some v -> m !! k = Some v).

Lemma spread_source (target source : gmap string string) (k v : string) :
  source !! k = Some v -> spread target source !! k = Some v.
Proof. intros Hk. unfold spread. by apply lookup_union_Some_l. Qed.

Lemma spread_empty (source : gmap string string) : spread ∅ source = source.
Proof. unfold spread. apply (right_id_L ∅ (∪)). Qed.

Lemma key_headers (custom : gmap string string) (key : string) :
  let m := <["Content-Type" := "application/json"]>
             (<["Authorization" := "Bearer " +:+ key]> (spread ∅ custom)) in
  m !! "Content-Type" = Some "application/json" /\
  m !! "Authorization" = Some ("Bearer " +:+ key) /\
  (forall k v : string,
      k <> "Authorization" -> k <> "Content-Type" ->
      custom !! k = Some v -> m !! k = Some v).
Proof.
  intros m. unfold m. rewrite spread_empty. repeat split.
  - apply lookup_insert_eq.
  - rewrite lookup_insert_ne by done. apply lookup_insert_eq.
  - intros k v Ha Hc Hk. by rewrite !lookup_insert_ne.
Qed.

(** C3, as amended.  In refresh-token mode and in file-based mode the
    caller-supplied headers are applied last and win over every computed
    header.  In explicit-key mode and in environment-key mode they are
    applied first: the [Authorization] computed from the key of the mode,
    [options.apiKey] or the key [loadApiKey] returns, and the computed
    [Content-Type] win over the caller's, and the caller's other headers
    are kept. *)
Theorem caller_headers_by_mode (options : Settings) (w : Awaited) :
  match authMode options with
  | refresh_token_mode | file_based => callerWins options w
  | explicit_key =>
      exists key : string,
        apiKey options = Some key /\ credentialsWin key options w
  | environment_key =>
      match loadApiKey w with
      | inr key => credentialsWin key options w
      | inl e => getHeaders options w = inl e
      end
  end.
Proof.
  unfold authMode, callerWins, credentialsWin, getHeaders, truthy_value.
  destruct (truthy (apiKey options)) eqn:Hkey.
  - destruct (apiKey options) as [key|]; [|discriminate].
    exists key. split; [reflexivity|]. eexists. split; [reflexivity|].
    apply key_headers.
  - destruct (truthy (refreshToken options)).
    + intros m k v Hm Hk. destruct (ensured w) as [e|session]; [discriminate|].
      injection Hm as <-. by apply spread_source.
    + destruct (useApiKey options).
      * destruct (loadApiKey w) as [e|key]; [reflexivity|].
        eexists. split; [reflexivity|]. apply key_headers.
      * intros m k v Hm Hk.
        destruct (CodexAuth_getHeaders w) as [e|authHeaders]; [discriminate|].
        injection Hm as <-. by apply spread_source.
Qed.

(** A caller who sets [Authorization] next to an explicit API key. *)
Definition overridingCaller : Settings :=
  {| headers := Some {[ "Authorization" := "Bearer caller" ]};
     useApiKey := false;
     apiKey := Some "sk-explicit";
     refreshToken := None |}.

Definition nothingAwaited : Awaited :=
  {| ensured := inl ""; loadApiKey := inl "";
     getAccessToken := inl ""; getAccountId := inl "" |}.

(** The header [k] of the result of [getHeaders]. *)
Definition headerOf (r : string + gmap string string) (k : string)
    : option string :=
  match r with
  | inr m => m !! k
  | inl _ => None
  end.

(** C3 fails as stated: with an explicit API key the caller's
    [Authorization] header is overwritten by the computed one. *)
Lemma explicit_key_beats_caller_header :
  customHeaders overridingCaller !! "Authorization" = Some "Bearer caller" /\
  headerOf (getHeaders overridingCaller nothingAwaited) "Authorization"
    = Some "Bearer sk-explicit" /\
  ~ (forall options w, callerWins options w).
Proof.
  assert (Hcustom :
    customHeaders overridingCaller !! "Authorization" = Some "Bearer caller")
    by (vm_compute; reflexivity).
  assert (Hheader :
    headerOf (getHeaders overridingCaller nothingAwaited) "Authorization"
      = Some "Bearer sk-explicit")
    by (vm_compute; reflexivity).
  split; [exact Hcustom|]. split; [exact Hheader|].
  intros Hclaim.
  destruct (getHeaders overridingCaller nothingAwaited) as [e|m] eqn:Hm;
    [discriminate|].
  specialize (Hclaim overridingCaller nothingAwaited m "Authorization"
                "Bearer caller" Hm Hcustom).
  cbn [headerOf] in Hheader. congruence.
Qed.

(** *** Single-flight refresh *)

(** The states the provider can be in. *)
Definition Reachable (options : Settings) (st : State) : Prop :=
  exists schedule : list Event, run options schedule initialState = Some st.

Lemma run_app (options : Settings) (schedule more : list Event) :
  forall st : State,
    run options (schedule ++ more) st
    = run options schedule st ≫= run options more.
Proof.
  induction schedule as [|e schedule IH]; intros st; [reflexivity|].
  cbn [app run]. destruct (perform options e st) as [st1|]; [|reflexivity].
  cbn. apply IH.
Qed.

(** The promise in the slot is the only one that can be pending, and the
    caller that created it is the only one inside the [try] block. *)
Record Inv (st : State) : Prop := {
  inv_pending :
    forall p token,
      promises st !! p = Some (pending token) ->
      refreshSessionPromise st = Some p;
  inv_creator :
    forall c q,
      callers st !! c = Some (awaits_own q) ->
      refreshSessionPromise st = Some q;
  inv_unique :
    forall c c' q q',
      callers st !! c = Some (awaits_own q) ->
      callers st !! c' = Some (awaits_own q') ->
      c = c';
  inv_held :
    forall p,
      refreshSessionPromise st = Some p ->
      is_Some (promises st !! p) /\
      exists c, callers st !! c = Some (awaits_own p)
}.

Lemma Inv_initial : Inv initialState.
Proof. split; cbn; intros; done. Qed.

(** The three ways an invocation goes. *)
Inductive Invoked (options : Settings) (now : Z) (st st' : State) : Prop :=
| invoked_fresh :
    sessionIsFresh (refreshSession st) now = true ->
    st' = {| refreshSession := refreshSession st;
             refreshSessionPromise := refreshSessionPromise st;
             promises := promises st;
             exchangeCalls := exchangeCalls st;
             callers := callers st ++ [returned] |} ->
    Invoked options now st st'
| invoked_joins (p : nat) :
    sessionIsFresh (refreshSession st) now = false ->
    refreshSessionPromise st = Some p ->
    st' = {| refreshSession := refreshSession st;
             refreshSessionPromise := Some p;
             promises := promises st;
             exchangeCalls := exchangeCalls st;
             callers := callers st ++ [awaits_shared p] |} ->
    Invoked options now st st'
| invoked_starts (pr : Promise) (sent : list string) :
    sessionIsFresh (refreshSession st) now = false ->
    refreshSessionPromise st = None ->
    match truthy_value (sourceToken options (refreshSession st)) with
    | Some token => pr = pending token /\ sent = [token]
    | None => pr = rejected "No refresh token was provided." /\ sent = []
    end ->
    st' = {| refreshSession := refreshSession st;
             refreshSessionPromise := Some (length (promises st));
             promises := promises st ++ [pr];
             exchangeCalls := exchangeCalls st ++ sent;
             callers := callers st ++ [awaits_own (length (promises st))] |} ->
    Invoked options now st st'.

Lemma invoke_cases (options : Settings) (now : Z) (st : State) :
  Invoked options now st (invoke options now st).
Proof.
  unfold invoke.
  destruct (sessionIsFresh (refreshSession st) now) eqn:Hfresh.
  { by apply invoked_fresh. }
  destruct (refreshSessionPromise st) as [p|] eqn:Hslot.
  { by apply (invoked_joins _ _ _ _ p). }
  unfold truthy_value.
  destruct (sourceToken options (refreshSession st)) as [token|] eqn:Htoken.
  - destruct (truthy (Some token)) eqn:Htruthy.
    + apply (invoked_starts _ _ _ _ (pending token) [token]); try done.
      unfold truthy_value. by rewrite Htoken, Htruthy.
    + apply (invoked_starts _ _ _ _
               (rejected "No refresh token was provided.") []); try done.
      * unfold truthy_value. by rewrite Htoken, Htruthy.
      * by rewrite app_nil_r.
  - apply (invoked_starts _ _ _ _
             (rejected "No refresh token was provided.") []); try done.
    + unfold truthy_value. by rewrite Htoken.
    + by rewrite app_nil_r.
Qed.

Lemma Inv_invoke (options : Settings) (now : Z) (st : State) :
  Inv st -> Inv (invoke options now st).
Proof.
  intros [Hpending Hcreator Hunique Hheld].
  destruct (invoke_cases options now st) as [_ ->|p _ Hslot ->|pr sent _ Hslot _ ->].
  - split; cbn [promises callers refreshSessionPromise].
    + exact Hpending.
    + intros c q [[_ Hc]|[_ [=]]]%lookup_snoc_Some. eauto.
    + intros c c' q q' [[_ Hc]|[_ [=]]]%lookup_snoc_Some
        [[_ Hc']|[_ [=]]]%lookup_snoc_Some. eauto.
    + intros p Hp. destruct (Hheld p Hp) as [Hsome [c Hc]]. split; [done|].
      exists c. by apply lookup_app_l_Some.
  - split; cbn [promises callers refreshSessionPromise].
    + intros q token Hq. rewrite <- Hslot. eauto.
    + intros c q [[_ Hc]|[_ [=]]]%lookup_snoc_Some. rewrite <- Hslot. eauto.
    + intros c c' q q' [[_ Hc]|[_ [=]]]%lookup_snoc_Some
        [[_ Hc']|[_ [=]]]%lookup_snoc_Some. eauto.
    + intros q [= <-]. destruct (Hheld p Hslot) as [Hsome [c Hc]].
      split; [done|]. exists c. by apply lookup_app_l_Some.
  - split; cbn [promises callers refreshSessionPromise].
    + intros q token [[_ Hq]|[-> _]]%lookup_snoc_Some; [|done].
      specialize (Hpending q token Hq). congruence.
    + intros c q [[_ Hc]|[_ [= <-]]]%lookup_snoc_Some; [|done].
      specialize (Hcreator c q Hc). congruence.
    + intros c c' q q' [[_ Hc]|[-> _]]%lookup_snoc_Some
        [[_ Hc']|[-> _]]%lookup_snoc_Some; try done.
      * specialize (Hcreator c q Hc). congruence.
      * specialize (Hcreator c q Hc). congruence.
      * specialize (Hcreator c' q' Hc'). congruence.
    + intros q [= <-]. split.
      * exists pr. apply lookup_snoc_Some. right. done.
      * exists (length (callers st)). apply lookup_snoc_Some. right. done.
Qed.

Lemma outcome_settled (pr : Promise) (e : Caller) :
  outcome pr = Some e ->
  (forall token, pr <> pending token) /\
  (forall q, e <> awaits_own q) /\ (forall q, e <> awaits_shared q).
Proof. destruct pr; intros [= <-]; done. Qed.

Lemma Inv_settle (p : nat) (a : Answer) (st st' : State) :
  Inv st -> settle p a st = Some st' -> Inv st'.
Proof.
  intros [Hpending Hcreator Hunique Hheld]. unfold settle.
  destruct (promises st !! p) as [[token| |]|] eqn:Hp; try done.
  assert (Hlt : p < length (promises st)) by (by eapply lookup_lt_Some).
  destruct (exchangeRefreshToken token a) as [reason|exchanged];
    intros [= <-]; (split; cbn [promises callers refreshSessionPromise];
      [ intros q tok [(_ & [=] & _)|[_ Hq]]%list_lookup_insert_Some; eauto
      | exact Hcreator
      | exact Hunique
      | intros q Hq; destruct (Hheld q Hq) as [Hsome Hc]; split; [|exact Hc];
        apply lookup_lt_is_Some; rewrite length_insert;
        by apply lookup_lt_is_Some ]).
Qed.

Lemma Inv_resume (c : nat) (st st' : State) :
  Inv st -> resume c st = Some st' -> Inv st'.
Proof.
  intros [Hpending Hcreator Hunique Hheld]. unfold resume.
  destruct (callers st !! c) as [[q|q| |]|] eqn:Hc; try done.
  - (* the creator leaves the [try] block *)
    destruct (promises st !! q) as [pr|] eqn:Hq; [|done]. cbn.
    destruct (outcome pr) as [e|] eqn:He; [|done]. cbn. intros [= <-].
    destruct (outcome_settled pr e He) as (Hsettled & Hown & Hshared).
    pose proof (Hcreator c q Hc) as Hslot.
    split; cbn [promises callers refreshSessionPromise].
    + intros p token Hp. specialize (Hpending p token Hp).
      assert (p = q) as -> by congruence.
      rewrite Hq in Hp. injection Hp as ->. by destruct (Hsettled token).
    + intros c' q' [(_ & Heq & _)|[Hne Hc']]%list_lookup_insert_Some.
      * by destruct (Hown q').
      * by destruct (Hne (Hunique c c' q q' Hc Hc')).
    + intros c1 c2 q1 q2 [(_ & Heq & _)|[_ Hc1]]%list_lookup_insert_Some;
        [by destruct (Hown q1)|].
      intros [(_ & Heq & _)|[_ Hc2]]%list_lookup_insert_Some;
        [by destruct (Hown q2)|]. eauto.
    + done.
  - (* a late joiner continues *)
    destruct (promises st !! q) as [pr|] eqn:Hq; [|done]. cbn.
    destruct (outcome pr) as [e|] eqn:He; [|done]. cbn. intros [= <-].
    destruct (outcome_settled pr e He) as (Hsettled & Hown & Hshared).
    split; cbn [promises callers refreshSessionPromise].
    + exact Hpending.
    + intros c' q' [(_ & Heq & _)|[Hne Hc']]%list_lookup_insert_Some;
        [by destruct (Hown q')|]. eauto.
    + intros c1 c2 q1 q2 [(_ & Heq & _)|[_ Hc1]]%list_lookup_insert_Some;
        [by destruct (Hown q1)|].
      intros [(_ & Heq & _)|[_ Hc2]]%list_lookup_insert_Some;
        [by destruct (Hown q2)|]. eauto.
    + intros p Hp. destruct (Hheld p Hp) as [Hsome [c0 Hc0]]. split; [done|].
      exists c0. rewrite list_lookup_insert_ne; [done|]. congruence.
Qed.

Lemma Inv_perform (options : Settings) (e : Event) (st st' : State) :
  Inv st -> perform options e st = Some st' -> Inv st'.
Proof.
  intros Hinv. destruct e as [now|p a|c]; cbn [perform].
  - intros [= <-]. by apply Inv_invoke.
  - by apply Inv_settle.
  - by apply Inv_resume.
Qed.

Lemma Inv_run (options : Settings) (schedule : list Event) :
  forall st st' : State,
    Inv st -> run options schedule st = Some st' -> Inv st'.
Proof.
  induction schedule as [|e schedule IH]; intros st st' Hinv; cbn [run].
  - by intros [= <-].
  - destruct (perform options e st) as [st1|] eqn:He; [|done]. cbn.
    apply IH. by eapply Inv_perform.
Qed.

Lemma Inv_reachable (options : Settings) (st : State) :
  Reachable options st -> Inv st.
Proof. intros [schedule Hrun]. eapply Inv_run; [apply Inv_initial|done]. Qed.


(** Some callers arrive one after the other, at the times [nows], before
    anything else happens. *)
Definition invokeAll (options : Settings) (nows : list Z) (st : State) : State :=
  fold_left (fun s now => invoke options now s) nows st.

(** The caller finds the session absent or within the expiry margin. *)
Definition stale (st : State) (now : Z) : Prop :=
  sessionIsFresh (refreshSession st) now = false.

(** A fresh exchange starts from an empty slot only. *)
Lemma exchange_needs_free_slot (options : Settings) (now : Z) (st : State) :
  exchangeCalls (invoke options now st) <> exchangeCalls st ->
  refreshSessionPromise st = None.
Proof.
  by destruct (invoke_cases options now st) as [_ ->|p _ _ ->|pr sent _ Hslot _ ->].
Qed.

(** While the slot is taken, callers that need a session join. *)
Lemma invokeAll_joins (options : Settings) (p : nat) (nows : list Z) :
  forall st : State,
    refreshSessionPromise st = Some p ->
    Forall (stale st) nows ->
    invokeAll options nows st
    = {| refreshSession := refreshSession st;
         refreshSessionPromise := Some p;
         promises := promises st;
         exchangeCalls := exchangeCalls st;
         callers := callers st ++ replicate (length nows) (awaits_shared p) |}.
Proof.
  induction nows as [|now nows IH]; intros st Hslot Hstale.
  - cbn. rewrite app_nil_r, <- Hslot. by destruct st.
  - apply Forall_cons in Hstale as [Hnow Hstale]. unfold stale in Hnow.
    change (invokeAll options (now :: nows) st)
      with (invokeAll options nows (invoke options now st)).
    destruct (invoke_cases options now st)
      as [Hfresh _|q _ Hq ->|pr sent _ Hnone _ _]; try congruence.
    assert (q = p) as -> by congruence.
    rewrite IH; [|done|exact Hstale].
    cbn [refreshSession promises exchangeCalls callers length replicate].
    by rewrite <- app_assoc.
Qed.

Lemma Inv_invokeAll (options : Settings) (nows : list Z) :
  forall st : State, Inv st -> Inv (invokeAll options nows st).
Proof.
  induction nows as [|now nows IH]; intros st Hinv; [done|].
  apply (IH (invoke options now st)). by apply Inv_invoke.
Qed.

(** The slot holds a settled promise, and the caller that created it has
    not yet continued. *)
Record Held (p creator : nat) (sent : list string) (st : State) : Prop := {
  held_slot : refreshSessionPromise st = Some p;
  held_settled :
    exists pr e, promises st !! p = Some pr /\ outcome pr = Some e;
  held_creator : callers st !! creator = Some (awaits_own p);
  held_exchanges : exchangeCalls st = sent;
  held_inv : Inv st
}.

Lemma Held_perform (options : Settings) (p creator : nat) (sent : list string)
    (e : Event) (st st' : State) :
  Held p creator sent st ->
  e <> Resume creator ->
  perform options e st = Some st' ->
  Held p creator sent st'.
Proof.
  intros Hheld Hother Hperform.
  pose proof (Inv_perform options e st st' (held_inv _ _ _ _ Hheld) Hperform)
    as Hinv'.
  destruct Hheld as [Hslot (pr & end_ & Hp & Hend) Hcreator Hsent Hinv].
  destruct e as [now|q a|c]; cbn [perform] in Hperform.
  - (* a late caller *)
    injection Hperform as <-.
    destruct (invoke_cases options now st)
      as [_ Hst'|q _ Hq Hst'|pr' sent' _ Hnone _ _]; [| |congruence];
      rewrite Hst' in Hinv' |- *;
      (split; cbn [refreshSessionPromise promises callers exchangeCalls];
       [congruence | by exists pr, end_ | by apply lookup_app_l_Some
       | done | done]).
  - (* no exchange is in flight *)
    unfold settle in Hperform.
    destruct (promises st !! q) as [[token| |]|] eqn:Hq; try done.
    pose proof (inv_pending _ Hinv q token Hq) as Hslot'.
    assert (q = p) as -> by congruence.
    rewrite Hp in Hq. injection Hq as ->. done.
  - (* a joiner continues *)
    assert (Hc : c <> creator) by congruence.
    unfold resume in Hperform.
    destruct (callers st !! c) as [[q|q| |]|] eqn:Hcaller; try done.
    { by destruct (Hc (inv_unique _ Hinv c creator q p Hcaller Hcreator)). }
    destruct (promises st !! q ≫= outcome) as [end'|]; [|done].
    cbn in Hperform. injection Hperform as <-.
    split; cbn [refreshSessionPromise promises callers exchangeCalls];
      [done | by exists pr, end_ | by rewrite list_lookup_insert_ne
      | done | done].
Qed.

Lemma Held_run (options : Settings) (p creator : nat) (sent : list string)
    (schedule : list Event) :
  forall st st' : State,
    Held p creator sent st ->
    ~ In (Resume creator) schedule ->
    run options schedule st = Some st' ->
    Held p creator sent st'.
Proof.
  induction schedule as [|e schedule IH]; intros st st' Hheld Hnot; cbn [run].
  - by intros [= <-].
  - destruct (perform options e st) as [st1|] eqn:He; [|done]. cbn.
    apply IH.
    + eapply Held_perform; [exact Hheld| |exact He].
      intros ->. apply Hnot. by left.
    + intros Hin. apply Hnot. by right.
Qed.

(** The creator continues: the [finally] block empties the slot. *)
Lemma Held_resume (p creator : nat) (sent : list string) (st : State) :
  Held p creator sent st ->
  exists st' : State,
    resume creator st = Some st' /\
    refreshSessionPromise st' = None /\
    exchangeCalls st' = sent.
Proof.
  intros [Hslot (pr & end_ & Hp & Hend) Hcreator Hsent Hinv].
  unfold resume. rewrite Hcreator, Hp. cbn. rewrite Hend. cbn.
  eexists. by split.
Qed.

(** The refresh token the next exchange sends: the one of the session
    when there is a session, else the one of the settings; none when that
    token is empty or missing. *)
Definition tokenToExchange (options : Settings) (st : State) : option string :=
  match refreshSession st with
  | Some s =>
      if decide (session_refreshToken s = "") then None
      else Some (session_refreshToken s)
  | None =>
      match refreshToken options with
      | Some t => if decide (t = "") then None else Some t
      | None => None
      end
  end.

Lemma truthy_nonempty (s : string) :
  truthy (Some s) = if decide (s = "") then false else true.
Proof.
  unfold truthy. destruct (String.eqb_spec s "") as [->|Hs]; [done|].
  by destruct (decide (s = "")).
Qed.

Lemma sourceToken_tokenToExchange (options : Settings) (st : State) :
  truthy_value (sourceToken options (refreshSession st))
  = tokenToExchange options st.
Proof.
  unfold truthy_value, sourceToken, tokenToExchange.
  destruct (refreshSession st) as [s|]; cbn [fmap option_fmap option_map nullish].
  - rewrite truthy_nonempty. by destruct (decide (session_refreshToken s = "")).
  - destruct (refreshToken options) as [t|]; [|done].
    rewrite truthy_nonempty. by destruct (decide (t = "")).
Qed.

(** In refresh-token mode the settings hold a refresh token: a provider
    without a session has one to exchange. *)
Lemma refresh_mode_has_token (options : Settings) (st : State) :
  authMode options = refresh_token_mode ->
  refreshSession st = None ->
  is_Some (tokenToExchange options st).
Proof.
  unfold authMode, tokenToExchange. intros Hmode ->.
  destruct (truthy (apiKey options)); [discriminate|].
  destruct (refreshToken options) as [t|] eqn:Ht; cbn [truthy] in Hmode.
  - destruct (decide (t = "")) as [->|_]; [|done].
    cbn in Hmode. by destruct (useApiKey options).
  - by destruct (useApiKey options).
Qed.

(** From [st2] on the slot keeps promise [p] and nothing more is posted
    than [sent], whatever is scheduled, as long as caller [creator] has
    not continued; when it does, its [finally] block empties the slot. *)
Definition heldUntilResumed (options : Settings) (p creator : nat)
    (sent : list string) (st2 : State) : Prop :=
  forall (schedule : list Event) (st3 : State),
    ~ In (Resume creator) schedule ->
    run options schedule st2 = Some st3 ->
    refreshSessionPromise st3 = Some p /\
    exchangeCalls st3 = sent /\
    exists st4 : State,
      resume creator st3 = Some st4 /\
      refreshSessionPromise st4 = None /\
      exchangeCalls st4 = sent.

Lemma Held_heldUntilResumed (options : Settings) (p creator : nat)
    (sent : list string) (st2 : State) :
  Held p creator sent st2 -> heldUntilResumed options p creator sent st2.
Proof.
  intros Hheld schedule st3 Hnot Hrun.
  pose proof (Held_run options p creator _ schedule st2 st3 Hheld Hnot Hrun)
    as Hheld3.
  split; [exact (held_slot _ _ _ _ Hheld3)|].
  split; [exact (held_exchanges _ _ _ _ Hheld3)|].
  exact (Held_resume p creator _ st3 Hheld3).
Qed.

(** C4, as amended.  In refresh-token mode, let any number of callers, at
    least one, invoke [ensureRefreshSession] one after the other while no
    refresh is in flight, each finding the session absent or within the
    one-hour margin.  The first caller takes the slot and the others await
    its promise.  When the refresh token to exchange is not empty, which
    is so whenever there is no session yet, exactly one token exchange is
    posted, by the first caller; whatever the exchange answers, success or
    failure, the slot keeps that promise and no further exchange is
    posted, under every schedule of later invocations and continuations,
    until the first caller continues; its [finally] block then empties the
    slot.  When the session holds an empty refresh token, no exchange is
    posted at all: the promise in the slot is rejected with
    [No refresh token was provided.], and the slot is held and emptied in
    the same way. *)
Theorem single_flight_refresh
    (options : Settings) (st : State) (nows : list Z) :
  authMode options = refresh_token_mode ->
  Reachable options st ->
  refreshSessionPromise st = None ->
  nows <> [] ->
  Forall (stale st) nows ->
  let p := length (promises st) in
  let creator := length (callers st) in
  let st1 := invokeAll options nows st in
  refreshSessionPromise st1 = Some p /\
  callers st1
    = callers st ++
      awaits_own p :: replicate (length nows - 1) (awaits_shared p) /\
  (refreshSession st = None -> is_Some (tokenToExchange options st)) /\
  match tokenToExchange options st with
  | Some token =>
      exchangeCalls st1 = exchangeCalls st ++ [token] /\
      forall a : Answer,
        exists st2 : State,
          settle p a st1 = Some st2 /\
          heldUntilResumed options p creator (exchangeCalls st ++ [token]) st2
  | None =>
      exchangeCalls st1 = exchangeCalls st /\
      promises st1 !! p = Some (rejected "No refresh token was provided.") /\
      heldUntilResumed options p creator (exchangeCalls st) st1
  end.
Proof.
  intros Hmode Hreach Hslot Hsome Hstale p creator st1.
  pose proof (Inv_reachable options st Hreach) as Hinv.
  destruct nows as [|now nows]; [done|].
  apply Forall_cons in Hstale as [Hnow Hstale]. unfold stale in Hnow.
  (* the first caller takes the slot *)
  destruct (invoke_cases options now st)
    as [Hfresh _|q _ Hq _|pr sent _ _ Hsent Hst0]; try congruence.
  rewrite sourceToken_tokenToExchange in Hsent.
  (* the others join *)
  assert (Hst1 :
    st1 = {| refreshSession := refreshSession st;
             refreshSessionPromise := Some p;
             promises := promises st ++ [pr];
             exchangeCalls := exchangeCalls st ++ sent;
             callers :=
               callers st ++
               awaits_own p :: replicate (length nows) (awaits_shared p) |}).
  { unfold st1.
    change (invokeAll options (now :: nows) st)
      with (invokeAll options nows (invoke options now st)).
    rewrite (invokeAll_joins options p nows); rewrite Hst0; cbn; try done.
    by rewrite <- app_assoc. }
  pose proof (Inv_invokeAll options (now :: nows) st Hinv) as Hinv1.
  fold st1 in Hinv1.
  assert (Hp : (promises st ++ [pr]) !! p = Some pr).
  { apply lookup_snoc_Some. by right. }
  assert (Hc : (callers st ++ awaits_own p ::
                  replicate (length nows) (awaits_shared p)) !! creator
               = Some (awaits_own p)).
  { by rewrite lookup_app_r, Nat.sub_diag. }
  rewrite Hst1 in Hinv1 |- *.
  cbn [exchangeCalls refreshSessionPromise callers promises length].
  replace (S (length nows) - 1) with (length nows) by lia.
  split; [done|]. split; [done|].
  split; [by apply refresh_mode_has_token|].
  destruct (tokenToExchange options st) as [token|]; destruct Hsent as [-> ->].
  - (* one exchange is posted, and settles *)
    split; [done|]. intros a.
    destruct (settle p a
                {| refreshSession := refreshSession st;
                   refreshSessionPromise := Some p;
                   promises := promises st ++ [pending token];
                   exchangeCalls := exchangeCalls st ++ [token];
                   callers :=
                     callers st ++
                     awaits_own p :: replicate (length nows) (awaits_shared p) |})
      as [st2|] eqn:Hsettle;
      [|unfold settle in Hsettle; cbn [promises] in Hsettle;
        rewrite Hp in Hsettle; by destruct (exchangeRefreshToken token a)].
    exists st2. split; [reflexivity|].
    apply Held_heldUntilResumed.
    assert (Hlt : p < length (promises st ++ [pending token])).
    { by eapply lookup_lt_Some. }
    pose proof (Inv_settle p a _ st2 Hinv1 Hsettle) as Hinv2.
    unfold settle in Hsettle. cbn [promises] in Hsettle. rewrite Hp in Hsettle.
    destruct (exchangeRefreshToken token a) as [reason|exchanged];
      injection Hsettle as <-;
      (split; cbn [refreshSessionPromise promises callers exchangeCalls];
       [done
       |eexists _, _; split; [by apply list_lookup_insert_eq|reflexivity]
       |done | done | done]).
  - (* nothing is posted: the promise is rejected at once *)
    rewrite app_nil_r in Hinv1 |- *.
    split; [done|]. split; [exact Hp|].
    apply Held_heldUntilResumed.
    split; cbn [refreshSessionPromise promises callers exchangeCalls];
      [done | eexists _, _; split; [exact Hp|reflexivity] | done | done | done].
Qed.

End ProviderProperties.

(** * Scenarios

    The properties above at concrete inputs, computed on [ExampleHost]. *)

Section TranslatorScenarios.

Import LanguageModel.
#[local] Existing Instance ExampleHost.host.

Definition plainOptions : CallOptions :=
  {| topK := None; responseFormat_json := false; includeRawChunks := false |}.

(** A record of the given type with no other field. *)
Definition record (ty : string) : Parsed :=
  {| type := Some ty; delta := None; item := None; item_id := None;
     name := None; arguments := None; call_id := None; response := None |}.

Definition textDelta (d : string) : Parsed :=
  {| type := Some "response.output_text.delta"; delta := Some d;
     item := None; item_id := None; name := None; arguments := None;
     call_id := None; response := None |}.

Definition argumentsDeltaFor (itemId d : string) : Parsed :=
  {| type := Some "response.function_call_arguments.delta"; delta := Some d;
     item := None; item_id := Some itemId; name := None; arguments := None;
     call_id := None; response := None |}.

Definition argumentsDoneFor (itemId : option string) (args : option json)
    : Parsed :=
  {| type := Some "response.function_call_arguments.done"; delta := None;
     item := None; item_id := itemId; name := None; arguments := args;
     call_id := None; response := None |}.

Definition functionCallAdded (itemId fn : string) : Parsed :=
  {| type := Some "response.output_item.added"; delta := None;
     item := Some {| item_type := Some "function_call";
                     item_name := Some fn; item_id_ := Some itemId |};
     item_id := None; name := None; arguments := None;
     call_id := None; response := None |}.

Definition completedWith (resp : ResponseJson) : Parsed :=
  {| type := Some "response.completed"; delta := None; item := None;
     item_id := None; name := None; arguments := None; call_id := None;
     response := Some resp |}.

Definition succeeded (chunks : list Chunk) : FetchResponse :=
  {| ok := true; status := 200;
     response_text := {| body_text := ""; body_json := None |};
     response_body := chunks |}.

Definition usage52 : ResponseJson :=
  {| resp_id := Some "resp_1"; resp_model := None;
     resp_status := Some "completed";
     resp_usage :=
       Some {| input_tokens := Some 5%Z; output_tokens := Some 2%Z;
               input_tokens_details := None;
               output_tokens_details := None |} |}.

(** [output_text.delta("He")], [output_text.delta("llo")],
    [output_text.done], [response.completed]. *)
Definition helloChunks : list Chunk :=
  [Data (textDelta "He"); Data (textDelta "llo");
   Data (record "response.output_text.done"); Data (completedWith usage52)].

Example hello_streamed :
  doStream plainOptions (succeeded helloChunks)
  = inr [stream_start [];
         text_start "uuid-0"; text_delta "uuid-0" "He";
         text_delta "uuid-0" "llo"; text_end "uuid-0";
         response_metadata (Some "resp_1") None;
         finish {| unified := u_stop; raw := "completed" |}
                (extractUsage (Some usage52))].
Proof. vm_compute. reflexivity. Qed.

Example hello_buffered :
  doGenerate "gpt-5" plainOptions (succeeded helloChunks)
  = inr {| content := [c_text "Hello"];
           result_finishReason := {| unified := u_stop; raw := "completed" |};
           result_usage := extractUsage (Some usage52);
           result_warnings := [];
           result_response :=
             {| info_id := Some "resp_1"; info_modelId := "gpt-5" |} |}.
Proof. vm_compute. reflexivity. Qed.


Lemma exampleHost_uuid_nonempty : forall k : nat, randomUUID k <> "".
Proof. intros k. cbv [randomUUID ExampleHost.host append]. discriminate. Qed.

(** C1 at the scenario of the specification: both modes end with the
    text "Hello", no tool call, the usage of the terminal event and the
    finish reason [stop]. *)
Lemma mode_equivalence_hello :
  exists (parts : list StreamPart) (r : GenerateResult),
    doStream plainOptions (succeeded helloChunks) = inr parts /\
    doGenerate "gpt-5" plainOptions (succeeded helloChunks) = inr r /\
    final_text (bufferedOutcome r) = "Hello" /\
    final_text (streamedOutcome parts) = final_text (bufferedOutcome r) /\
    final_toolCalls (streamedOutcome parts)
      = final_toolCalls (bufferedOutcome r) /\
    final_usage (streamedOutcome parts) = final_usage (bufferedOutcome r) /\
    final_finishReason (streamedOutcome parts)
      = final_finishReason (bufferedOutcome r).
Proof.
  destruct (doStream plainOptions (succeeded helloChunks)) as [e|parts] eqn:Hs;
    [vm_compute in Hs; discriminate|].
  destruct (doGenerate "gpt-5" plainOptions (succeeded helloChunks))
    as [e|r] eqn:Hg; [vm_compute in Hg; discriminate|].
  exists parts, r.
  destruct (mode_equivalence "gpt-5" plainOptions (succeeded helloChunks)
              parts r Hs Hg) as (Htext & _ & Hcalls & Hfinish).
  cbn [existsb] in Hfinish.
  split; [reflexivity|]. split; [reflexivity|].
  split; [vm_compute in Hg; injection Hg as <-; reflexivity|].
  split; [exact Htext|].
  split; [apply Hcalls; reflexivity|].
  exact Hfinish.
Defined.

(** A text delta followed by a [function_call_arguments.done] record that
    names no item, and no [response.completed] record. *)
Definition anonymousCall : list Chunk :=
  [Data (textDelta "Hi");
   Data (argumentsDoneFor None (Some (JStr "{}")))].

(** C1 fails as stated: on [anonymousCall] the stream carries the tool
    call under the second random identifier and has no [finish] part, the
    buffered result carries it under the first and reports [stop]. *)
Lemma modes_disagree :
  doStream plainOptions (succeeded anonymousCall)
  = inr [stream_start []; text_start "uuid-0"; text_delta "uuid-0" "Hi";
         tool_call "uuid-1" "unknown" (Some "{}")] /\
  doGenerate "gpt-5" plainOptions (succeeded anonymousCall)
  = inr {| content := [c_text "Hi"; c_tool_call "uuid-0" "unknown" (Some "{}")];
           result_finishReason := {| unified := u_stop; raw := "stop" |};
           result_usage := emptyUsage;
           result_warnings := [];
           result_response := {| info_id := None; info_modelId := "gpt-5" |} |} /\
  ~ modesAgree "gpt-5" plainOptions (succeeded anonymousCall).
Proof.
  assert (Hs : doStream plainOptions (succeeded anonymousCall)
               = inr [stream_start []; text_start "uuid-0";
                      text_delta "uuid-0" "Hi";
                      tool_call "uuid-1" "unknown" (Some "{}")])
    by (vm_compute; reflexivity).
  assert (Hg : doGenerate "gpt-5" plainOptions (succeeded anonymousCall)
               = inr {| content :=
                          [c_text "Hi";
                           c_tool_call "uuid-0" "unknown" (Some "{}")];
                        result_finishReason :=
                          {| unified := u_stop; raw := "stop" |};
                        result_usage := emptyUsage;
                        result_warnings := [];
                        result_response :=
                          {| info_id := None; info_modelId := "gpt-5" |} |})
    by (vm_compute; reflexivity).
  split; [exact Hs|]. split; [exact Hg|].
  intros Hclaim. specialize (Hclaim _ _ Hs Hg). discriminate Hclaim.
Qed.


(** *** Segments *)

Inductive Bracket : Type := text_bracket | reasoning_bracket | tool_input_bracket.

#[local] Instance Bracket_eq_dec : EqDecision Bracket.
Proof. solve_decision. Defined.



Definition isFinish (part : StreamPart) : bool :=
  match part with
  | finish _ _ => true
  | _ => false
  end.









(** *** Function-call arguments *)

(** The chunks [{"a":] and [1}] for one item, then the [done] record
    without [arguments]. *)
Definition chunkOne : string := "{" +:+ DQ +:+ "a" +:+ DQ +:+ ":".
Definition chunkTwo : string := "1}".

Definition twoChunks : list Chunk :=
  [Data (argumentsDeltaFor "fc_1" chunkOne);
   Data (argumentsDeltaFor "fc_1" chunkTwo)].

Definition doneRecord : Parsed := argumentsDoneFor (Some "fc_1") None.

Example arguments_scenario_streamed :
  doStream plainOptions (succeeded (twoChunks ++ [Data doneRecord]))
  = inr [stream_start [];
         tool_input_delta "fc_1" chunkOne; tool_input_delta "fc_1" chunkTwo;
         tool_input_end "fc_1";
         tool_call "fc_1" "unknown" (Some (chunkOne +:+ chunkTwo))].
Proof. vm_compute. reflexivity. Qed.

Example arguments_scenario_buffered :
  doGenerate "gpt-5" plainOptions (succeeded (twoChunks ++ [Data doneRecord]))
  = inr {| content :=
             [c_tool_call "fc_1" "unknown" (Some (chunkOne +:+ chunkTwo))];
           result_finishReason := {| unified := u_stop; raw := "stop" |};
           result_usage := emptyUsage;
           result_warnings := [];
           result_response := {| info_id := None; info_modelId := "gpt-5" |} |}.
Proof. vm_compute. reflexivity. Qed.

(** The same chunks after the [output_item.added] record of the item. *)
Definition namedCall : list Chunk :=
  Data (functionCallAdded "fc_1" "get_weather") :: twoChunks.

(** A [done] record that carries its arguments as an object, for an item
    without chunks. *)
Definition doneWithObject : Parsed :=
  argumentsDoneFor (Some "fc_2") (Some (JObj [("a", JNum 1)])).

(** C6 at the scenario of the specification: one tool call whose input is
    [{"a":1}], in both modes; its name is ["unknown"] when no record
    registered one and the registered name otherwise; and arguments that
    come as an object on the [done] record are serialized. *)
Lemma arguments_done_scenario :
  type doneRecord = Some "response.function_call_arguments.done" /\
  chunkOne +:+ chunkTwo = "{" +:+ DQ +:+ "a" +:+ DQ +:+ ":1}" /\
  (exists i : string,
      streamedToolCalls
        (snd (transform plainOptions
                (fst (pipeThrough plainOptions initialStreamState twoChunks))
                (Data doneRecord)))
      = [c_tool_call i "unknown" (Some (chunkOne +:+ chunkTwo))]) /\
  (exists i : string,
      toolCalls (bufferChunk (fold_left bufferChunk twoChunks initialBuffer)
                   (Data doneRecord))
      = [c_tool_call i "unknown" (Some (chunkOne +:+ chunkTwo))]) /\
  (exists i : string,
      streamedToolCalls
        (snd (transform plainOptions
                (fst (pipeThrough plainOptions initialStreamState namedCall))
                (Data doneRecord)))
      = [c_tool_call i "get_weather" (Some (chunkOne +:+ chunkTwo))]) /\
  (exists i : string,
      toolCalls (bufferChunk (fold_left bufferChunk namedCall initialBuffer)
                   (Data doneWithObject))
      = [c_tool_call i "unknown"
           (Some ("{" +:+ DQ +:+ "a" +:+ DQ +:+ ":1}"))]).
Proof.
  split; [reflexivity|]. split; [reflexivity|].
  destruct (arguments_done_resolution plainOptions twoChunks doneRecord eq_refl)
    as (Hstreamed & Hbuffered & _).
  destruct (arguments_done_resolution plainOptions namedCall doneRecord eq_refl)
    as (Hnamed & _ & _).
  destruct (arguments_done_resolution plainOptions namedCall doneWithObject
              eq_refl) as (_ & Hobject & _).
  split; [exact Hstreamed|]. split; [exact Hbuffered|].
  split; [exact Hnamed | exact Hobject].
Defined.

(** *** stream-start *)

(** A frame that does not parse, then a text delta. *)
Definition malformedFirst : list Chunk := [Malformed; Data (textDelta "Hi")].

(** C7 on [malformedFirst]: the first record with data is the malformed
    one; it yields an [error] part and no [stream-start], which the second
    record enqueues, after the [error] part. *)
Theorem stream_start_after_malformed_record :
  doStream plainOptions (succeeded malformedFirst)
  = inr [error_part; stream_start [];
         text_start "uuid-0"; text_delta "uuid-0" "Hi"] /\
  doStream plainOptions (succeeded [Malformed]) = inr [error_part].
Proof. split; vm_compute; reflexivity. Qed.

(** *** Upstream request errors *)

(** C9 at the scenario of the specification. *)
Lemma upstream_error_bad_token :
  ok badTokenResponse = false /\
  doGenerate "gpt-5" plainOptions badTokenResponse
    = inl "Codex API error 401: bad token" /\
  doStream plainOptions badTokenResponse
    = inl "Codex API error 401: bad token" /\
  contains "bad token" "Codex API error 401: bad token".
Proof.
  split; [reflexivity|].
  exact (upstream_error_is_fatal "gpt-5" plainOptions badTokenResponse eq_refl).
Defined.

(** *** Reasoning *)

Definition reasoningDelta (d : string) : Parsed :=
  {| type := Some "response.reasoning_summary_text.delta"; delta := Some d;
     item := None; item_id := None; name := None; arguments := None;
     call_id := None; response := None |}.

Definition thinkThenAnswer : list Chunk :=
  [Data (reasoningDelta "hm"); Data (textDelta "Hi");
   Data (completedWith usage52)].

Example reasoning_streamed :
  doStream plainOptions (succeeded thinkThenAnswer)
  = inr [stream_start [];
         reasoning_start "uuid-0"; reasoning_delta "uuid-0" "hm";
         text_start "uuid-1"; text_delta "uuid-1" "Hi";
         text_end "uuid-1"; reasoning_end "uuid-0";
         response_metadata (Some "resp_1") None;
         finish {| unified := u_stop; raw := "completed" |}
                (extractUsage (Some usage52))].
Proof. vm_compute. reflexivity. Qed.

Example reasoning_buffered :
  (fun r => match r with inr g => content g | inl _ => [] end)
    (doGenerate "gpt-5" plainOptions (succeeded thinkThenAnswer))
  = [c_text "Hi"].
Proof. vm_compute. reflexivity. Qed.

End TranslatorScenarios.

Section ProviderScenarios.

Import Provider.

Definition refreshOptions : Settings :=
  {| headers := None; useApiKey := false; apiKey := None;
     refreshToken := Some "rt-0" |}.

(** The endpoint grants a session that expires at second 7200, and
    rotates the refresh token. *)
Definition grant : Answer :=
  granted {| id_token := "id.token.1"; access_token := "at-1";
             refresh_token := Some "rt-1" |}
          (inr {| email := None; token_name := None; exp := Some 7200%Z;
                  iat := None; account_id := Some "acct-1" |}).

(** Two callers, then the exchange succeeds, both continue, and a third
    caller finds the session fresh: one exchange in all. *)
Example refresh_succeeds :
  run refreshOptions
    [Invoke 0; Invoke 1; Settle 0 grant; Resume 1; Resume 0; Invoke 2]
    initialState
  = Some {| refreshSession :=
              Some {| accessToken := "at-1"; session_refreshToken := "rt-1";
                      accountId := "acct-1"; expiresAt := Some 7200000%Z |};
            refreshSessionPromise := None;
            promises := [fulfilled];
            exchangeCalls := ["rt-0"];
            callers := [returned; returned; returned] |}.
Proof. vm_compute. reflexivity. Qed.

(** Two callers, then the exchange fails: both throw, the slot is empty
    again, and a third caller posts a second exchange. *)
Example refresh_fails :
  run refreshOptions
    [Invoke 0; Invoke 1; Settle 0 (refused "denied"); Resume 0; Resume 1;
     Invoke 2]
    initialState
  = Some {| refreshSession := None;
            refreshSessionPromise := Some 1;
            promises := [rejected "Token refresh failed: denied";
                         pending "rt-0"];
            exchangeCalls := ["rt-0"; "rt-0"];
            callers := [threw "Token refresh failed: denied";
                        threw "Token refresh failed: denied";
                        awaits_own 1] |}.
Proof. vm_compute. reflexivity. Qed.

(** C4 for three callers of a provider that holds no session yet: one
    exchange of the configured token, whatever it answers. *)
Lemma single_flight_three_callers :
  authMode refreshOptions = refresh_token_mode /\
  Reachable refreshOptions initialState /\
  Forall (stale initialState) [0; 1; 2]%Z /\
  exchangeCalls (invokeAll refreshOptions [0; 1; 2]%Z initialState) = ["rt-0"] /\
  callers (invokeAll refreshOptions [0; 1; 2]%Z initialState)
    = [awaits_own 0; awaits_shared 0; awaits_shared 0] /\
  forall a : Answer,
    exists st2 : State,
      settle 0 a (invokeAll refreshOptions [0; 1; 2]%Z initialState) = Some st2 /\
      exists st4 : State,
        resume 0 st2 = Some st4 /\
        refreshSessionPromise st4 = None /\
        exchangeCalls st4 = ["rt-0"].
Proof.
  assert (Hreach : Reachable refreshOptions initialState)
    by (exists []; reflexivity).
  assert (Hstale : Forall (stale initialState) [0; 1; 2]%Z)
    by (repeat constructor).
  destruct (single_flight_refresh refreshOptions initialState [0; 1; 2]%Z
              eq_refl Hreach eq_refl ltac:(discriminate) Hstale)
    as (_ & Hcallers & _ & Hposted & Hsettled).
  split; [reflexivity|]. split; [exact Hreach|]. split; [exact Hstale|].
  split; [exact Hposted|]. split; [exact Hcallers|].
  intros a. destruct (Hsettled a) as (st2 & Hst2 & Hlater).
  exists st2. split; [exact Hst2|].
  destruct (Hlater [] st2 ltac:(intros []) eq_refl) as (_ & _ & Hcleared).
  exact Hcleared.
Defined.

(** The endpoint grants a session that expires at second 1 and returns an
    empty refresh token. *)
Definition emptyGrant : Answer :=
  granted {| id_token := "id.token.1"; access_token := "at-1";
             refresh_token := Some "" |}
          (inr {| email := None; token_name := None; exp := Some 1%Z;
                  iat := None; account_id := Some "acct-1" |}).

(** One caller refreshes and is granted [emptyGrant]. *)
Definition emptyRotation : list Event :=
  [Invoke 0; Settle 0 emptyGrant; Resume 0].

Definition afterEmptyRotation : State :=
  {| refreshSession :=
       Some {| accessToken := "at-1"; session_refreshToken := "";
               accountId := "acct-1"; expiresAt := Some 1000%Z |};
     refreshSessionPromise := None;
     promises := [fulfilled];
     exchangeCalls := ["rt-0"];
     callers := [returned] |}.

(** C4 fails as stated: once the endpoint has returned an empty refresh
    token, three callers that find the session expired post no exchange at
    all; each of them fails with [No refresh token was provided.]. *)
Lemma no_exchange_after_empty_refresh_token :
  authMode refreshOptions = refresh_token_mode /\
  run refreshOptions emptyRotation initialState = Some afterEmptyRotation /\
  refreshSessionPromise afterEmptyRotation = None /\
  Forall (stale afterEmptyRotation) [5000; 5001; 5002]%Z /\
  exchangeCalls (invokeAll refreshOptions [5000; 5001; 5002]%Z afterEmptyRotation)
    = exchangeCalls afterEmptyRotation /\
  run refreshOptions [Resume 1; Resume 2; Resume 3]
    (invokeAll refreshOptions [5000; 5001; 5002]%Z afterEmptyRotation)
  = Some {| refreshSession := refreshSession afterEmptyRotation;
            refreshSessionPromise := None;
            promises := [fulfilled; rejected "No refresh token was provided."];
            exchangeCalls := ["rt-0"];
            callers := [returned;
                        threw "No refresh token was provided.";
                        threw "No refresh token was provided.";
                        threw "No refresh token was provided."] |} /\
  ~ (forall (options : Settings) (st : State) (nows : list Z),
        authMode options = refresh_token_mode ->
        Reachable options st ->
        refreshSessionPromise st = None ->
        nows <> [] ->
        Forall (stale st) nows ->
        length (exchangeCalls (invokeAll options nows st))
        = S (length (exchangeCalls st))).
Proof.
  assert (Hrun :
    run refreshOptions emptyRotation initialState = Some afterEmptyRotation)
    by (vm_compute; reflexivity).
  assert (Hstale : Forall (stale afterEmptyRotation) [5000; 5001; 5002]%Z)
    by (repeat constructor).
  split; [reflexivity|]. split; [exact Hrun|]. split; [reflexivity|].
  split; [exact Hstale|]. split; [vm_compute; reflexivity|].
  split; [vm_compute; reflexivity|].
  intros Hclaim.
  specialize (Hclaim refreshOptions afterEmptyRotation [5000; 5001; 5002]%Z
                eq_refl (ex_intro _ emptyRotation Hrun) eq_refl
                ltac:(discriminate) Hstale).
  vm_compute in Hclaim. discriminate.
Qed.

End ProviderScenarios.

(** * Further properties *)

(** ** Request encoder: what each message becomes *)

Section EncoderItems.

Context `{!Host}.
Import Encoder.

(** The text and reasoning parts of an assistant message, as content. *)
Definition assistantTexts (parts : list AssistantPart) : list ContentPart :=
  omap (fun part =>
          match part with
          | assistant_text t => Some (output_text t)
          | assistant_reasoning t =>
              Some (output_text
                      ("<reasoning>" +:+ LF +:+ t +:+ LF +:+ "</reasoning>"))
          | _ => None
          end) parts.

(** Its tool calls, as function-call items. *)
Definition assistantCalls (parts : list AssistantPart) : list CodexInputItem :=
  omap (fun part =>
          match part with
          | assistant_tool_call i n v =>
              Some (function_call i i n (serializeInput v))
          | _ => None
          end) parts.

Definition toolOutputs (parts : list ToolPart) : list CodexInputItem :=
  omap (fun part =>
          match part with
          | tool_result i output =>
              Some (function_call_output i (outputText output))
          | tool_approval_response => None
          end) parts.

(** The items one message contributes to [input]. *)
Definition itemsOf (m : Message) : list CodexInputItem :=
  match m with
  | system _ => []
  | user parts => [message role_user (map userPart parts)]
  | assistant parts =>
      match assistantTexts parts with
      | [] => []
      | texts => [message role_assistant texts]
      end ++ assistantCalls parts
  | tool parts => toolOutputs parts
  end.

Lemma assistantPart_fold (parts : list AssistantPart) :
  forall textParts functionCalls,
    fold_left assistantPart parts (textParts, functionCalls)
    = (textParts ++ assistantTexts parts, functionCalls ++ assistantCalls parts).
Proof.
  induction parts as [|part parts IH]; intros textParts functionCalls.
  - cbn. by rewrite !app_nil_r.
  - cbn [fold_left]. destruct part; cbn [assistantPart]; rewrite IH;
      unfold assistantTexts, assistantCalls; cbn [omap];
      by rewrite <- ?app_assoc.
Qed.

Lemma toolPart_fold (parts : list ToolPart) :
  forall items, fold_left toolPart parts items = items ++ toolOutputs parts.
Proof.
  induction parts as [|part parts IH]; intros items.
  - cbn. by rewrite app_nil_r.
  - cbn [fold_left]. destruct part; cbn [toolPart]; rewrite IH;
      unfold toolOutputs; cbn [omap]; by rewrite <- ?app_assoc.
Qed.

Lemma convertMessage_items (systemParts : list string)
    (items : list CodexInputItem) (m : Message) :
  snd (convertMessage (systemParts, items) m) = items ++ itemsOf m.
Proof.
  destruct m as [c|parts|parts|parts]; cbn [convertMessage itemsOf snd].
  - by rewrite app_nil_r.
  - reflexivity.
  - rewrite assistantPart_fold. cbn [app snd].
    destruct (assistantTexts parts); [done|]. by rewrite <- app_assoc.
  - apply toolPart_fold.
Qed.

Lemma convertMessages_items (prompt : list Message) :
  forall systemParts items,
    snd (fold_left convertMessage prompt (systemParts, items))
    = items ++ concat (map itemsOf prompt).
Proof.
  induction prompt as [|m prompt IH]; intros systemParts items.
  - cbn. by rewrite app_nil_r.
  - cbn [fold_left map concat].
    pose proof (convertMessage_items systemParts items m) as Hm.
    destruct (convertMessage (systemParts, items) m) as [systemParts' items'].
    cbn [snd] in Hm. subst items'. rewrite IH. by rewrite <- app_assoc.
Qed.

(** X1.  The [input] array is the concatenation, in the order of the prompt,
    of what each message contributes: nothing for a system message; one
    user item holding one content part per part; for an assistant message
    one item with its text and reasoning parts, left out when there is
    none, followed by one function-call item per tool call with
    [id = call_id = toolCallId] (file and tool-result parts are skipped);
    for a tool message one function-call-output per tool result. *)
Theorem convertToCodexInput_input (prompt : list Message) :
  input (convertToCodexInput prompt) = concat (map itemsOf prompt).
Proof.
  unfold convertToCodexInput.
  pose proof (convertMessages_items prompt [] []) as Hitems.
  destruct (fold_left convertMessage prompt ([], [])) as [systemParts items].
  exact Hitems.
Qed.

Definition resultTexts (value : list ResultContent) : list string :=
  omap (fun it => match it with result_text t => Some t | result_media => None end)
       value.

Lemma textPieces_fold (value : list ResultContent) :
  forall pieces,
    fold_left
      (fun pieces it =>
         match it with
         | result_text t => pieces ++ [t]
         | result_media => pieces
         end) value pieces
    = pieces ++ resultTexts value.
Proof.
  induction value as [|it value IH]; intros pieces.
  - cbn. by rewrite app_nil_r.
  - cbn [fold_left]. destruct it; rewrite IH; unfold resultTexts; cbn [omap];
      by rewrite <- ?app_assoc.
Qed.

(** X2.  The output of a [content] tool result is its text sub-parts, in
    order, joined by newlines; the other sub-parts are discarded, and a
    result without text sub-parts flattens to the empty string. *)
Theorem outputText_content (value : list ResultContent) :
  outputText (out_content value) = String.concat LF (resultTexts value) /\
  (resultTexts value = [] -> outputText (out_content value) = "").
Proof.
  assert (Hflat : outputText (out_content value)
                  = String.concat LF (resultTexts value)).
  { cbn [outputText]. unfold textPieces. by rewrite textPieces_fold. }
  split; [exact Hflat|]. intros Hnone. by rewrite Hflat, Hnone.
Qed.

Definition isFunctionTool (t : Tool) : bool :=
  match t with
  | function_tool _ _ _ => true
  | provider_tool _ _ => false
  end.

(** X3.  [convertTools] keeps the function tools, in order, and drops the
    provider tools: as many tools come out as function tools went in, none
    of them strict. *)
Theorem convertTools_function_tools (tools : list Tool) :
  length (convertTools tools) = length (List.filter isFunctionTool tools) /\
  map tool_name (convertTools tools)
    = omap (fun t => match t with
                     | function_tool n _ _ => Some n
                     | provider_tool _ _ => None
                     end) tools /\
  Forall (fun t => tool_strict t = false) (convertTools tools).
Proof.
  unfold convertTools. split; [|split].
  - induction tools as [|[] tools IH]; cbn; congruence.
  - induction tools as [|[] tools IH]; cbn; congruence.
  - induction tools as [|[] tools IH]; cbn; [constructor| |done].
    by constructor.
Qed.

(** X4.  [convertToolChoice] loses nothing: different choices are sent as
    different values. *)
Theorem convertToolChoice_injective (a b : option ToolChoice) :
  convertToolChoice a = convertToolChoice b -> a = b.
Proof.
  destruct a as [[| | |n]|], b as [[| | |n']|]; cbn; try done.
  by intros [= ->].
Qed.

End EncoderItems.

(** ** Response protocol translator: further properties *)

Section TranslatorStreams.

Context `{!Host}.
Import LanguageModel.

(** *** Finish reasons *)

Definition knownReasons : list string :=
  ["stop"; "completed"; "length"; "max_output_tokens"; "tool_calls";
   "incomplete"; "content_filter"; "error"; "failed"].

(** X5.  [mapFinishReason] always keeps the raw reason, and answers [other]
    exactly for the reasons outside its table (the comparison is exact:
    no trimming, no change of case). *)
Theorem mapFinishReason_other (reason : string) :
  raw (mapFinishReason reason) = reason /\
  (unified (mapFinishReason reason) = u_other <-> ~ In reason knownReasons).
Proof.
  unfold mapFinishReason, knownReasons.
  repeat match goal with
         | |- context [String.eqb reason ?lit] =>
             destruct (String.eqb_spec reason lit) as [->|?]
         end; cbn [orb raw unified]; (split; [reflexivity|]);
    try (split; [discriminate | intros Hnot; destruct Hnot; cbn; tauto]).
  split; [|done]. intros _. cbn. intuition congruence.
Qed.

(** *** The parts of a stream *)

Definition isError (part : StreamPart) : bool :=
  match part with
  | error_part => true
  | _ => false
  end.

Definition isMalformed (chunk : Chunk) : bool :=
  match chunk with
  | Malformed => true
  | _ => false
  end.

Definition isData (chunk : Chunk) : bool :=
  match chunk with
  | Data _ => true
  | _ => false
  end.

Definition isToolCallPart (part : StreamPart) : bool :=
  match part with
  | tool_call _ _ _ => true
  | _ => false
  end.

Definition isDone (chunk : Chunk) : bool :=
  match chunk with
  | Data p =>
      match kindOf p with
      | arguments_done_record => true
      | _ => false
      end
  | _ => false
  end.

(** The numbers of [error], [finish] and [tool-call] parts among some
    parts. *)
Definition tally (parts : list StreamPart) : nat * nat * nat :=
  (length (List.filter isError parts),
   length (List.filter isFinish parts),
   length (List.filter isToolCallPart parts)).

Lemma tally_app (parts more : list StreamPart) :
  tally (parts ++ more)
  = (fst (fst (tally parts)) + fst (fst (tally more)),
     snd (fst (tally parts)) + snd (fst (tally more)),
     snd (tally parts) + snd (tally more)).
Proof. unfold tally. cbn. by rewrite !List.filter_app, !length_app. Qed.

Lemma dispatch_tally (p : Parsed) (st : StreamState) :
  tally (snd (dispatch p st))
  = (0,
     if isCompleted (Data p) then 1 else 0,
     if isDone (Data p) then 1 else 0).
Proof.
  rewrite dispatch_kind. cbn [isCompleted isDone]. destruct (kindOf p).
  - unfold onTextDelta, openSegment.
    by destruct (currentTextId st) as [i|]; [destruct (truthy (Some i))|].
  - unfold closeText.
    by destruct (currentTextId st) as [i|]; [destruct (truthy (Some i))|].
  - unfold onReasoningDelta, openSegment.
    by destruct (currentReasoningId st) as [i|]; [destruct (truthy (Some i))|].
  - unfold closeReasoning.
    by destruct (currentReasoningId st) as [i|]; [destruct (truthy (Some i))|].
  - unfold onItemAdded. by destruct (addedFunctionCall p) as [[? ?]|].
  - unfold onArgumentsDelta. by destruct (argumentsDelta p) as [[? ?]|].
  - unfold onArgumentsDone.
    destruct (resolveArgs (functionCallArgs st) p),
      (resolveToolCallId (call_id p) (item_id p) (uuidCalls st)).
    by destruct (item_id p) as [j|]; [destruct (truthy (Some j))|].
  - unfold onCompleted, closeText, closeReasoning.
    by destruct (currentTextId st) as [i|]; [destruct (truthy (Some i))|];
      cbn [currentReasoningId set_currentTextId];
      (destruct (currentReasoningId st) as [j|];
        [destruct (truthy (Some j))|]).
  - done.
Qed.

Lemma transform_tally (options : CallOptions) (st : StreamState)
    (chunk : Chunk) :
  tally (snd (transform options st chunk))
  = (if isMalformed chunk then 1 else 0,
     if isCompleted chunk then 1 else 0,
     if isDone chunk then 1 else 0).
Proof.
  destruct chunk as [| | |p]; try reflexivity.
  rewrite transform_data. cbn [snd]. rewrite tally_app, dispatch_tally.
  unfold preamble.
  by destruct (isFirstChunk st), (includeRawChunks options),
    (isCompleted (Data p)), (isDone (Data p)).
Qed.

Lemma pipeThrough_tally (options : CallOptions) (chunks : list Chunk) :
  forall st : StreamState,
    tally (snd (pipeThrough options st chunks))
    = (length (List.filter isMalformed chunks),
       length (List.filter isCompleted chunks),
       length (List.filter isDone chunks)).
Proof.
  induction chunks as [|chunk chunks IH]; intros st; [reflexivity|].
  cbn [pipeThrough]. pose proof (transform_tally options st chunk) as Hstep.
  destruct (transform options st chunk) as [st1 parts]. specialize (IH st1).
  destruct (pipeThrough options st1 chunks) as [st2 more].
  cbn [snd] in *. rewrite tally_app, Hstep, IH. cbn [fst snd List.filter].
  by destruct (isMalformed chunk), (isCompleted chunk), (isDone chunk).
Qed.

(** X6.  A stream holds one [error] part per malformed record, one [finish]
    part per [response.completed] record and one [tool-call] part per
    [function_call_arguments.done] record, whatever else the records
    carry. *)
Theorem stream_part_counts
    (options : CallOptions) (resp : FetchResponse) (parts : list StreamPart) :
  doStream options resp = inr parts ->
  length (List.filter isError parts)
    = length (List.filter isMalformed (response_body resp)) /\
  length (List.filter isFinish parts)
    = length (List.filter isCompleted (response_body resp)) /\
  length (List.filter isToolCallPart parts)
    = length (List.filter isDone (response_body resp)).
Proof.
  unfold doStream. destruct (ok resp); [|discriminate]. cbn [negb].
  intros [= <-].
  pose proof (pipeThrough_tally options (response_body resp) initialStreamState)
    as Htally.
  unfold tally in Htally. by injection Htally as -> -> ->.
Qed.

(** X7.  [stream-start] is enqueued at most once; what precedes it are the
    [error] parts of malformed records, and it carries the warnings of the
    request. *)
Theorem stream_start_at_most_once
    (options : CallOptions) (resp : FetchResponse) (parts : list StreamPart) :
  doStream options resp = inr parts ->
  exists errors rest : list StreamPart,
    parts = errors ++ rest /\
    Forall (fun part => part = error_part) errors /\
    (rest = [] \/
     exists rest', rest = stream_start (buildWarnings options) :: rest' /\
                   Forall notStart rest').
Proof.
  unfold doStream. destruct (ok resp); [|discriminate]. cbn [negb].
  intros [= <-].
  exact (stream_start_shape options (response_body resp) initialStreamState
           eq_refl).
Qed.

(** X8.  A consumer that insists on well-bracketed text and reasoning segments
    accepts every stream: a delta or an end comes under the identifier of
    the open segment of its kind only, a segment is opened only when none
    of its kind is open, and none is open at a [finish] part. *)
Theorem stream_well_bracketed
    (options : CallOptions) (resp : FetchResponse) (parts : list StreamPart) :
  (forall k, randomUUID k <> "") ->
  doStream options resp = inr parts ->
  is_Some (observeAll {| open_text := None; open_reasoning := None |} parts).
Proof.
  intros Huuid. unfold doStream. destruct (ok resp); [|discriminate].
  cbn [negb]. intros [= <-].
  assert (Hinit : Tracks initialStreamState
                    {| open_text := None; open_reasoning := None |})
    by (by split).
  destruct (pipeThrough_tracks options (response_body resp) Huuid _ _ Hinit)
    as (o' & Haccepted & _).
  by exists o'.
Qed.


(** *** Records that carry nothing *)

Definition withBody (resp : FetchResponse) (chunks : list Chunk)
    : FetchResponse :=
  {| ok := ok resp; status := status resp;
     response_text := response_text resp; response_body := chunks |}.

Definition notError (part : StreamPart) : bool := negb (isError part).

Lemma filter_none {A : Type} (f : A -> bool) (l : list A) :
  length (List.filter f l) = 0 ->
  List.filter (fun x => negb (f x)) l = l.
Proof.
  induction l as [|x l IH]; [done|]. cbn.
  destruct (f x); cbn; [done|]. intros Hl. by rewrite IH.
Qed.

Lemma transform_data_no_error (options : CallOptions) (st : StreamState)
    (p : Parsed) :
  List.filter notError (snd (transform options st (Data p)))
  = snd (transform options st (Data p)).
Proof.
  apply filter_none.
  pose proof (transform_tally options st (Data p)) as Htally.
  unfold tally in Htally. injection Htally as Herr _ _. exact Herr.
Qed.

Lemma pipeThrough_data_only (options : CallOptions) (chunks : list Chunk) :
  forall st : StreamState,
    pipeThrough options st (List.filter isData chunks)
    = (fst (pipeThrough options st chunks),
       List.filter notError (snd (pipeThrough options st chunks))).
Proof.
  induction chunks as [|chunk chunks IH]; intros st; [reflexivity|].
  destruct chunk as [| | |p].
  - change (List.filter isData (NoData :: chunks))
      with (List.filter isData chunks).
    rewrite IH. cbn [pipeThrough transform].
    by destruct (pipeThrough options st chunks).
  - change (List.filter isData (DoneMarker :: chunks))
      with (List.filter isData chunks).
    rewrite IH. cbn [pipeThrough transform].
    by destruct (pipeThrough options st chunks).
  - change (List.filter isData (Malformed :: chunks))
      with (List.filter isData chunks).
    rewrite IH. cbn [pipeThrough transform].
    by destruct (pipeThrough options st chunks).
  - change (List.filter isData (Data p :: chunks))
      with (Data p :: List.filter isData chunks).
    cbn [pipeThrough].
    pose proof (transform_data_no_error options st p) as Hclean.
    destruct (transform options st (Data p)) as [st1 parts].
    cbn [snd] in Hclean. rewrite IH.
    destruct (pipeThrough options st1 chunks) as [st2 more].
    cbn [fst snd]. by rewrite List.filter_app, Hclean.
Qed.

Lemma bufferChunk_data_only (chunks : list Chunk) :
  forall b : Buffer,
    fold_left bufferChunk (List.filter isData chunks) b
    = fold_left bufferChunk chunks b.
Proof.
  induction chunks as [|chunk chunks IH]; intros b; [reflexivity|].
  destruct chunk; cbn [List.filter isData fold_left bufferChunk]; apply IH.
Qed.

(** X9.  Records without data, [[DONE]] markers and malformed records change
    nothing but the [error] parts of the stream: without them the buffered
    result is the same, and the stream is the same stream without its
    [error] parts. *)
Theorem malformed_records_are_skipped
    (modelId : string) (options : CallOptions) (resp : FetchResponse) :
  doGenerate modelId options
    (withBody resp (List.filter isData (response_body resp)))
  = doGenerate modelId options resp /\
  forall parts : list StreamPart,
    doStream options resp = inr parts ->
    doStream options (withBody resp (List.filter isData (response_body resp)))
    = inr (List.filter notError parts).
Proof.
  split.
  - unfold doGenerate, withBody. cbn [ok response_body response_text status].
    by rewrite bufferChunk_data_only.
  - intros parts. unfold doStream, withBody.
    cbn [ok response_body response_text status].
    destruct (ok resp); [|discriminate]. cbn [negb]. intros [= <-].
    by rewrite pipeThrough_data_only.
Qed.

(** *** The buffered text *)

(** The deltas of the [output_text.delta] records, in order. *)
Definition textDeltas (chunks : list Chunk) : list string :=
  omap (fun chunk =>
          match chunk with
          | Data p =>
              match kindOf p with
              | text_delta_record => Some (default "" (delta p))
              | _ => None
              end
          | _ => None
          end) chunks.

Definition joined (pieces : list string) : string :=
  fold_right String.append "" pieces.

Lemma joined_app (pieces more : list string) :
  joined (pieces ++ more) = joined pieces +:+ joined more.
Proof.
  induction pieces as [|piece pieces IH]; [reflexivity|].
  cbn [app joined fold_right]. fold (joined (pieces ++ more)) (joined pieces).
  by rewrite IH, append_assoc.
Qed.

Lemma textDeltas_cons (chunk : Chunk) (chunks : list Chunk) :
  textDeltas (chunk :: chunks) = textDeltas [chunk] ++ textDeltas chunks.
Proof. apply (omap_app _ [chunk] chunks). Qed.

Lemma bufferChunk_text_step (b : Buffer) (chunk : Chunk) :
  accumulatedText (bufferChunk b chunk)
  = accumulatedText b +:+ joined (textDeltas [chunk]).
Proof.
  destruct chunk as [| | |p]; cbn [bufferChunk];
    try (cbn; by rewrite append_nil_r).
  rewrite bufferParsed_kind.
  assert (Hdeltas : textDeltas [Data p]
                    = match kindOf p with
                      | text_delta_record => [default "" (delta p)]
                      | _ => []
                      end)
    by (unfold textDeltas; cbn; by destruct (kindOf p)).
  rewrite Hdeltas.
  destruct (kindOf p); cbn [joined fold_right];
    rewrite ?append_nil_r; try reflexivity.
  - unfold bufferItemAdded. by destruct (addedFunctionCall p) as [[? ?]|].
  - unfold bufferArgumentsDelta. by destruct (argumentsDelta p) as [[? ?]|].
  - unfold bufferArgumentsDone.
    by destruct (resolveArgs (b_functionCallArgs b) p),
      (resolveToolCallId (call_id p) (item_id p) (b_uuidCalls b)).
Qed.

Lemma bufferChunk_text (chunks : list Chunk) :
  forall b : Buffer,
    accumulatedText (fold_left bufferChunk chunks b)
    = accumulatedText b +:+ joined (textDeltas chunks).
Proof.
  induction chunks as [|chunk chunks IH]; intros b.
  - cbn. by rewrite append_nil_r.
  - cbn [fold_left].
    rewrite IH, bufferChunk_text_step, (textDeltas_cons chunk chunks),
      joined_app.
    apply append_assoc.
Qed.

(** X10.  The text of a buffered result is the concatenation of the deltas of
    the [output_text.delta] records, a missing delta counting as empty;
    no record of another type changes it, and the content starts with a
    text item exactly when that text is not empty. *)
Theorem buffered_text_is_joined_deltas
    (modelId : string) (options : CallOptions) (resp : FetchResponse)
    (r : GenerateResult) :
  doGenerate modelId options resp = inr r ->
  let t := joined (textDeltas (response_body resp)) in
  contentText (content r) = t /\
  exists calls : list Content,
    forallb isToolCall calls = true /\
    content r = (if t =? "" then [] else [c_text t]) ++ calls.
Proof.
  unfold doGenerate. destruct (ok resp); [|discriminate]. cbn [negb].
  intros [= <-]. set (t := joined (textDeltas (response_body resp))).
  cbn [content].
  pose proof (bufferChunk_toolCalls (response_body resp) initialBuffer eq_refl)
    as Hall.
  destruct (content_outcome _ Hall) as [Htext _].
  pose proof (bufferChunk_text (response_body resp) initialBuffer) as Hacc.
  cbn [accumulatedText initialBuffer] in Hacc.
  change ("" +:+ joined (textDeltas (response_body resp))) with t in Hacc.
  rewrite Htext, Hacc. split; [reflexivity|].
  exists (toolCalls (fold_left bufferChunk (response_body resp) initialBuffer)).
  split; [exact Hall|]. by destruct (t =? "").
Qed.


(** *** Streamed tool input *)

(** A consumer that assembles the input of each tool call from the
    [tool-input-delta] parts: the chunks received per item, and, right
    after a [tool-input-end], the text assembled for its item. *)
Record Assembly : Type := {
  assembled : gmap string string;
  closing : option (option string)
}.

(** [None] is a violation: a [tool-input-end] that is not directly
    followed by a [tool-call], or a [tool-call] whose input is not the
    text assembled for its item. *)
Definition assemble (a : Assembly) (part : StreamPart) : option Assembly :=
  match closing a with
  | Some expected =>
      match part with
      | tool_call _ _ v =>
          match expected with
          | Some t =>
              if decide (v = Some t)
              then Some {| assembled := assembled a; closing := None |}
              else None
          | None => Some {| assembled := assembled a; closing := None |}
          end
      | _ => None
      end
  | None =>
      match part with
      | tool_input_delta i d =>
          Some {| assembled :=
                    <[i := default "" (assembled a !! i) +:+ d]> (assembled a);
                  closing := None |}
      | tool_input_end i =>
          Some {| assembled := delete i (assembled a);
                  closing := Some (assembled a !! i) |}
      | _ => Some a
      end
  end.

Fixpoint assembleAll (a : Assembly) (parts : list StreamPart)
    : option Assembly :=
  match parts with
  | [] => Some a
  | part :: rest => assemble a part ≫= fun a' => assembleAll a' rest
  end.

Lemma assembleAll_app (parts more : list StreamPart) :
  forall a : Assembly,
    assembleAll a (parts ++ more)
    = assembleAll a parts ≫= fun a' => assembleAll a' more.
Proof.
  induction parts as [|part parts IH]; intros a; [reflexivity|].
  cbn [app assembleAll]. destruct (assemble a part) as [a'|]; [|reflexivity].
  cbn. apply IH.
Qed.

(** Between two records the consumer holds what the translator holds. *)
Definition between (st : StreamState) : Assembly :=
  {| assembled := functionCallArgs st; closing := None |}.

Lemma dispatch_assembles (p : Parsed) (st : StreamState) :
  assembleAll (between st) (snd (dispatch p st))
  = Some (between (fst (dispatch p st))).
Proof.
  rewrite dispatch_kind. destruct (kindOf p).
  - unfold onTextDelta, openSegment.
    by destruct (currentTextId st) as [i|]; [destruct (truthy (Some i))|].
  - unfold closeText.
    by destruct (currentTextId st) as [i|]; [destruct (truthy (Some i))|].
  - unfold onReasoningDelta, openSegment.
    by destruct (currentReasoningId st) as [i|]; [destruct (truthy (Some i))|].
  - unfold closeReasoning.
    by destruct (currentReasoningId st) as [i|]; [destruct (truthy (Some i))|].
  - unfold onItemAdded. by destruct (addedFunctionCall p) as [[? ?]|].
  - unfold onArgumentsDelta. by destruct (argumentsDelta p) as [[? ?]|].
  - unfold onArgumentsDone, resolveArgs.
    destruct (resolveToolCallId (call_id p) (item_id p) (uuidCalls st))
      as [toolCallId calls].
    destruct (item_id p) as [i|]; [|reflexivity].
    destruct (truthy (Some i)); [|reflexivity].
    destruct (functionCallArgs st !! i) as [acc|] eqn:Hacc.
    + cbn. unfold assemble. cbn. rewrite Hacc. cbn.
      by rewrite decide_True.
    + cbn. unfold assemble. cbn. rewrite Hacc. cbn. unfold between. cbn.
      by rewrite delete_id.
  - unfold onCompleted, closeText, closeReasoning.
    by destruct (currentTextId st) as [i|]; [destruct (truthy (Some i))|];
      cbn [currentReasoningId set_currentTextId];
      (destruct (currentReasoningId st) as [j|];
        [destruct (truthy (Some j))|]).
  - done.
Qed.

Lemma transform_assembles (options : CallOptions) (st : StreamState)
    (chunk : Chunk) :
  assembleAll (between st) (snd (transform options st chunk))
  = Some (between (fst (transform options st chunk))).
Proof.
  destruct chunk as [| | |p]; try reflexivity.
  rewrite transform_data. cbn [fst snd]. rewrite assembleAll_app.
  assert (Hpre : assembleAll (between st) (preamble options st p)
                 = Some (between (set_isFirstChunk false st))).
  { unfold preamble. by destruct (isFirstChunk st), (includeRawChunks options). }
  rewrite Hpre. cbn. apply dispatch_assembles.
Qed.

Lemma pipeThrough_assembles (options : CallOptions) (chunks : list Chunk) :
  forall st : StreamState,
    assembleAll (between st) (snd (pipeThrough options st chunks))
    = Some (between (fst (pipeThrough options st chunks))).
Proof.
  induction chunks as [|chunk chunks IH]; intros st; [reflexivity|].
  cbn [pipeThrough]. pose proof (transform_assembles options st chunk) as Hstep.
  destruct (transform options st chunk) as [st1 parts]. specialize (IH st1).
  destruct (pipeThrough options st1 chunks) as [st2 more].
  cbn [fst snd] in *. by rewrite assembleAll_app, Hstep.
Qed.

(** X11.  The [tool-input-delta] parts of an item add up to the input of its
    tool call: every [tool-input-end] is directly followed by a
    [tool-call], and when deltas were streamed for the item since its last
    [tool-input-end], the input of that tool call is their concatenation,
    in order. *)
Theorem streamed_deltas_add_up
    (options : CallOptions) (resp : FetchResponse) (parts : list StreamPart) :
  doStream options resp = inr parts ->
  exists left_over : gmap string string,
    assembleAll {| assembled := ∅; closing := None |} parts
    = Some {| assembled := left_over; closing := None |}.
Proof.
  unfold doStream. destruct (ok resp); [|discriminate]. cbn [negb].
  intros [= <-].
  pose proof (pipeThrough_assembles options (response_body resp)
                initialStreamState) as Hall.
  eexists. exact Hall.
Qed.

End TranslatorStreams.

(** ** codex-language-model.ts: the request body *)

Module RequestBody.

Import Encoder.

(** [CodexSettings] *)
Record ReasoningSettings : Type := {
  effort : option string;
  summary : option string
}.

Section Numbers.

(** The numbers of the call options are passed on as they are. *)
Variable number : Type.

Record CodexSettings : Type := {
  reasoning : option ReasoningSettings;
  store : option bool;
  settings_seed : option number
}.

(** [LanguageModelV3CallOptions], the fields [buildRequestBody] reads. *)
Record Options : Type := {
  prompt : list Message;
  maxOutputTokens : option number;
  temperature : option number;
  topP : option number;
  frequencyPenalty : option number;
  presencePenalty : option number;
  stopSequences : option (list string);
  seed : option number;
  tools : option (list Tool);
  toolChoice : option ToolChoice;
  topK : option Z;
  responseFormat_json : bool
}.

(** The body: a key that is not set is [None]. *)
Record Body : Type := {
  model : string;
  instructions : string;
  input : list CodexInputItem;
  body_store : bool;
  stream : bool;
  max_output_tokens : option number;
  body_temperature : option number;
  top_p : option number;
  frequency_penalty : option number;
  presence_penalty : option number;
  stop : option (list string);
  body_seed : option number;
  body_tools : option (list CodexTool);
  tool_choice : option CodexToolChoice;
  body_reasoning : option (string * string)
}.

(** [options.tools && options.tools.length > 0 ? convertTools(options.tools)
    : undefined] *)
Definition requestTools (options : Options) : option (list CodexTool) :=
  match tools options with
  | Some (t :: ts) => Some (convertTools (t :: ts))
  | Some [] | None => None
  end.

Definition buildRequestBody `{Host} (modelId : string)
    (settings : CodexSettings) (options : Options)
    : Body * list LanguageModel.Warning :=
  let converted := convertToCodexInput (prompt options) in
  let warnings :=
    LanguageModel.buildWarnings
      {| LanguageModel.topK := topK options;
         LanguageModel.responseFormat_json := responseFormat_json options;
         LanguageModel.includeRawChunks := false |} in
  let tools := requestTools options in
  let toolChoice :=
    match tools with
    | Some _ => convertToolChoice (toolChoice options)
    | None => None
    end in
  ({| model := modelId;
      instructions := Encoder.instructions converted;
      input := Encoder.input converted;
      body_store := default false (store settings);
      stream := false;
      max_output_tokens := maxOutputTokens options;
      body_temperature := temperature options;
      top_p := topP options;
      frequency_penalty := frequencyPenalty options;
      presence_penalty := presencePenalty options;
      stop := stopSequences options;
      body_seed := nullish (seed options) (settings_seed settings);
      body_tools := tools;
      tool_choice := toolChoice;
      body_reasoning :=
        (fun r => (default "medium" (effort r), default "auto" (summary r)))
          <$> reasoning settings |},
   warnings).

(** [body['stream'] = true], as [doGenerate] and [doStream] post it. *)
Definition postedBody `{Host} (modelId : string)
    (settings : CodexSettings) (options : Options) : Body :=
  let b := fst (buildRequestBody modelId settings options) in
  {| model := model b; instructions := instructions b; input := input b;
     body_store := body_store b; stream := true;
     max_output_tokens := max_output_tokens b;
     body_temperature := body_temperature b; top_p := top_p b;
     frequency_penalty := frequency_penalty b;
     presence_penalty := presence_penalty b; stop := stop b;
     body_seed := body_seed b; body_tools := body_tools b;
     tool_choice := tool_choice b; body_reasoning := body_reasoning b |}.

End Numbers.

End RequestBody.

Section RequestBodyProperties.

Context `{!Host}.
Import Encoder RequestBody.

Context {number : Type}.

(** X12.  The posted body carries [tool_choice] only next to [tools], and
    [tools] exactly when the caller passes at least one tool: when every
    tool passed is a provider tool, an empty [tools] array is posted, with
    the tool choice of the caller. *)
Theorem tool_choice_requires_tools
    (modelId : string) (settings : CodexSettings number)
    (options : Options number) :
  let b := postedBody number modelId settings options in
  (is_Some (tool_choice number b) -> is_Some (body_tools number b)) /\
  (is_Some (body_tools number b) <->
   exists t ts, tools number options = Some (t :: ts)) /\
  (forall t ts,
      tools number options = Some (t :: ts) ->
      forallb (fun x => negb (isFunctionTool x)) (t :: ts) = true ->
      body_tools number b = Some [] /\
      tool_choice number b = convertToolChoice (toolChoice number options)).
Proof.
  cbn [postedBody buildRequestBody fst body_tools tool_choice].
  unfold requestTools. split; [|split].
  - destruct (tools number options) as [[|t ts]|]; by intros [? ?].
  - destruct (tools number options) as [[|t ts]|]; split;
      try (by intros [? ?]); try (by intros (? & ? & ?)); eauto.
  - intros t ts -> Hall. split; [|reflexivity]. f_equal.
    induction (t :: ts) as [|x l IH]; [reflexivity|].
    cbn in Hall. apply andb_true_iff in Hall as [Hx Hl].
    destruct x; [discriminate|]. cbn. by apply IH.
Qed.

End RequestBodyProperties.

(** ** codex-auth.ts

    The file-backed credentials, for calls that do not overlap: a call
    runs to its end before the next one starts, so [refreshPromise] is
    [null] whenever [refreshAccessToken] is entered.  The state holds the
    two static caches, the file, and a log of what the calls did to the
    file and to the token endpoint.  A [fetch] function is available, the
    endpoint answers every request, with a response that is ok or not,
    and [fs.writeFile] succeeds; what is written is read back as it was
    written. *)

Module CodexAuth.

Import Provider.

Record Tokens : Type := {
  tokens_id_token : string;
  tokens_access_token : string;
  tokens_refresh_token : string;
  tokens_account_id : option string
}.

Record AuthDotJson : Type := {
  tokens : option Tokens;
  api_key : option string;
  last_refresh : option string
}.

(** [~/.codex/auth.json], by what [fs.readFile] and [JSON.parse] make of
    it. *)
Inductive AuthFile : Type :=
| absent                        (* [readFile] fails with [ENOENT] *)
| unreadable (error : string)   (* [readFile] or [JSON.parse] throws [error] *)
| stored (auth : AuthDotJson).

(** The claims [parseIdToken] reads from the payload of a token. *)
Record Claims : Type := {
  claim_email : option string;
  claim_name : option string;
  claim_exp : option Z;
  claim_iat : option Z;
  claim_labs_account_id : option string;  (* [https://labs.openai.com/account_id] *)
  claim_account_id : option string
}.

(** What the runtime provides: [atob] (or [Buffer]) with the UTF-8
    decoding of its result, and [JSON.parse] of a payload; [inl] is the
    error thrown, as [${error}] prints it. *)
Class Runtime : Type := {
  decodeBase64 : string -> string + string;
  parseClaims : string -> string + Claims;
  authPath : string                       (* [getAuthFilePath()] *)
}.

Record State : Type := {
  cachedAuth : option AuthDotJson;
  cachedTokenInfo : option (string * IdTokenInfo);
  file : AuthFile;
  reads : nat;                 (* calls of [fs.readFile] *)
  writes : list AuthDotJson;   (* what [fs.writeFile] wrote, latest last *)
  posted : list string         (* refresh tokens posted to the endpoint *)
}.

(** *** Calls that read and write the state, and may throw *)

Definition Call (A : Type) : Type := State -> (string + A) * State.

Definition ret {A : Type} (a : A) : Call A := fun st => (inr a, st).

Definition throw {A : Type} (e : string) : Call A := fun st => (inl e, st).

Definition bind {A B : Type} (m : Call A) (k : A -> Call B) : Call B :=
  fun st =>
    match m st with
    | (inr a, st') => k a st'
    | (inl e, st') => (inl e, st')
    end.

Notation "'await' x <- m ; k" := (bind m (fun x => k))
  (at level 10, x name, m at level 100, k at level 200,
   format "'[v' 'await'  x  <-  m ; '/' k ']'").

(** *** decodeBase64UrlToUtf8 *)

Definition replaceChar (c : ascii) : ascii :=
  if Ascii.eqb c "-" then "+"%char
  else if Ascii.eqb c "_" then "/"%char
  else c.

Fixpoint replaceAll (value : string) : string :=
  match value with
  | EmptyString => EmptyString
  | String c rest => String (replaceChar c) (replaceAll rest)
  end.

Fixpoint repeat_string (s : string) (n : nat) : string :=
  match n with
  | O => ""
  | S n' => s +:+ repeat_string s n'
  end.

(** [normalized + '='.repeat((4 - (normalized.length % 4)) % 4)] *)
Definition padded (value : string) : string :=
  let normalized := replaceAll value in
  normalized +:+
  repeat_string "=" ((4 - String.length normalized mod 4) mod 4).

Definition decodeBase64UrlToUtf8 `{Runtime} (value : string) : string + string :=
  decodeBase64 (padded value).

(** *** parseIdToken *)

(** [s.split('.')] *)
Fixpoint split_dots (s : string) (current : string) : list string :=
  match s with
  | EmptyString => [current]
  | String c rest =>
      if Ascii.eqb c "."
      then current :: split_dots rest ""
      else split_dots rest (current +:+ String c EmptyString)
  end.

(** The body of the [try] block: [inl] is the error it throws. *)
Definition decodeIdToken `{Runtime} (idToken : string) : string + IdTokenInfo :=
  match split_dots idToken "" with
  | [_; payload; _] =>
      match decodeBase64UrlToUtf8 payload with
      | inl e => inl e
      | inr decoded =>
          match parseClaims decoded with
          | inl e => inl e
          | inr tokenData =>
              inr {| email := claim_email tokenData;
                     token_name := claim_name tokenData;
                     exp := claim_exp tokenData;
                     iat := claim_iat tokenData;
                     account_id :=
                       nullish (claim_labs_account_id tokenData)
                               (claim_account_id tokenData) |}
          end
      end
  | _ => inl "Error: Invalid JWT token format"
  end.

Definition parseIdToken `{Runtime} (idToken : string) : Call IdTokenInfo :=
  fun st =>
    match cachedTokenInfo st with
    | Some (cached, tokenInfo) =>
        if cached =? idToken then (inr tokenInfo, st)
        else
          match decodeIdToken idToken with
          | inr info =>
              (inr info,
               {| cachedAuth := cachedAuth st;
                  cachedTokenInfo := Some (idToken, info);
                  file := file st; reads := reads st;
                  writes := writes st; posted := posted st |})
          | inl e => (inl ("Failed to parse ID token: " +:+ e), st)
          end
    | None =>
        match decodeIdToken idToken with
        | inr info =>
            (inr info,
             {| cachedAuth := cachedAuth st;
                cachedTokenInfo := Some (idToken, info);
                file := file st; reads := reads st;
                writes := writes st; posted := posted st |})
        | inl e => (inl ("Failed to parse ID token: " +:+ e), st)
        end
    end.

(** *** isTokenExpired *)

Definition isTokenExpired (tokenInfo : IdTokenInfo) (now : Z) : bool :=
  match exp tokenInfo with
  | None => true
  | Some e =>
      if (e =? 0)%Z then true
      else (e * 1000 - now <? 60 * 60 * 1000)%Z
  end.

(** *** loadAuthJson, clearCache *)

Definition loadAuthJson `{Runtime} : Call AuthDotJson :=
  fun st =>
    match cachedAuth st with
    | Some auth => (inr auth, st)
    | None =>
        let st' :=
          {| cachedAuth := None; cachedTokenInfo := cachedTokenInfo st;
             file := file st; reads := S (reads st);
             writes := writes st; posted := posted st |} in
        match file st with
        | stored auth =>
            (inr auth,
             {| cachedAuth := Some auth; cachedTokenInfo := cachedTokenInfo st;
                file := file st; reads := S (reads st);
                writes := writes st; posted := posted st |})
        | absent =>
            (inl ("Authentication not found. Please run 'codex login' first." +:+
                  LF +:+ "Expected auth file at: " +:+ authPath), st')
        | unreadable error =>
            (inl ("Failed to read auth.json: " +:+ error), st')
        end
    end.

Definition clearCache : Call unit :=
  fun st =>
    (inr tt,
     {| cachedAuth := None; cachedTokenInfo := None;
        file := file st; reads := reads st;
        writes := writes st; posted := posted st |}).

(** *** doRefreshToken *)

(** [exchangeRefreshTokenRaw]: the POST, and what the endpoint answers
    ([inl]: the text of a response that is not ok). *)
Definition exchangeRefreshTokenRaw (refreshToken : string)
    (answer : string + TokenResponse) : Call TokenResponse :=
  fun st =>
    let st' :=
      {| cachedAuth := cachedAuth st; cachedTokenInfo := cachedTokenInfo st;
         file := file st; reads := reads st; writes := writes st;
         posted := posted st ++ [refreshToken] |} in
    match answer with
    | inr tokenResponse => (inr tokenResponse, st')
    | inl errorText => (inl ("Token refresh failed: " +:+ errorText), st')
    end.

Definition writeFile (auth : AuthDotJson) : Call unit :=
  fun st =>
    (inr tt,
     {| cachedAuth := cachedAuth st; cachedTokenInfo := cachedTokenInfo st;
        file := stored auth; reads := reads st;
        writes := writes st ++ [auth]; posted := posted st |}).

(** The record [auth] after the two assignments. *)
Definition refreshedAuth (auth : AuthDotJson) (old : Tokens)
    (tokenResponse : TokenResponse) (today : string) : AuthDotJson :=
  {| tokens :=
       Some {| tokens_id_token := id_token tokenResponse;
               tokens_access_token := access_token tokenResponse;
               tokens_refresh_token :=
                 default (tokens_refresh_token old) (refresh_token tokenResponse);
               tokens_account_id := tokens_account_id old |};
     api_key := api_key auth;
     last_refresh := Some today |}.

(** [auth] is the cached object: the assignments change it in place, and
    the caller keeps a reference to it; the refreshed record is returned
    for that reason. *)
Definition doRefreshToken `{Runtime} (answer : string + TokenResponse)
    (today : string) : Call AuthDotJson :=
  await auth <- loadAuthJson;
  match tokens auth with
  | Some old =>
      if truthy (Some (tokens_refresh_token old)) then
        await tokenResponse <-
          exchangeRefreshTokenRaw (tokens_refresh_token old) answer;
        let auth' := refreshedAuth auth old tokenResponse today in
        await _ <- writeFile auth';
        await _ <- clearCache;
        ret auth'
      else
        throw ("No refresh token available. Please run " +:+ DQ +:+
               "codex login" +:+ DQ +:+ " to authenticate.")
  | None =>
      throw ("No refresh token available. Please run " +:+ DQ +:+
             "codex login" +:+ DQ +:+ " to authenticate.")
  end.

(** [auth.tokens?.access_token], when truthy *)
Definition accessTokenOf (auth : AuthDotJson) : option string :=
  tokens auth ≫= fun t => truthy_value (Some (tokens_access_token t)).

(** [refreshAccessToken], entered with [refreshPromise] null; the access
    token, and the record the caller's [auth] has become. *)
Definition refreshAccessToken `{Runtime} (answer : string + TokenResponse)
    (today : string) : Call (string * AuthDotJson) :=
  await changed <- doRefreshToken answer today;
  await auth <- loadAuthJson;
  match accessTokenOf auth with
  | Some token => ret (token, changed)
  | None => throw "No access token after refresh"
  end.

(** *** getAccessToken, getAccountId, getHeaders *)

Definition lastResort (auth : AuthDotJson) : Call string :=
  match accessTokenOf auth with
  | Some token => ret token
  | None =>
      match truthy_value (api_key auth) with
      | Some key => ret key
      | None => throw "No access token or API key found in auth.json"
      end
  end.

Definition getAccessToken `{Runtime} (now : Z)
    (answer : string + TokenResponse) (today : string) : Call string :=
  await auth <- loadAuthJson;
  match tokens auth with
  | Some t =>
      if truthy (Some (tokens_id_token t)) then
        await tokenInfo <- parseIdToken (tokens_id_token t);
        if isTokenExpired tokenInfo now
           && truthy (Some (tokens_refresh_token t)) then
          await done <- refreshAccessToken answer today;
          await refreshed <- loadAuthJson;
          match accessTokenOf refreshed with
          | Some token => ret token
          | None => lastResort (snd done)
          end
        else lastResort auth
      else lastResort auth
  | None => lastResort auth
  end.

Definition getAccountId `{Runtime} : Call string :=
  await auth <- loadAuthJson;
  match tokens auth ≫= fun t => truthy_value (tokens_account_id t) with
  | Some account => ret account
  | None =>
      match tokens auth ≫= fun t => truthy_value (Some (tokens_id_token t)) with
      | Some idToken =>
          await tokenInfo <- parseIdToken idToken;
          match truthy_value (account_id tokenInfo) with
          | Some account => ret account
          | None => throw "No account ID found in auth.json"
          end
      | None => throw "No account ID found in auth.json"
      end
  end.

Definition getHeaders `{Runtime} (now : Z)
    (answer : string + TokenResponse) (today : string)
    : Call (gmap string string) :=
  await accessToken <- getAccessToken now answer today;
  await accountId <- getAccountId;
  ret (<["Content-Type" := "application/json"]>
       (<["chatgpt-account-id" := accountId]>
        (<["Authorization" := "Bearer " +:+ accessToken]> ∅))).

End CodexAuth.

(** ** File-backed credentials *)

Section CodexAuthProperties.

Import JS Provider CodexAuth.
Context `{!Runtime}.

(** The record [loadAuthJson] returns, when it returns one: the cached
    one, else the one in the file. *)
Definition currentAuth (st : State) : option AuthDotJson :=
  match cachedAuth st with
  | Some auth => Some auth
  | None =>
      match file st with
      | stored auth => Some auth
      | _ => None
      end
  end.

(** The identity token is past its expiry, less one hour, or tells no
    expiry. *)
Definition expired (info : IdTokenInfo) (now : Z) : Prop :=
  match exp info with
  | Some e => e = 0%Z \/ (e * 1000 - now < 3600000)%Z
  | None => True
  end.

#[local] Instance expired_dec (info : IdTokenInfo) (now : Z) :
  Decision (expired info now).
Proof. unfold expired. destruct (exp info); apply _. Defined.

(** The refresh token a call at time [now] must exchange: the record has
    an identity token that decodes and is expired, and a refresh token. *)
Definition refreshDue (st : State) (now : Z) : option string :=
  match currentAuth st ≫= tokens with
  | Some t =>
      match decodeIdToken (tokens_id_token t) with
      | inr info =>
          if decide (tokens_id_token t <> "" /\ tokens_refresh_token t <> "" /\
                     expired info now)
          then Some (tokens_refresh_token t)
          else None
      | inl _ => None
      end
  | None => None
  end.

(** The cached claims are those of the cached token. *)
Definition CacheOk (st : State) : Prop :=
  forall (t : string) (info : IdTokenInfo),
    cachedTokenInfo st = Some (t, info) -> decodeIdToken t = inr info.

Lemma isTokenExpired_expired (info : IdTokenInfo) (now : Z) :
  isTokenExpired info now = true <-> expired info now.
Proof.
  unfold isTokenExpired, expired. destruct (exp info) as [e|]; [|done].
  destruct (Z.eqb_spec e 0) as [->|He]; [by split; [left|]|].
  rewrite Z.ltb_lt. split; [by right|]. by intros [?|?].
Qed.

Lemma loadAuthJson_current (st : State) (auth : AuthDotJson) :
  currentAuth st = Some auth ->
  exists st' : State,
    loadAuthJson st = (inr auth, st') /\
    cachedAuth st' = Some auth /\
    cachedTokenInfo st' = cachedTokenInfo st /\
    file st' = file st /\ writes st' = writes st /\ posted st' = posted st /\
    reads st' = match cachedAuth st with
                | Some _ => reads st
                | None => S (reads st)
                end.
Proof.
  unfold currentAuth, loadAuthJson. destruct (cachedAuth st) as [a|] eqn:Hc.
  - intros [= ->]. exists st. by rewrite Hc.
  - destruct (file st) as [|e|a]; try done. intros [= ->].
    eexists. split; [reflexivity|]. done.
Qed.

(** What a call reports when there is no record to load: the file is
    missing, or it cannot be read or parsed. *)
Definition loadFailure (st : State) : string :=
  match file st with
  | unreadable error => "Failed to read auth.json: " +:+ error
  | _ =>
      "Authentication not found. Please run 'codex login' first." +:+
      LF +:+ "Expected auth file at: " +:+ authPath
  end.

Lemma loadAuthJson_none (st : State) :
  currentAuth st = None ->
  exists st' : State,
    loadAuthJson st = (inl (loadFailure st), st') /\
    cachedAuth st' = None /\
    cachedTokenInfo st' = cachedTokenInfo st /\
    file st' = file st /\ writes st' = writes st /\ posted st' = posted st /\
    reads st' = S (reads st).
Proof.
  unfold currentAuth, loadAuthJson, loadFailure.
  destruct (cachedAuth st) as [a|]; [done|].
  destruct (file st) as [|e|a]; try done; intros _; eexists;
    (split; [reflexivity|done]).
Qed.

(** With consistent caches [parseIdToken] answers what decoding
    answers. *)
Lemma parseIdToken_decode (idToken : string) (st : State) :
  CacheOk st ->
  exists st' : State,
    parseIdToken idToken st
    = (match decodeIdToken idToken with
       | inr info => inr info
       | inl e => inl ("Failed to parse ID token: " +:+ e)
       end, st') /\
    CacheOk st' /\
    cachedAuth st' = cachedAuth st /\
    file st' = file st /\ writes st' = writes st /\ posted st' = posted st /\
    reads st' = reads st.
Proof.
  intros Hok. unfold parseIdToken.
  destruct (cachedTokenInfo st) as [[cached info]|] eqn:Hc.
  - destruct (String.eqb_spec cached idToken) as [->|Hne].
    + exists st. rewrite (Hok _ _ Hc). done.
    + destruct (decodeIdToken idToken) as [e|info'] eqn:Hd.
      * exists st. done.
      * eexists. split; [reflexivity|]. split; [|done].
        intros t i [= <- <-]. exact Hd.
  - destruct (decodeIdToken idToken) as [e|info'] eqn:Hd.
    + exists st. done.
    + eexists. split; [reflexivity|]. split; [|done].
      intros t i [= <- <-]. exact Hd.
Qed.

(** The record a granted refresh leaves in the file. *)
Definition renewed (auth : AuthDotJson) (old : Tokens)
    (response : TokenResponse) (today : string) : AuthDotJson :=
  {| tokens :=
       Some {| tokens_id_token := id_token response;
               tokens_access_token := access_token response;
               tokens_refresh_token :=
                 match refresh_token response with
                 | Some rotated => rotated
                 | None => tokens_refresh_token old
                 end;
               tokens_account_id := tokens_account_id old |};
     api_key := api_key auth;
     last_refresh := Some today |}.

Lemma refreshAccessToken_cached (st : State) (auth : AuthDotJson)
    (old : Tokens) (answer : string + TokenResponse) (today : string) :
  cachedAuth st = Some auth ->
  tokens auth = Some old ->
  tokens_refresh_token old <> "" ->
  refreshAccessToken answer today st
  = match answer with
    | inl errorText =>
        (inl ("Token refresh failed: " +:+ errorText),
         {| cachedAuth := cachedAuth st; cachedTokenInfo := cachedTokenInfo st;
            file := file st; reads := reads st; writes := writes st;
            posted := posted st ++ [tokens_refresh_token old] |})
    | inr response =>
        (if decide (access_token response = "")
         then inl "No access token after refresh"
         else inr (access_token response, renewed auth old response today),
         {| cachedAuth := Some (renewed auth old response today);
            cachedTokenInfo := None;
            file := stored (renewed auth old response today);
            reads := S (reads st);
            writes := writes st ++ [renewed auth old response today];
            posted := posted st ++ [tokens_refresh_token old] |})
    end.
Proof.
  intros Hcached Htokens Hrefresh.
  unfold refreshAccessToken, doRefreshToken, bind.
  assert (Hload : loadAuthJson st = (inr auth, st))
    by (unfold loadAuthJson; by rewrite Hcached).
  rewrite Hload, Htokens, truthy_nonempty.
  destruct (decide (tokens_refresh_token old = "")) as [|_]; [done|].
  unfold exchangeRefreshTokenRaw. destruct answer as [errorText|response].
  - reflexivity.
  - unfold writeFile, clearCache, ret, throw, loadAuthJson.
    cbn [cachedAuth file reads writes posted cachedTokenInfo].
    unfold accessTokenOf, truthy_value.
    cbn [refreshedAuth tokens mbind option_bind tokens_access_token].
    rewrite truthy_nonempty.
    by destruct (decide (access_token response = "")).
Qed.

(** The credential a record offers as it stands: its access token, else
    its API key. *)
Definition storedCredential (auth : AuthDotJson) : string + string :=
  match tokens auth with
  | Some t =>
      if decide (tokens_access_token t = "") then
        match api_key auth with
        | Some key =>
            if decide (key = "")
            then inl "No access token or API key found in auth.json"
            else inr key
        | None => inl "No access token or API key found in auth.json"
        end
      else inr (tokens_access_token t)
  | None =>
      match api_key auth with
      | Some key =>
          if decide (key = "")
          then inl "No access token or API key found in auth.json"
          else inr key
      | None => inl "No access token or API key found in auth.json"
      end
  end.

Lemma lastResort_storedCredential (auth : AuthDotJson) (st : State) :
  lastResort auth st = (storedCredential auth, st).
Proof.
  unfold lastResort, storedCredential, accessTokenOf, truthy_value.
  destruct (tokens auth) as [t|]; cbn [mbind option_bind].
  - rewrite truthy_nonempty.
    destruct (decide (tokens_access_token t = "")); [|done].
    destruct (api_key auth) as [key|]; [|done].
    rewrite truthy_nonempty. by destruct (decide (key = "")).
  - destruct (api_key auth) as [key|]; [|done].
    rewrite truthy_nonempty. by destruct (decide (key = "")).
Qed.

(** What [getAccessToken] answers while no refresh is due. *)
Definition withoutRefresh (auth : AuthDotJson) : string + string :=
  match tokens auth with
  | Some t =>
      if decide (tokens_id_token t = "") then storedCredential auth
      else
        match decodeIdToken (tokens_id_token t) with
        | inl e => inl ("Failed to parse ID token: " +:+ e)
        | inr _ => storedCredential auth
        end
  | None => storedCredential auth
  end.

(** The file, the log of writes and the log of exchanges are the same in
    both states. *)
Definition untouched (st st' : State) : Prop :=
  file st' = file st /\ writes st' = writes st /\ posted st' = posted st.

Lemma getAccessToken_cases (now : Z) (answer : string + TokenResponse)
    (today : string) (st : State) :
  CacheOk st ->
  exists (r : string + string) (st' : State),
    getAccessToken now answer today st = (r, st') /\
    CacheOk st' /\
    match currentAuth st with
    | None => r = inl (loadFailure st) /\ cachedAuth st' = None /\
              untouched st st' /\ reads st' = S (reads st)
    | Some auth =>
        match refreshDue st now with
        | None =>
            r = withoutRefresh auth /\ cachedAuth st' = Some auth /\
            untouched st st' /\
            reads st' = match cachedAuth st with
                        | Some _ => reads st
                        | None => S (reads st)
                        end
        | Some rt =>
            exists old : Tokens,
              tokens auth = Some old /\ rt = tokens_refresh_token old /\
              posted st' = posted st ++ [rt] /\
              match answer with
              | inl errorText =>
                  r = inl ("Token refresh failed: " +:+ errorText) /\
                  cachedAuth st' = Some auth /\
                  file st' = file st /\ writes st' = writes st
              | inr response =>
                  r = (if decide (access_token response = "")
                       then inl "No access token after refresh"
                       else inr (access_token response)) /\
                  cachedAuth st' = Some (renewed auth old response today) /\
                  cachedTokenInfo st' = None /\
                  file st' = stored (renewed auth old response today) /\
                  writes st' = writes st ++ [renewed auth old response today]
              end
        end
    end.
Proof.
  intros Hok. unfold getAccessToken, bind, refreshDue.
  destruct (currentAuth st) as [auth|] eqn:Hauth.
  - destruct (loadAuthJson_current st auth Hauth)
      as (st1 & -> & Hc1 & Hi1 & Hf1 & Hw1 & Hp1 & Hr1).
    assert (Hok1 : CacheOk st1) by (unfold CacheOk; by rewrite Hi1).
    cbn [mbind option_bind].
    destruct (tokens auth) as [t|] eqn:Ht.
    + rewrite truthy_nonempty. unfold withoutRefresh. rewrite Ht.
      destruct (decide (tokens_id_token t = "")) as [Hid|Hid].
      * rewrite lastResort_storedCredential. eexists _, _.
        split; [reflexivity|]. split; [exact Hok1|].
        destruct (decodeIdToken (tokens_id_token t)); [done|].
        rewrite decide_False by naive_solver. done.
      * destruct (parseIdToken_decode (tokens_id_token t) st1 Hok1)
          as (st2 & -> & Hok2 & Hc2 & Hf2 & Hw2 & Hp2 & Hr2).
        destruct (decodeIdToken (tokens_id_token t)) as [e|info] eqn:Hd.
        { eexists _, _. split; [reflexivity|]. split; [exact Hok2|].
          unfold untouched. by rewrite Hc2, Hf2, Hw2, Hp2, Hr2. }
        rewrite truthy_nonempty.
        destruct (decide (tokens_refresh_token t = "")) as [Hrt|Hrt].
        { rewrite andb_false_r, lastResort_storedCredential.
          eexists _, _. split; [reflexivity|]. split; [exact Hok2|].
          rewrite decide_False by naive_solver.
          unfold untouched. by rewrite Hc2, Hf2, Hw2, Hp2, Hr2. }
        destruct (isTokenExpired info now) eqn:Hexp.
        2:{ cbn [andb]. rewrite lastResort_storedCredential.
            eexists _, _. split; [reflexivity|]. split; [exact Hok2|].
            rewrite decide_False.
            - unfold untouched. by rewrite Hc2, Hf2, Hw2, Hp2, Hr2.
            - intros (_ & _ & Hx). apply isTokenExpired_expired in Hx.
              congruence. }
        rewrite decide_True
          by (split; [done|split; [done|by apply isTokenExpired_expired]]).
        cbn [andb].
        rewrite (refreshAccessToken_cached st2 auth t answer today)
          by (congruence || done).
        destruct answer as [errorText|response].
        { eexists _, _. split; [reflexivity|]. split; [exact Hok2|].
          exists t. cbn [posted cachedAuth file writes].
          by rewrite Hc2, Hf2, Hw2, Hp2, Hc1, Hf1, Hw1, Hp1. }
        destruct (decide (access_token response = "")) as [Hat|Hat].
        { eexists _, _. split; [reflexivity|]. split; [done|].
          exists t. cbn [posted cachedAuth file writes cachedTokenInfo].
          by rewrite Hw2, Hp2, Hw1, Hp1. }
        unfold loadAuthJson. cbn [cachedAuth].
        unfold accessTokenOf, truthy_value.
        cbn [renewed tokens mbind option_bind tokens_access_token].
        rewrite truthy_nonempty, decide_False by done.
        eexists _, _. split; [reflexivity|]. split; [done|].
        exists t. cbn [posted cachedAuth file writes cachedTokenInfo].
        by rewrite Hw2, Hp2, Hw1, Hp1.
    + rewrite lastResort_storedCredential. unfold withoutRefresh. rewrite Ht.
      eexists _, _. split; [reflexivity|]. split; [exact Hok1|]. done.
  - destruct (loadAuthJson_none st Hauth)
      as (st1 & -> & Hc1 & Hi1 & Hf1 & Hw1 & Hp1 & Hr1).
    eexists _, _. split; [reflexivity|].
    split; [unfold CacheOk; by rewrite Hi1|]. done.
Qed.

(** The account a record names: the stored account id, else the one
    among the claims of its identity token. *)
Definition accountOf (auth : AuthDotJson) : string + string :=
  match tokens auth with
  | Some t =>
      match tokens_account_id t with
      | Some account =>
          if decide (account = "") then
            if decide (tokens_id_token t = "")
            then inl "No account ID found in auth.json"
            else
              match decodeIdToken (tokens_id_token t) with
              | inl e => inl ("Failed to parse ID token: " +:+ e)
              | inr info =>
                  match account_id info with
                  | Some claimed =>
                      if decide (claimed = "")
                      then inl "No account ID found in auth.json"
                      else inr claimed
                  | None => inl "No account ID found in auth.json"
                  end
              end
          else inr account
      | None =>
          if decide (tokens_id_token t = "")
          then inl "No account ID found in auth.json"
          else
            match decodeIdToken (tokens_id_token t) with
            | inl e => inl ("Failed to parse ID token: " +:+ e)
            | inr info =>
                match account_id info with
                | Some claimed =>
                    if decide (claimed = "")
                    then inl "No account ID found in auth.json"
                    else inr claimed
                | None => inl "No account ID found in auth.json"
                end
            end
      end
  | None => inl "No account ID found in auth.json"
  end.

Lemma getAccountId_cached (st : State) (auth : AuthDotJson) :
  CacheOk st ->
  cachedAuth st = Some auth ->
  exists st' : State,
    getAccountId st = (accountOf auth, st') /\
    CacheOk st' /\ cachedAuth st' = Some auth /\
    untouched st st' /\ reads st' = reads st.
Proof.
  intros Hok Hcached. unfold getAccountId, bind, accountOf.
  assert (Hload : loadAuthJson st = (inr auth, st))
    by (unfold loadAuthJson; by rewrite Hcached).
  rewrite Hload. unfold truthy_value.
  assert (Hclaim : forall t : Tokens,
    exists st' : State,
      match truthy_value (Some (tokens_id_token t)) with
      | Some idToken =>
          bind (parseIdToken idToken)
            (fun tokenInfo =>
               match truthy_value (account_id tokenInfo) with
               | Some account => ret account
               | None => throw "No account ID found in auth.json"
               end)
      | None => throw "No account ID found in auth.json"
      end st
      = (if decide (tokens_id_token t = "")
         then inl "No account ID found in auth.json"
         else
           match decodeIdToken (tokens_id_token t) with
           | inl e => inl ("Failed to parse ID token: " +:+ e)
           | inr info =>
               match account_id info with
               | Some claimed =>
                   if decide (claimed = "")
                   then inl "No account ID found in auth.json"
                   else inr claimed
               | None => inl "No account ID found in auth.json"
               end
           end, st') /\
      CacheOk st' /\ cachedAuth st' = Some auth /\
      untouched st st' /\ reads st' = reads st).
  { intros t. unfold truthy_value, bind. rewrite truthy_nonempty.
    destruct (decide (tokens_id_token t = "")); [by exists st|].
    destruct (parseIdToken_decode (tokens_id_token t) st Hok)
      as (st2 & -> & Hok2 & Hc2 & Hf2 & Hw2 & Hp2 & Hr2).
    exists st2. split; [|unfold untouched; by rewrite Hc2].
    destruct (decodeIdToken (tokens_id_token t)) as [e|info]; [done|].
    destruct (account_id info) as [claimed|]; [|done].
    rewrite truthy_nonempty. by destruct (decide (claimed = "")). }
  destruct (tokens auth) as [t|]; cbn [mbind option_bind]; [|by exists st].
  specialize (Hclaim t). unfold truthy_value in Hclaim.
  destruct (tokens_account_id t) as [account|]; [|exact Hclaim].
  rewrite truthy_nonempty.
  destruct (decide (account = "")); [exact Hclaim|by exists st].
Qed.

Lemma getAccountId_current (st : State) (auth : AuthDotJson) :
  CacheOk st ->
  currentAuth st = Some auth ->
  exists st' : State,
    getAccountId st = (accountOf auth, st') /\
    CacheOk st' /\ cachedAuth st' = Some auth /\
    untouched st st' /\
    reads st' = match cachedAuth st with
                | Some _ => reads st
                | None => S (reads st)
                end.
Proof.
  intros Hok Hauth.
  destruct (loadAuthJson_current st auth Hauth)
    as (st1 & Hload & Hc1 & Hi1 & Hf1 & Hw1 & Hp1 & Hr1).
  assert (Hok1 : CacheOk st1) by (unfold CacheOk; by rewrite Hi1).
  destruct (getAccountId_cached st1 auth Hok1 Hc1)
    as (st2 & Hget & Hok2 & Hc2 & (Hf2 & Hw2 & Hp2) & Hr2).
  exists st2. split.
  - unfold getAccountId, bind in Hget |- *. rewrite Hload.
    assert (Hload1 : loadAuthJson st1 = (inr auth, st1))
      by (unfold loadAuthJson; by rewrite Hc1).
    by rewrite Hload1 in Hget.
  - unfold untouched. by rewrite Hf2, Hw2, Hp2, Hr2.
Qed.

(** The headers of a record as it stands. *)
Definition headersOf (auth : AuthDotJson) : string + gmap string string :=
  match withoutRefresh auth with
  | inl e => inl e
  | inr token =>
      match accountOf auth with
      | inl e => inl e
      | inr account =>
          inr (<["Content-Type" := "application/json"]>
               (<["chatgpt-account-id" := account]>
                (<["Authorization" := "Bearer " +:+ token]> ∅)))
      end
  end.

Lemma currentAuth_cached (st : State) (auth : AuthDotJson) :
  cachedAuth st = Some auth -> currentAuth st = Some auth.
Proof. unfold currentAuth. by intros ->. Qed.

Lemma getHeaders_without_refresh (now : Z) (answer : string + TokenResponse)
    (today : string) (st : State) :
  CacheOk st ->
  refreshDue st now = None ->
  exists st' : State,
    getHeaders now answer today st
    = (match currentAuth st with
       | Some auth => headersOf auth
       | None => inl (loadFailure st)
       end, st') /\
    CacheOk st' /\
    cachedAuth st' = currentAuth st /\
    untouched st st' /\
    reads st' = match cachedAuth st with
                | Some _ => reads st
                | None => S (reads st)
                end.
Proof.
  intros Hok Hdue. unfold getHeaders, bind.
  destruct (getAccessToken_cases now answer today st Hok)
    as (r & st1 & -> & Hok1 & Hcases).
  rewrite Hdue in Hcases.
  destruct (currentAuth st) as [auth|] eqn:Hauth.
  - destruct Hcases as (-> & Hc1 & (Hf1 & Hw1 & Hp1) & Hr1).
    unfold headersOf. destruct (withoutRefresh auth) as [e|token].
    { by exists st1. }
    destruct (getAccountId_cached st1 auth Hok1 Hc1)
      as (st2 & -> & Hok2 & Hc2 & (Hf2 & Hw2 & Hp2) & Hr2).
    exists st2. split; [by destruct (accountOf auth)|].
    unfold untouched. by rewrite Hf2, Hw2, Hp2, Hr2.
  - destruct Hcases as (-> & Hc1 & Hun & Hr1). exists st1.
    split; [done|]. split; [done|]. split; [done|]. split; [done|].
    unfold currentAuth in Hauth. by destruct (cachedAuth st).
Qed.


(** X17.  A granted refresh is written to the file before the new access token
    is used: the record keeps its account id and its API key, takes the
    new identity and access tokens, the rotated refresh token when the
    endpoint sent one and the old one otherwise, and the time of the
    refresh.  The call returns the new access token; an empty one is an
    error, raised after the file has been rewritten. *)
Theorem granted_refresh_is_persisted (now : Z) (response : TokenResponse)
    (today : string) (st : State) (auth : AuthDotJson) (old : Tokens) :
  CacheOk st ->
  currentAuth st = Some auth ->
  tokens auth = Some old ->
  is_Some (refreshDue st now) ->
  let result := getAccessToken now (inr response) today st in
  file (snd result) = stored (renewed auth old response today) /\
  writes (snd result) = writes st ++ [renewed auth old response today] /\
  cachedAuth (snd result) = Some (renewed auth old response today) /\
  fst result
    = (if decide (access_token response = "")
       then inl "No access token after refresh"
       else inr (access_token response)).
Proof.
  intros Hok Hauth Hold [rt Hdue] result. unfold result.
  destruct (getAccessToken_cases now (inr response) today st Hok)
    as (r & st1 & -> & Hok1 & Hcases). cbn [fst snd].
  rewrite Hauth, Hdue in Hcases.
  destruct Hcases as (old' & Hold' & _ & _ & -> & Hc & _ & Hf & Hw).
  assert (old' = old) as -> by congruence. done.
Qed.

(** X18.  While no refresh is due, asking for the headers twice gives the same
    answer twice, success or error, without any request to the token
    endpoint and without writing the file; the file is read once at most
    by the first call, and not at all by the second when the first found
    a record. *)
Theorem getHeaders_twice (now now' : Z) (answer answer' : string + TokenResponse)
    (today today' : string) (st : State) :
  CacheOk st ->
  refreshDue st now = None ->
  refreshDue st now' = None ->
  let first := getHeaders now answer today st in
  let second := getHeaders now' answer' today' (snd first) in
  fst second = fst first /\
  untouched st (snd second) /\
  reads (snd first) <= S (reads st) /\
  (is_Some (currentAuth st) -> reads (snd second) = reads (snd first)).
Proof.
  intros Hok Hdue Hdue' first second. unfold second, first.
  destruct (getHeaders_without_refresh now answer today st Hok Hdue)
    as (st1 & -> & Hok1 & Hc1 & (Hf1 & Hw1 & Hp1) & Hr1). cbn [fst snd].
  assert (Hsame : currentAuth st1 = currentAuth st).
  { unfold currentAuth at 1. rewrite Hc1, Hf1.
    unfold currentAuth. by destruct (cachedAuth st), (file st). }
  assert (Hdue1 : refreshDue st1 now' = None).
  { unfold refreshDue in Hdue' |- *. by rewrite Hsame. }
  destruct (getHeaders_without_refresh now' answer' today' st1 Hok1 Hdue1)
    as (st2 & -> & Hok2 & Hc2 & (Hf2 & Hw2 & Hp2) & Hr2). cbn [fst snd].
  rewrite Hsame. unfold loadFailure, untouched.
  rewrite Hf1, Hf2, Hw2, Hp2, Hf1, Hw1, Hp1.
  split; [done|]. split; [done|]. split.
  - rewrite Hr1. destruct (cachedAuth st); lia.
  - intros [auth Hauth]. rewrite Hr2, Hc1, Hauth. done.
Qed.

(** X19.  A record that holds an API key and no tokens yields an access token,
    the key, but never headers: there is no account id to send. *)
Theorem api_key_alone_gives_no_headers (now : Z)
    (answer : string + TokenResponse) (today : string) (st : State)
    (auth : AuthDotJson) (key : string) :
  CacheOk st ->
  currentAuth st = Some auth ->
  tokens auth = None ->
  api_key auth = Some key ->
  key <> "" ->
  fst (getAccessToken now answer today st) = inr key /\
  fst (getHeaders now answer today st)
    = inl "No account ID found in auth.json" /\
  untouched st (snd (getHeaders now answer today st)).
Proof.
  intros Hok Hauth Htokens Hkey Hne.
  assert (Hdue : refreshDue st now = None)
    by (unfold refreshDue; by rewrite Hauth; cbn; rewrite Htokens).
  destruct (getAccessToken_cases now answer today st Hok)
    as (r & st1 & -> & _ & Hcases).
  rewrite Hauth, Hdue in Hcases. destruct Hcases as (-> & _).
  destruct (getHeaders_without_refresh now answer today st Hok Hdue)
    as (st2 & -> & _ & _ & Hun & _).
  rewrite Hauth. cbn [fst snd].
  unfold headersOf, withoutRefresh, storedCredential, accountOf.
  rewrite Htokens, Hkey, decide_False by done. done.
Qed.

(** *** Identity tokens *)

(** The number of dots of a string. *)
Fixpoint dots (s : string) : nat :=
  match s with
  | EmptyString => 0
  | String c rest => (if Ascii.eqb c "." then 1 else 0) + dots rest
  end.

Lemma split_dots_length (s : string) :
  forall current : string, length (split_dots s current) = S (dots s).
Proof.
  induction s as [|c s IH]; intros current; [reflexivity|].
  cbn [split_dots dots]. destruct (Ascii.eqb c "."); cbn; by rewrite IH.
Qed.

Lemma append_cons (c : ascii) (a b : string) :
  String c a +:+ b = String c (a +:+ b).
Proof. reflexivity. Qed.

Lemma append_snoc (a b : string) (c : ascii) :
  (a +:+ String c EmptyString) +:+ b = a +:+ String c b.
Proof. induction a as [|x a IH]; [reflexivity|]. by rewrite !append_cons, IH. Qed.

Lemma split_dots_dotless (a rest : string) :
  dots a = 0 ->
  forall current : string,
    split_dots (a +:+ rest) current = split_dots rest (current +:+ a).
Proof.
  induction a as [|c a IH]; intros Hdots current.
  - by rewrite append_nil_r.
  - cbn [dots] in Hdots. rewrite append_cons. cbn [split_dots].
    destruct (Ascii.eqb c "."); [done|]. rewrite IH by done.
    by rewrite append_snoc.
Qed.

(** A token of three dotless parts splits into them. *)
Lemma split_dots_three (header payload signature : string) :
  dots header = 0 -> dots payload = 0 -> dots signature = 0 ->
  split_dots (header +:+ "." +:+ payload +:+ "." +:+ signature) ""
  = [header; payload; signature].
Proof.
  intros Hh Hp Hs.
  rewrite (split_dots_dotless header _ Hh).
  change ("." +:+ payload +:+ "." +:+ signature)
    with (String "." (payload +:+ "." +:+ signature)).
  cbn [split_dots Ascii.eqb Bool.eqb]. f_equal.
  rewrite (split_dots_dotless payload _ Hp).
  change ("." +:+ signature) with (String "." signature).
  cbn [split_dots Ascii.eqb Bool.eqb]. f_equal.
  rewrite <- (append_nil_r signature) at 1.
  by rewrite (split_dots_dotless signature _ Hs).
Qed.

(** X20.  A token that does not consist of three parts separated by dots is
    refused before anything is decoded, and is never cached. *)
Theorem parseIdToken_needs_three_parts (idToken : string) (st : State) :
  CacheOk st ->
  dots idToken <> 2 ->
  parseIdToken idToken st
  = (inl "Failed to parse ID token: Error: Invalid JWT token format", st).
Proof.
  intros Hok Hdots.
  assert (Hdecode :
    decodeIdToken idToken = inl "Error: Invalid JWT token format").
  { unfold decodeIdToken. pose proof (split_dots_length idToken "") as Hlen.
    destruct (split_dots idToken "") as [|a [|b [|c [|d rest]]]]; try done.
    cbn in Hlen. lia. }
  destruct (parseIdToken_decode idToken st Hok) as (st' & Hparse & _).
  rewrite Hdecode in Hparse. rewrite Hparse. f_equal.
  unfold parseIdToken in Hparse. rewrite Hdecode in Hparse.
  destruct (cachedTokenInfo st) as [[cached info]|] eqn:Hc.
  - destruct (String.eqb_spec cached idToken) as [->|_]; [|congruence].
    specialize (Hok _ _ Hc). congruence.
  - congruence.
Qed.

(** X21.  The account id sent is the one stored in the record, whatever its
    identity token holds.  When none is stored it is read from the claims
    of the identity token: the claim [https://labs.openai.com/account_id]
    when the token has that claim, and the claim [account_id] only when it
    has not; an empty value is no account id. *)
Theorem account_id_resolution (st : State) (auth : AuthDotJson) (t : Tokens) :
  CacheOk st ->
  currentAuth st = Some auth ->
  tokens auth = Some t ->
  (forall account : string,
      tokens_account_id t = Some account -> account <> "" ->
      fst (getAccountId st) = inr account) /\
  (forall (header payload signature decoded : string) (claims : Claims),
      tokens_account_id t = None \/ tokens_account_id t = Some "" ->
      tokens_id_token t = header +:+ "." +:+ payload +:+ "." +:+ signature ->
      dots header = 0 -> dots payload = 0 -> dots signature = 0 ->
      decodeBase64 (padded payload) = inr decoded ->
      parseClaims decoded = inr claims ->
      fst (getAccountId st)
      = match claim_labs_account_id claims with
        | Some account =>
            if decide (account = "")
            then inl "No account ID found in auth.json"
            else inr account
        | None =>
            match claim_account_id claims with
            | Some account =>
                if decide (account = "")
                then inl "No account ID found in auth.json"
                else inr account
            | None => inl "No account ID found in auth.json"
            end
        end).
Proof.
  intros Hok Hauth Ht.
  destruct (getAccountId_current st auth Hok Hauth) as (st' & -> & _).
  cbn [fst]. unfold accountOf. rewrite Ht. split.
  - intros account -> Hne. by rewrite decide_False.
  - intros header payload signature decoded claims Hnone Hid Hh Hp Hs Hd Hc.
    assert (Hsome : tokens_id_token t <> "").
    { rewrite Hid. intros Hempty.
      apply (f_equal (fun s => split_dots s "")) in Hempty.
      rewrite split_dots_three in Hempty by done. done. }
    assert (Hdecode :
      decodeIdToken (tokens_id_token t)
      = inr {| email := claim_email claims; token_name := claim_name claims;
               exp := claim_exp claims; iat := claim_iat claims;
               account_id :=
                 nullish (claim_labs_account_id claims)
                         (claim_account_id claims) |}).
    { unfold decodeIdToken, decodeBase64UrlToUtf8.
      by rewrite Hid, split_dots_three, Hd, Hc. }
    rewrite Hdecode. cbn [account_id].
    destruct Hnone as [->| ->]; rewrite ?decide_True by done;
      rewrite decide_False by done;
      by destruct (claim_labs_account_id claims).
Qed.

(** *** decodeBase64UrlToUtf8 *)

Lemma replaceAll_length (value : string) :
  String.length (replaceAll value) = String.length value.
Proof. induction value as [|c value IH]; [done|]. cbn. by rewrite IH. Qed.

Lemma repeat_string_length (n : nat) :
  String.length (repeat_string "=" n) = n.
Proof.
  induction n as [|n IH]; [done|]. cbn [repeat_string].
  change ("=" +:+ repeat_string "=" n) with (String "=" (repeat_string "=" n)).
  cbn [String.length]. by rewrite IH.
Qed.

Lemma append_length (a b : string) :
  String.length (a +:+ b) = String.length a + String.length b.
Proof.
  induction a as [|c a IH]; [done|]. rewrite append_cons.
  cbn [String.length]. by rewrite IH.
Qed.

(** The characters of a string. *)
Fixpoint chars (s : string) : list ascii :=
  match s with
  | EmptyString => []
  | String c rest => c :: chars rest
  end.

Lemma chars_append (a b : string) : chars (a +:+ b) = chars a ++ chars b.
Proof.
  induction a as [|c a IH]; [done|]. rewrite append_cons.
  cbn [chars app]. by rewrite IH.
Qed.

Lemma replaceAll_chars (value : string) :
  chars (replaceAll value)
  = map (fun c : ascii =>
           if decide (c = "-"%char) then "+"%char
           else if decide (c = "_"%char) then "/"%char
           else c) (chars value).
Proof.
  induction value as [|c value IH]; [done|]. cbn [replaceAll chars map].
  f_equal; [|exact IH]. unfold replaceChar.
  destruct (Ascii.eqb_spec c "-") as [->|H1]; [done|].
  rewrite decide_False by done.
  destruct (Ascii.eqb_spec c "_") as [->|H2]; [done|].
  by rewrite decide_False.
Qed.

(** X22.  What is handed to the base64 decoder is in the standard alphabet and
    padded: its length is a multiple of four, at most three [=] are
    added, no [-] and no [_] is left, and the characters are those of the
    value with [-] replaced by [+] and [_] by [/]. *)
Theorem padded_is_base64 (value : string) :
  String.length (padded value) mod 4 = 0 /\
  (exists n : nat,
      n < 4 /\
      chars (padded value)
      = map (fun c : ascii =>
               if decide (c = "-"%char) then "+"%char
               else if decide (c = "_"%char) then "/"%char
               else c) (chars value) ++ replicate n "="%char) /\
  (forall c : ascii,
      In c (chars (padded value)) -> c <> "-"%char /\ c <> "_"%char).
Proof.
  unfold padded. cbv zeta.
  set (n := (4 - String.length (replaceAll value) mod 4) mod 4).
  assert (Hn : n < 4) by (apply Nat.mod_upper_bound; lia).
  pose proof (replaceAll_chars value) as Hchars.
  assert (Hpad : chars (repeat_string "=" n) = replicate n "="%char).
  { clear Hn. induction n as [|k IH]; [done|]. cbn [repeat_string].
    change ("=" +:+ repeat_string "=" k)
      with (String "=" (repeat_string "=" k)).
    cbn. by rewrite IH. }
  split; [|split].
  - rewrite append_length, repeat_string_length. unfold n.
    pose proof (Nat.mod_upper_bound (String.length (replaceAll value)) 4
                  ltac:(lia)) as Hr.
    rewrite (Nat.div_mod_eq (String.length (replaceAll value)) 4) at 1.
    set (q := String.length (replaceAll value) / 4) in *.
    set (r := String.length (replaceAll value) mod 4) in *.
    assert (r = 0 \/ r = 1 \/ r = 2 \/ r = 3) as [-> | [-> | [-> | ->]]]
      by lia; cbn [Nat.sub].
    + replace (4 * q + 0 + 4 mod 4) with (q * 4) by (cbn; lia).
      apply Nat.Div0.mod_mul.
    + replace (4 * q + 1 + 3 mod 4) with ((q + 1) * 4) by (cbn; lia).
      apply Nat.Div0.mod_mul.
    + replace (4 * q + 2 + 2 mod 4) with ((q + 1) * 4) by (cbn; lia).
      apply Nat.Div0.mod_mul.
    + replace (4 * q + 3 + 1 mod 4) with ((q + 1) * 4) by (cbn; lia).
      apply Nat.Div0.mod_mul.
  - exists n. split; [exact Hn|]. by rewrite chars_append, Hchars, Hpad.
  - intros c. rewrite chars_append, Hchars, Hpad, in_app_iff, in_map_iff.
    intros [(x & <- & _)|Hin].
    + destruct (decide (x = "-"%char)); [done|].
      destruct (decide (x = "_"%char)); done.
    + assert (Heq : forall k : nat,
                In c (replicate k "="%char) -> c = "="%char).
      { induction k as [|k IH]; [done|]. by intros [<-|Hk]; [|apply IH]. }
      by rewrite (Heq n Hin).
Qed.

(** *** Expiry *)

(** X23.  The two expiry checks of the package differ.  For a token that tells
    no expiry, the file-backed credentials count it as expired, while
    the session of a refresh token counts as fresh for ever.  With an
    expiry they agree, except when exactly one hour is left: the file
    keeps the token, the session is refreshed. *)
Theorem expiry_checks_differ (info : IdTokenInfo) (s : Session) (now : Z) :
  expiresAt s = (fun e => e * 1000)%Z <$> exp info ->
  (exp info = None ->
   isTokenExpired info now = true /\ sessionIsFresh (Some s) now = true) /\
  (forall e : Z,
      exp info = Some e -> e <> 0%Z ->
      (e * 1000 - now <> 3600000)%Z ->
      isTokenExpired info now = negb (sessionIsFresh (Some s) now)) /\
  (forall e : Z,
      exp info = Some e -> e <> 0%Z ->
      (e * 1000 - now = 3600000)%Z ->
      isTokenExpired info now = false /\ sessionIsFresh (Some s) now = false).
Proof.
  intros Hs. unfold isTokenExpired, sessionIsFresh, oneHour. rewrite Hs.
  split; [by intros ->|]. split.
  - intros e -> He Hne. cbn.
    destruct (Z.eqb_spec e 0) as [|_]; [done|].
    destruct (Z.ltb_spec (e * 1000 - now) (60 * 60 * 1000)),
      (Z.ltb_spec (60 * 60 * 1000) (e * 1000 - now)); cbn; lia.
  - intros e -> He Heq. cbn.
    destruct (Z.eqb_spec e 0) as [|_]; [done|].
    destruct (Z.ltb_spec (e * 1000 - now) (60 * 60 * 1000)),
      (Z.ltb_spec (60 * 60 * 1000) (e * 1000 - now)); cbn; lia.
Qed.

End CodexAuthProperties.

(** ** The session of a refresh token *)

Section ProviderSessions.

Import JS Provider.

(** X13.  [getHeaders] consults the credential source of its mode and no
    other: with an explicit key nothing at all, in refresh-token mode the
    session, in environment-key mode the environment, and otherwise the
    auth file. *)
Theorem getHeaders_by_mode (options : Settings) (w w' : Awaited) :
  match authMode options with
  | explicit_key => True
  | refresh_token_mode => ensured w = ensured w'
  | environment_key => loadApiKey w = loadApiKey w'
  | file_based =>
      getAccessToken w = getAccessToken w' /\ getAccountId w = getAccountId w'
  end ->
  getHeaders options w = getHeaders options w'.
Proof.
  unfold authMode, getHeaders, truthy_value, CodexAuth_getHeaders.
  destruct (truthy (apiKey options)) eqn:Hkey.
  { by destruct (apiKey options). }
  destruct (truthy (refreshToken options)); [by intros ->|].
  destruct (useApiKey options); [by intros ->|]. by intros [-> ->].
Qed.

(** X14.  How an exchange ends.  It succeeds only when the identity token it
    returns decodes and names an account: the session then holds the new
    access token, the rotated refresh token, or the one that was sent when
    the endpoint rotates none, and the expiry of the identity token in
    milliseconds.  In every other case, a refusal, a token that does not
    decode or names no account, the promise is rejected and the session
    stays as it was. *)
Theorem exchange_outcome (p : nat) (a : Answer) (st st' : State)
    (token : string) :
  promises st !! p = Some (pending token) ->
  settle p a st = Some st' ->
  exchangeCalls st' = exchangeCalls st /\
  refreshSessionPromise st' = refreshSessionPromise st /\
  callers st' = callers st /\
  match a with
  | granted response (inr info) =>
      match account_id info with
      | Some account =>
          if decide (account = "") then
            refreshSession st' = refreshSession st /\
            exists reason, promises st' !! p = Some (rejected reason)
          else
            refreshSession st'
            = Some {| accessToken := access_token response;
                      session_refreshToken :=
                        match refresh_token response with
                        | Some rotated => rotated
                        | None => token
                        end;
                      accountId := account;
                      expiresAt :=
                        match exp info with
                        | Some e => Some (e * 1000)%Z
                        | None => None
                        end |} /\
            promises st' !! p = Some fulfilled
      | None =>
          refreshSession st' = refreshSession st /\
          exists reason, promises st' !! p = Some (rejected reason)
      end
  | _ =>
      refreshSession st' = refreshSession st /\
      exists reason, promises st' !! p = Some (rejected reason)
  end.
Proof.
  intros Hp. unfold settle. rewrite Hp.
  assert (Hlt : p < length (promises st)) by (by eapply lookup_lt_Some).
  unfold exchangeRefreshToken.
  destruct a as [errorText|response [failure|info]].
  - intros [= <-]. cbn. repeat split; try done.
    eexists. by apply list_lookup_insert_eq.
  - intros [= <-]. cbn. repeat split; try done.
    eexists. by apply list_lookup_insert_eq.
  - destruct (account_id info) as [account|].
    + rewrite truthy_nonempty. destruct (decide (account = "")).
      * intros [= <-]. cbn. repeat split; try done.
        eexists. by apply list_lookup_insert_eq.
      * intros [= <-]. cbn. repeat split; try done;
          try (by destruct (refresh_token response), (exp info)).
        by apply list_lookup_insert_eq.
    + intros [= <-]. cbn. repeat split; try done.
      eexists. by apply list_lookup_insert_eq.
Qed.

(** X15.  Callers that find a session more than one hour from its expiry, or a
    session whose expiry is not known, return at once: no exchange is
    posted, the slot is left alone and nobody waits, also while a refresh
    is in flight. *)
Theorem fresh_session_needs_no_exchange (options : Settings) (s : Session)
    (nows : list Z) :
  forall st : State,
    refreshSession st = Some s ->
    Forall (fun now : Z =>
              match expiresAt s with
              | Some e => (now + 3600000 < e)%Z
              | None => True
              end) nows ->
    invokeAll options nows st
    = {| refreshSession := refreshSession st;
         refreshSessionPromise := refreshSessionPromise st;
         promises := promises st;
         exchangeCalls := exchangeCalls st;
         callers := callers st ++ replicate (length nows) returned |}.
Proof.
  induction nows as [|now nows IH]; intros st Hs Hfresh.
  - cbn. rewrite app_nil_r. by destruct st.
  - apply Forall_cons in Hfresh as [Hnow Hfresh].
    change (invokeAll options (now :: nows) st)
      with (invokeAll options nows (invoke options now st)).
    assert (Hinvoke :
      invoke options now st
      = {| refreshSession := refreshSession st;
           refreshSessionPromise := refreshSessionPromise st;
           promises := promises st;
           exchangeCalls := exchangeCalls st;
           callers := callers st ++ [returned] |}).
    { unfold invoke, sessionIsFresh, oneHour. rewrite Hs.
      destruct (expiresAt s) as [e|]; [|done].
      destruct (Z.ltb_spec (60 * 60 * 1000) (e - now)); [done|lia]. }
    rewrite Hinvoke, IH; [|by rewrite <- Hs|exact Hfresh].
    cbn [refreshSession refreshSessionPromise promises exchangeCalls callers
         length replicate].
    by rewrite <- app_assoc.
Qed.

End ProviderSessions.

(** * Scenarios of the further properties *)

(** ** A runtime for the examples *)

Module ExampleRuntime.

Import JS CodexAuth.

(** The payloads of the identity tokens of the examples: [{"exp":1}],
    [{"exp":4102444800}] and [{"account_id":"acct-9"}]. *)
Definition expiresAt1 : string :=
  "{" +:+ DQ +:+ "exp" +:+ DQ +:+ ":1}".

Definition expiresIn2100 : string :=
  "{" +:+ DQ +:+ "exp" +:+ DQ +:+ ":4102444800}".

Definition namesAccount : string :=
  "{" +:+ DQ +:+ "account_id" +:+ DQ +:+ ":" +:+
  DQ +:+ "acct-9" +:+ DQ +:+ "}".

Definition noClaims : Claims :=
  {| claim_email := None; claim_name := None; claim_exp := None;
     claim_iat := None; claim_labs_account_id := None;
     claim_account_id := None |}.

(** A base64 decoder that knows these payloads, padded. *)
Definition decode (padded : string) : string + string :=
  if padded =? "eyJleHAiOjF9" then inr expiresAt1
  else if padded =? "eyJleHAiOjQxMDI0NDQ4MDB9" then inr expiresIn2100
  else if padded =? "eyJhY2NvdW50X2lkIjoiYWNjdC05In0=" then inr namesAccount
  else inl "InvalidCharacterError: Invalid character".

Definition parse (text : string) : string + Claims :=
  if text =? expiresAt1 then
    inr {| claim_email := None; claim_name := None; claim_exp := Some 1%Z;
           claim_iat := None; claim_labs_account_id := None;
           claim_account_id := None |}
  else if text =? expiresIn2100 then
    inr {| claim_email := None; claim_name := None;
           claim_exp := Some 4102444800%Z;
           claim_iat := None; claim_labs_account_id := None;
           claim_account_id := None |}
  else if text =? namesAccount then
    inr {| claim_email := None; claim_name := None; claim_exp := None;
           claim_iat := None; claim_labs_account_id := None;
           claim_account_id := Some "acct-9" |}
  else inl "SyntaxError: Unexpected token".

#[export] Instance runtime : Runtime :=
  {| decodeBase64 := decode;
     parseClaims := parse;
     authPath := "/home/dev/.codex/auth.json" |}.

End ExampleRuntime.

Section EncoderScenarios.

Import Encoder.

Lemma convertToolChoice_required :
  convertToolChoice (Some choice_required) = Some (codex_choice "required") /\
  Some choice_required = Some choice_required.
Proof.
  split; [reflexivity|].
  exact (convertToolChoice_injective (Some choice_required)
           (Some choice_required) eq_refl).
Defined.

End EncoderScenarios.

Section StreamScenarios.

Import LanguageModel.
#[local] Existing Instance ExampleHost.host.

(** A frame that does not parse, a function call with two chunks of
    arguments, a text delta and the terminal record. *)
Definition mixedRecords : list Chunk :=
  Malformed :: namedCall ++
  [Data doneRecord; Data (textDelta "Hi"); Data (completedWith usage52)].

Lemma mixed_part_counts :
  exists parts : list StreamPart,
    doStream plainOptions (succeeded mixedRecords) = inr parts /\
    length (List.filter isError parts) = 1 /\
    length (List.filter isFinish parts) = 1 /\
    length (List.filter isToolCallPart parts) = 1.
Proof.
  eexists. split; [reflexivity|].
  exact (stream_part_counts plainOptions (succeeded mixedRecords) _ eq_refl).
Defined.

Lemma mixed_stream_start :
  exists parts errors rest : list StreamPart,
    doStream plainOptions (succeeded mixedRecords) = inr parts /\
    parts = errors ++ rest /\
    Forall (fun part => part = error_part) errors /\
    (rest = [] \/
     exists rest', rest = stream_start (buildWarnings plainOptions) :: rest' /\
                   Forall notStart rest').
Proof.
  eexists.
  destruct (stream_start_at_most_once plainOptions (succeeded mixedRecords)
              _ eq_refl) as (errors & rest & Hparts).
  exists errors, rest. split; [reflexivity|exact Hparts].
Defined.

Lemma mixed_well_bracketed :
  exists parts : list StreamPart,
    doStream plainOptions (succeeded mixedRecords) = inr parts /\
    is_Some (observeAll {| open_text := None; open_reasoning := None |} parts).
Proof.
  eexists. split; [reflexivity|].
  exact (stream_well_bracketed plainOptions (succeeded mixedRecords) _
           exampleHost_uuid_nonempty eq_refl).
Defined.

Lemma hello_text_is_joined :
  exists r : GenerateResult,
    doGenerate "gpt-5" plainOptions (succeeded helloChunks) = inr r /\
    joined (textDeltas helloChunks) = "Hello" /\
    contentText (content r) = "Hello".
Proof.
  eexists. split; [reflexivity|]. split; [reflexivity|].
  exact (proj1 (buffered_text_is_joined_deltas "gpt-5" plainOptions
                  (succeeded helloChunks) _ eq_refl)).
Defined.

Lemma mixed_deltas_add_up :
  exists (parts : list StreamPart) (left_over : gmap string string),
    doStream plainOptions (succeeded mixedRecords) = inr parts /\
    assembleAll {| assembled := ∅; closing := None |} parts
    = Some {| assembled := left_over; closing := None |}.
Proof.
  eexists.
  destruct (streamed_deltas_add_up plainOptions (succeeded mixedRecords)
              _ eq_refl) as [left_over Hassembled].
  exists left_over. split; [reflexivity|exact Hassembled].
Defined.

End StreamScenarios.

Section SessionScenarios.

Import Provider.

(** Two worlds that differ in everything but the session. *)
Definition sessionOnly (key : string + string) : Awaited :=
  {| ensured := inr {| accessToken := "at-1"; session_refreshToken := "rt-1";
                       accountId := "acct-1"; expiresAt := None |};
     loadApiKey := key;
     getAccessToken := key; getAccountId := key |}.

Lemma refresh_mode_reads_the_session_only :
  authMode refreshOptions = refresh_token_mode /\
  getHeaders refreshOptions (sessionOnly (inl "missing"))
  = getHeaders refreshOptions (sessionOnly (inr "sk-env")).
Proof.
  split; [reflexivity|].
  exact (getHeaders_by_mode refreshOptions (sessionOnly (inl "missing"))
           (sessionOnly (inr "sk-env")) eq_refl).
Defined.

(** The first exchange of [refreshOptions], granted. *)
Lemma first_exchange_granted :
  exists st' : State,
    settle 0 grant (invoke refreshOptions 0 initialState) = Some st' /\
    refreshSession st'
    = Some {| accessToken := "at-1"; session_refreshToken := "rt-1";
              accountId := "acct-1"; expiresAt := Some 7200000%Z |} /\
    promises st' !! 0 = Some fulfilled.
Proof.
  eexists. split; [reflexivity|].
  destruct (exchange_outcome 0 grant (invoke refreshOptions 0 initialState)
              _ "rt-0" eq_refl eq_refl) as (_ & _ & _ & Hsession).
  exact Hsession.
Defined.

Definition grantedSession : Session :=
  {| accessToken := "at-1"; session_refreshToken := "rt-1";
     accountId := "acct-1"; expiresAt := Some 7200000%Z |}.

Definition afterGrant : State :=
  {| refreshSession := Some grantedSession;
     refreshSessionPromise := None;
     promises := [fulfilled];
     exchangeCalls := ["rt-0"];
     callers := [returned] |}.

Lemma fresh_session_two_callers :
  Forall (fun now : Z => (now + 3600000 < 7200000)%Z) [2; 3]%Z /\
  invokeAll refreshOptions [2; 3]%Z afterGrant
  = {| refreshSession := Some grantedSession;
       refreshSessionPromise := None;
       promises := [fulfilled];
       exchangeCalls := ["rt-0"];
       callers := [returned; returned; returned] |}.
Proof.
  assert (Hfresh : Forall (fun now : Z => (now + 3600000 < 7200000)%Z) [2; 3]%Z)
    by (repeat constructor).
  split; [exact Hfresh|].
  exact (fresh_session_needs_no_exchange refreshOptions grantedSession
           [2; 3]%Z afterGrant eq_refl Hfresh).
Defined.

End SessionScenarios.

Section CodexAuthScenarios.

Import JS Provider CodexAuth.
#[local] Existing Instance ExampleRuntime.runtime.

(** A process that has not read the file yet. *)
Definition justStarted (f : AuthFile) : State :=
  {| cachedAuth := None; cachedTokenInfo := None; file := f;
     reads := 0; writes := []; posted := [] |}.

Lemma justStarted_CacheOk (f : AuthFile) : CacheOk (justStarted f).
Proof. intros t info [=]. Qed.

(** The record of a login whose identity token expired at second 1. *)
Definition expiredTokens : Tokens :=
  {| tokens_id_token := "h.eyJleHAiOjF9.s";
     tokens_access_token := "at-0";
     tokens_refresh_token := "rt-0";
     tokens_account_id := Some "acct-0" |}.

Definition expiredLogin : AuthDotJson :=
  {| tokens := Some expiredTokens; api_key := None; last_refresh := None |}.

(** The same with an identity token that expires in 2100. *)
Definition validLogin : AuthDotJson :=
  {| tokens :=
       Some {| tokens_id_token := "h.eyJleHAiOjQxMDI0NDQ4MDB9.s";
               tokens_access_token := "at-0";
               tokens_refresh_token := "rt-0";
               tokens_account_id := Some "acct-0" |};
     api_key := None; last_refresh := None |}.

Definition rotation : TokenResponse :=
  {| id_token := "h.eyJleHAiOjQxMDI0NDQ4MDB9.s"; access_token := "at-1";
     refresh_token := Some "rt-1" |}.


Lemma expired_login_is_renewed :
  let result :=
    getAccessToken 5000 (inr rotation) "2026-01-01T00:00:00.000Z"
      (justStarted (stored expiredLogin)) in
  fst result = inr "at-1" /\
  file (snd result)
  = stored {| tokens :=
                Some {| tokens_id_token := "h.eyJleHAiOjQxMDI0NDQ4MDB9.s";
                        tokens_access_token := "at-1";
                        tokens_refresh_token := "rt-1";
                        tokens_account_id := Some "acct-0" |};
              api_key := None;
              last_refresh := Some "2026-01-01T00:00:00.000Z" |}.
Proof.
  destruct (granted_refresh_is_persisted 5000 rotation
              "2026-01-01T00:00:00.000Z" (justStarted (stored expiredLogin))
              expiredLogin expiredTokens (justStarted_CacheOk _)
              eq_refl eq_refl (mk_is_Some _ "rt-0" eq_refl))
    as (Hfile & _ & _ & Hresult).
  split; [exact Hresult | exact Hfile].
Defined.

Lemma valid_login_headers_twice :
  let first :=
    getHeaders 5000 (inl "denied") "2026-01-01T00:00:00.000Z"
      (justStarted (stored validLogin)) in
  let second :=
    getHeaders 6000 (inl "denied") "2026-01-01T00:00:01.000Z" (snd first) in
  (exists m : gmap string string,
      fst first = inr m /\ m !! "Authorization" = Some "Bearer at-0") /\
  fst second = fst first /\
  reads (snd second) = 1 /\ posted (snd second) = [].
Proof.
  destruct (getHeaders_twice 5000 6000 (inl "denied") (inl "denied")
              "2026-01-01T00:00:00.000Z" "2026-01-01T00:00:01.000Z"
              (justStarted (stored validLogin)) (justStarted_CacheOk _)
              eq_refl eq_refl)
    as (Hsame & (_ & _ & Hposted) & _ & Hreads).
  split; [eexists; split; reflexivity|].
  split; [exact Hsame|]. split; [|exact Hposted].
  exact (Hreads (mk_is_Some _ validLogin eq_refl)).
Defined.

(** A file that holds an API key only. *)
Definition keyOnly : AuthDotJson :=
  {| tokens := None; api_key := Some "sk-file"; last_refresh := None |}.

Lemma key_only_file_gives_no_headers :
  fst (getAccessToken 0 (inl "denied") "2026-01-01T00:00:00.000Z"
         (justStarted (stored keyOnly)))
  = inr "sk-file" /\
  fst (getHeaders 0 (inl "denied") "2026-01-01T00:00:00.000Z"
         (justStarted (stored keyOnly)))
  = inl "No account ID found in auth.json".
Proof.
  destruct (api_key_alone_gives_no_headers 0 (inl "denied")
              "2026-01-01T00:00:00.000Z" (justStarted (stored keyOnly))
              keyOnly "sk-file" (justStarted_CacheOk _) eq_refl eq_refl eq_refl
              ltac:(discriminate))
    as (Htoken & Hheaders & _).
  split; [exact Htoken | exact Hheaders].
Defined.

Lemma two_part_token_is_refused :
  dots "header.payload" = 1 /\
  parseIdToken "header.payload" (justStarted absent)
  = (inl "Failed to parse ID token: Error: Invalid JWT token format",
     justStarted absent).
Proof.
  split; [reflexivity|].
  exact (parseIdToken_needs_three_parts "header.payload" (justStarted absent)
           (justStarted_CacheOk _) ltac:(discriminate)).
Defined.

(** A record without account id, whose identity token names one. *)
Definition claimedTokens : Tokens :=
  {| tokens_id_token := "h.eyJhY2NvdW50X2lkIjoiYWNjdC05In0.s";
     tokens_access_token := "at-0";
     tokens_refresh_token := "";
     tokens_account_id := None |}.

Definition claimedLogin : AuthDotJson :=
  {| tokens := Some claimedTokens; api_key := None; last_refresh := None |}.

Lemma account_id_from_the_claims :
  padded "eyJhY2NvdW50X2lkIjoiYWNjdC05In0"
  = "eyJhY2NvdW50X2lkIjoiYWNjdC05In0=" /\
  fst (getAccountId (justStarted (stored claimedLogin))) = inr "acct-9".
Proof.
  split; [reflexivity|].
  destruct (account_id_resolution (justStarted (stored claimedLogin))
              claimedLogin claimedTokens (justStarted_CacheOk _)
              eq_refl eq_refl) as [_ Hclaims].
  exact (Hclaims "h" "eyJhY2NvdW50X2lkIjoiYWNjdC05In0" "s"
           ExampleRuntime.namesAccount
           {| claim_email := None; claim_name := None; claim_exp := None;
              claim_iat := None; claim_labs_account_id := None;
              claim_account_id := Some "acct-9" |}
           (or_introl eq_refl) eq_refl eq_refl eq_refl eq_refl eq_refl
           eq_refl).
Defined.

Lemma token_without_expiry :
  isTokenExpired
    {| email := None; token_name := None; exp := None; iat := None;
       account_id := None |} 0 = true /\
  sessionIsFresh
    (Some {| accessToken := "at-1"; session_refreshToken := "rt-1";
             accountId := "acct-1"; expiresAt := None |}) 0 = true.
Proof.
  destruct (expiry_checks_differ
              {| email := None; token_name := None; exp := None; iat := None;
                 account_id := None |}
              {| accessToken := "at-1"; session_refreshToken := "rt-1";
                 accountId := "acct-1"; expiresAt := None |} 0 eq_refl)
    as (Hnone & _).
  exact (Hnone eq_refl).
Defined.

End CodexAuthScenarios.
